(** * Chain synchronisation core of the p2p oracle node

    A shallow embedding of [blockchain/sync/sync_mgr.go] (the sync manager)
    and of the block pool ([package pool]: [StoreBlock] and its lmdb
    transaction), followed by the properties of the specification that are
    stated about them.

    Conventions.
    - A Go [uint64] is a [Z] whose wrap-around is written out ([add64],
      [sub64]); a Go [[]byte] is a [list byte]; a Go [string] is a [string].
    - The lmdb database ["blocks"] is a finite map from keys to values.
    - Everything the two files import and do not define (the peer RPC
      transport, the mempool, the Merkle verifier, CBOR, lmdb's failures,
      the policy constants, the height index of the pool) is a field of the
      class [Externals]; the embedded code is parametric in it.
    - The manager is stateful: every operation is a function of the state
      [SyncManager], which also carries the trace of what the code did
      (RPC calls, pool and mempool writes, log lines).  The two [for]
      loops that run until a counter or a list is used up take fuel.
    - A call that can fail to return has an [option] result: [Some x] when
      it returns [x], [None] when it has not returned, because the fuel
      ran out or because a panic unwound it; a panic is recorded in the
      trace, as its last event. *)

From Stdlib Require Import ZArith Lia Strings.Byte Strings.Ascii.
From stdpp Require Import base option list strings gmap.

Local Open Scope Z_scope.

(** ** Data *)

Abbreviation bytes := (list byte).

#[global] Instance byte_eq_decision : EqDecision byte := Byte.byte_eq_dec.

(** [uint64] arithmetic of Go: results are reduced modulo [2^64]. *)
Definition uint64_modulus : Z := 2 ^ 64.
Definition MaxUint64 : Z := 18446744073709551615.
Definition wrap64 (z : Z) : Z := z mod uint64_modulus.
Definition add64 (a b : Z) : Z := wrap64 (a + b).
Definition sub64 (a b : Z) : Z := wrap64 (a - b).
Definition is_uint64 (z : Z) : Prop := 0 <= z < uint64_modulus.

(** [merkletree.Proof] of go-merkletree. *)
Record Proof := mkProof { Hashes : list bytes; Index : Z }.

(** Modelled from the spec: the transaction of [blockchain/types], whose
    declaration is not among the sources.  The sync manager reads its
    hash and its Merkle proof (a pointer, so it can be [nil]); [Data] is
    the rest of the record, opaque to the core. *)
Module Transaction.
Record t := mk { Hash : bytes; MerkleProof : option Proof; Data : bytes }.
End Transaction.

(** Modelled from the spec: the header of [blockchain/types], with the
    four fields the core reads; heights are 64-bit unsigned. *)
Module BlockHeader.
Record t := mk {
  Height : Z;
  Hash : bytes;
  LastHash : bytes;
  LastHashProof : option Proof
}.
End BlockHeader.

(** Modelled from the spec: a block is a header and an ordered sequence
    of transactions. *)
Module Block.
Record t := mk { Header : BlockHeader.t; Data : list Transaction.t }.
End Block.

(** Go [error] values.  The three sentinels are those of [package pool];
    [ErrExternal] stands for an error made by an imported library (lmdb,
    cbor, gorpc, merkletree, the mempool); [Errorf] is [fmt.Errorf] with
    its format string and its arguments, left unrendered, for the verbs
    the code uses ([%d], [%s], [%v]: none of them wraps); [ErrWrapped] is
    an error whose [Unwrap] gives [inner], as [fmt.Errorf] makes with
    [%w]: an imported library may return one. *)
Inductive Error :=
| ErrBlockNotFound
| ErrLatestHeightNil
| ErrTxNotFound
| ErrExternal (msg : string)
| Errorf (format : string) (args : list FmtArg)
| ErrWrapped (text : string) (inner : Error)
with FmtArg :=
| ArgUint64 (n : Z)
| ArgHeights (hs : list Z)
| ArgErrorText (e : Error).

(** [err == pool.ErrLatestHeightNil] *)
Definition is_ErrLatestHeightNil (e : option Error) : bool :=
  match e with Some ErrLatestHeightNil => true | _ => false end.

(** [errors.Is(err, pool.ErrTxNotFound)] on an error that is not [nil]:
    the sentinel itself, or an error that wraps it at any depth. *)
Fixpoint wraps_ErrTxNotFound (e : Error) : bool :=
  match e with
  | ErrTxNotFound => true
  | ErrWrapped _ inner => wraps_ErrTxNotFound inner
  | _ => false
  end.

(** [errors.Is(err, pool.ErrTxNotFound)] *)
Definition errors_Is_ErrTxNotFound (e : option Error) : bool :=
  match e with Some e => wraps_ErrTxNotFound e | None => false end.

(** A Go call either returns or panics. *)
Inductive Outcome (A : Type) :=
| Returned (a : A)
| Panicked (msg : string).
Arguments Returned {A} a.
Arguments Panicked {A} msg.

(** The value of the run-time panic of a nil pointer dereference. *)
Definition nil_pointer_dereference : string :=
  "invalid memory address or nil pointer dereference".

(** Modelled from the spec: the request and reply shapes of [node/wire],
    whose declarations are not among the sources. *)
Record LastBlockHeightReply := mkLastBlockHeightReply {
  lbh_Height : Z;
  lbh_Error : option Error
}.

Record GetRangeOfBlocksReply := mkGetRangeOfBlocksReply {
  Blocks : list Block.t;
  FailedBlockHeights : list Z;
  grb_Error : option Error
}.

Record InvItem := mkInvItem { inv_Hash : bytes }.
Record InvMessage := mkInvMessage { Inventory : list InvItem }.

Record GetMempoolTxsReply := mkGetMempoolTxsReply {
  Transactions : list Transaction.t;
  NotFoundTxs : list bytes;
  gmt_Error : option Error
}.

(** Modelled from the spec: the message of [pubsub].  Its payload is an
    [interface{}]; the handler's type assertion succeeds on a
    [Transaction] only. *)
Inductive Payload :=
| PayloadTransaction (tx : Transaction.t)
| PayloadOther (raw : bytes).

Record GenericMessage := mkGenericMessage { Payload_of : Payload }.

(** ** bytes *)

(** [bytes.Compare]: lexicographic, [0] exactly on equal contents. *)
Fixpoint bytes_Compare (a b : bytes) : Z :=
  match a, b with
  | [], [] => 0
  | [], _ :: _ => -1
  | _ :: _, [] => 1
  | x :: a', y :: b' =>
      match (Byte.to_N x ?= Byte.to_N y)%N with
      | Lt => -1
      | Gt => 1
      | Eq => bytes_Compare a' b'
      end
  end.

(** ** encoding/hex *)

Definition hextable : string := "0123456789abcdef".

Definition hexchar (n : N) : ascii :=
  match String.get (N.to_nat n) hextable with
  | Some c => c
  | None => "0"%char
  end.

(** [hex.EncodeToString]: [dst[2i] = hextable[v>>4]],
    [dst[2i+1] = hextable[v&0x0f]]. *)
Fixpoint EncodeToString (src : bytes) : string :=
  match src with
  | [] => EmptyString
  | v :: rest =>
      String (hexchar (N.shiftr (Byte.to_N v) 4))
        (String (hexchar (N.land (Byte.to_N v) 15)) (EncodeToString rest))
  end.

(** The specification's words, "the lowercase hex encoding": every byte
    gives its two base-16 digits, high digit first, the digits ten to
    fifteen written [a] to [f]. *)
Definition lowercase_digit (d : N) : ascii :=
  if (d <? 10)%N then ascii_of_N (48 + d) else ascii_of_N (97 + (d - 10)).

Definition lowercase_hex (src : bytes) : string :=
  fold_right
    (fun v acc =>
       String (lowercase_digit (Byte.to_N v / 16))
         (String (lowercase_digit (Byte.to_N v mod 16)) acc))
    EmptyString src.

(** ** Block pool *)

Definition DefaultBlockPrefix : string := "block_".
Definition DefaultBlockHeaderPrefix : string := "header_".

(** The named database ["blocks"] of the lmdb environment. *)
Abbreviation DB := (gmap string bytes).

(** ** What the code imports *)

Class Externals := {
  (** state of the bootstrap peer and of the transport to it *)
  World : Type;
  (** [pool.Mempool] *)
  MempoolT : Type;
  (** [policy.MaxBlockCountForRetrieving], [policy.MaxTransactionCountForRetrieving] *)
  MaxBlockCountForRetrieving : Z;
  MaxTransactionCountForRetrieving : Z;
  (** [types2.GenesisBlock()] *)
  GenesisBlock : Block.t;
  (** [tx.ValidateHash()] *)
  ValidateHash : Transaction.t -> bool;
  (** what [merkletree.VerifyProofUsing(data, salt, proof, pollard,
      keccak256.New())] returns for a [proof] that is not [nil] *)
  merkletree_verify : bytes -> bool -> Proof -> list bytes -> Error + bool;
  (** [cbor.Marshal] at the two types it is called on *)
  cbor_Marshal_block : Block.t -> Error + bytes;
  cbor_Marshal_header : BlockHeader.t -> Error + bytes;
  (** lmdb: whether [txn.Put] fails in a transaction holding [txn], and
      whether committing [txn] over [db] fails *)
  lmdb_put_error : DB -> string -> bytes -> option Error;
  lmdb_commit_error : DB -> DB -> option Error;
  (** the height index of the pool, used by the sync manager and not
      defined in the pool's file: a height-indexed header lookup, and the
      latest height, which Go returns together with an error *)
  FetchBlockHeaderByHeight : DB -> Z -> Error + BlockHeader.t;
  GetLatestBlockHeight : DB -> Z * option Error;
  (** the mempool's contract *)
  mempool_GetTransaction : MempoolT -> bytes -> Error + Transaction.t;
  mempool_StoreTx : MempoolT -> Transaction.t -> MempoolT * option Error;
  (** [rpcClient.Call(bootstrapPeer, "NetworkService", method, arg, &reply)]
      for the four methods: the transport error or the reply *)
  rpc_LastBlockHeight : World -> World * (Error + LastBlockHeightReply);
  rpc_GetRangeOfBlocks : World -> Z -> Z -> World * (Error + GetRangeOfBlocksReply);
  rpc_Mempool : World -> World * (Error + InvMessage);
  rpc_GetMempoolTxs : World -> list bytes -> World * (Error + GetMempoolTxsReply)
}.

Section MerkleCall.
Context `{E : Externals}.

(** The call [merkletree.VerifyProofUsing(data, salt, proof, pollard,
    keccak256.New())] with the pointer [proof] as the caller holds it.
    The verifier reads [proof.Hashes] and [proof.Index] without a nil
    check: on a [nil] pointer the call panics. *)
Definition VerifyProofUsing (data : bytes) (salt : bool) (proof : option Proof)
    (pollard : list bytes) : Outcome (Error + bool) :=
  match proof with
  | None => Panicked nil_pointer_dereference
  | Some p => Returned (merkletree_verify data salt p pollard)
  end.

End MerkleCall.

Section BlockPool.
Context `{E : Externals}.

(** [txn.Put(dbi, key, val, 0)] *)
Definition txn_Put (txn : DB) (key : string) (val : bytes) : Error + DB :=
  match lmdb_put_error txn key val with
  | Some err => inl err
  | None => inr (<[key := val]> txn)
  end.

(** [env.Update(fn)]: runs [fn] in a write transaction, commits when
    [fn] returns [nil], aborts otherwise. *)
Definition env_Update (db : DB) (fn : DB -> Error + DB) : DB * option Error :=
  match fn db with
  | inl err => (db, Some err)
  | inr txn =>
      match lmdb_commit_error db txn with
      | Some err => (db, Some err)
      | None => (txn, None)
      end
  end.

Definition StoreBlock (db : DB) (block : Block.t) : DB * option Error :=
  env_Update db (fun txn =>
    match cbor_Marshal_block block with
    | inl err => inl err
    | inr data =>
        match cbor_Marshal_header (Block.Header block) with
        | inl err => inl err
        | inr headerData =>
            let blockHash := EncodeToString (BlockHeader.Hash (Block.Header block)) in
            match txn_Put txn (DefaultBlockPrefix +:+ blockHash) data with
            | inl err => inl err
            | inr txn1 =>
                txn_Put txn1 (DefaultBlockHeaderPrefix +:+ blockHash) headerData
            end
        end
    end).

End BlockPool.

(** ** Sync manager: state, trace and the monad of its methods *)

Inductive RpcCall :=
| CallLastBlockHeight
| CallGetRangeOfBlocks (From To : Z)
| CallMempool
| CallGetMempoolTxs (Items : list bytes).

(** Lines of [logrus]: [Error(err)], [Warn(msg)], [Warnf(format, args...)]
    and [Warnf(err.Error())], where the text of the error is the format. *)
Inductive LogLine :=
| LogError (err : Error)
| LogWarn (msg : string)
| LogWarnf (format : string) (args : list FmtArg)
| LogWarnfText (err : Error).

(** What an observer of the manager sees, in order.
    [EvProcessReceivedBlock] marks an entry into [processReceivedBlock];
    [EvPanic] is a panic that nothing recovers, with the value it was
    raised with. *)
Inductive Event :=
| EvHookNewTx
| EvRPC (call : RpcCall)
| EvProcessReceivedBlock (block : Block.t)
| EvStoreBlock (block : Block.t)
| EvStoreTx (tx : Transaction.t)
| EvLog (line : LogLine)
| EvGoSyncLoop
| EvCtxCancel
| EvPanic (msg : string).

Section SyncManager.
Context `{E : Externals}.

(** [struct syncManager].  The pool and the mempool are the objects the
    manager points to; [wg] is the counter of the wait group; [net] is
    the RPC client with its bootstrap peer. *)
Record SyncManager := mkSyncManager {
  blockpool : DB;
  mempool : MempoolT;
  wg : nat;
  net : World;
  initialSyncCompleted : bool;
  trace : list Event
}.

Definition M (A : Type) : Type := SyncManager -> A * SyncManager.

Definition ret {A} (a : A) : M A := fun sm => (a, sm).
Definition bind {A B} (m : M A) (k : A -> M B) : M B :=
  fun sm => let '(a, sm1) := m sm in k a sm1.

Definition emit (ev : Event) : M unit := fun sm =>
  (tt, mkSyncManager (blockpool sm) (mempool sm) (wg sm) (net sm)
         (initialSyncCompleted sm) (trace sm ++ [ev])).

Definition logrus (line : LogLine) : M unit := emit (EvLog line).

(** A panic in a call that nothing recovers: the call does not return. *)
Definition panic {A} (msg : string) : M (option A) := fun sm =>
  (None, snd (emit (EvPanic msg) sm)).

Definition set_blockpool (db : DB) : M unit := fun sm =>
  (tt, mkSyncManager db (mempool sm) (wg sm) (net sm) (initialSyncCompleted sm) (trace sm)).

Definition set_mempool (mp : MempoolT) : M unit := fun sm =>
  (tt, mkSyncManager (blockpool sm) mp (wg sm) (net sm) (initialSyncCompleted sm) (trace sm)).

Definition set_net (w : World) : M unit := fun sm =>
  (tt, mkSyncManager (blockpool sm) (mempool sm) (wg sm) w (initialSyncCompleted sm)
         (trace sm)).

(** [sync.WaitGroup]: [Add] adds to the counter, [Wait] returns once the
    counter is zero and blocks until then. *)
Definition wg_Add (delta : nat) : M unit := fun sm =>
  (tt, mkSyncManager (blockpool sm) (mempool sm) (wg sm + delta) (net sm)
         (initialSyncCompleted sm) (trace sm)).

Definition wg_Wait : M (option unit) := fun sm =>
  (match wg sm with O => Some tt | S _ => None end, sm).

Definition gets {A} (f : SyncManager -> A) : M A := fun sm => (f sm, sm).
End SyncManager.

Declare Scope go_scope.
Delimit Scope go_scope with go.
Notation "'let*' x ':=' m 'in' k" := (bind m (fun x => k))
  (at level 10, x pattern, m at level 100, k at level 200) : go_scope.
Notation "m ';;;' k" := (bind m (fun _ => k))
  (at level 100, k at level 200, right associativity) : go_scope.

Section SyncManagerCode.
Context `{E : Externals}.
Local Open Scope go_scope.

(** [sm.blockpool.StoreBlock(b)] *)
Definition blockpool_StoreBlock (block : Block.t) : M (option Error) :=
  emit (EvStoreBlock block) ;;;
  let* db := gets blockpool in
  let '(db', err) := StoreBlock db block in
  set_blockpool db' ;;;
  ret err.

(** [sm.mempool.StoreTx(&tx)] *)
Definition mempool_StoreTx_call (tx : Transaction.t) : M (option Error) :=
  emit (EvStoreTx tx) ;;;
  let* mp := gets mempool in
  let '(mp', err) := mempool_StoreTx mp tx in
  set_mempool mp' ;;;
  ret err.

(** [sm.rpcClient.Call(sm.bootstrapPeer, "NetworkService", ...)] *)
Definition Call_LastBlockHeight : M (Error + LastBlockHeightReply) :=
  emit (EvRPC CallLastBlockHeight) ;;;
  let* w := gets net in
  let '(w', r) := rpc_LastBlockHeight w in
  set_net w' ;;; ret r.

Definition Call_GetRangeOfBlocks (from to : Z) : M (Error + GetRangeOfBlocksReply) :=
  emit (EvRPC (CallGetRangeOfBlocks from to)) ;;;
  let* w := gets net in
  let '(w', r) := rpc_GetRangeOfBlocks w from to in
  set_net w' ;;; ret r.

Definition Call_Mempool : M (Error + InvMessage) :=
  emit (EvRPC CallMempool) ;;;
  let* w := gets net in
  let '(w', r) := rpc_Mempool w in
  set_net w' ;;; ret r.

Definition Call_GetMempoolTxs (items : list bytes) : M (Error + GetMempoolTxsReply) :=
  emit (EvRPC (CallGetMempoolTxs items)) ;;;
  let* w := gets net in
  let '(w', r) := rpc_GetMempoolTxs w items in
  set_net w' ;;; ret r.

(** The loop over [block.Data] of [processReceivedBlock]: the error of
    the first transaction that fails a check, [None] when all pass.  The
    verifier is called after the nil check of [tx.MerkleProof], on a
    proof that is not [nil]. *)
Fixpoint checkTransactions (blockHash : bytes) (data : list Transaction.t)
  : option Error :=
  match data with
  | [] => None
  | tx :: rest =>
      match Transaction.MerkleProof tx with
      | None => Some (Errorf "block transaction hasn't merkle proof" [])
      | Some proof =>
          match merkletree_verify (Transaction.Hash tx) false proof [blockHash] with
          | inl err =>
              Some (Errorf "failed to verify tx hash merkle proof: %s" [ArgErrorText err])
          | inr txProofVerified =>
              if negb txProofVerified then
                Some (Errorf "transaction doesn't present in block hash merkle tree" [])
              else if negb (ValidateHash tx) then
                Some (Errorf "transaction hash is invalid" [])
              else checkTransactions blockHash rest
          end
      end
  end.

(** [processReceivedBlock].  [block.Header.LastHashProof] is passed to
    the verifier as it is, without a nil check.  [Some err] is the error
    returned ([Some None] for [nil]); [None]: the call panicked. *)
Definition processReceivedBlock (block : Block.t) : M (option (option Error)) :=
  emit (EvProcessReceivedBlock block) ;;;
  let header := Block.Header block in
  let prevHeight := sub64 (BlockHeader.Height header) 1 in
  let* db := gets blockpool in
  match FetchBlockHeaderByHeight db prevHeight with
  | inl _ =>
      ret (Some (Some (Errorf "failed to retrieve previous block %d"
                         [ArgUint64 prevHeight])))
  | inr previousBlockHeader =>
      if negb (bytes_Compare (BlockHeader.LastHash header)
                 (BlockHeader.Hash previousBlockHeader) =? 0) then
        ret (Some (Some (Errorf "block header has invalid last block hash" [])))
      else
        match VerifyProofUsing (BlockHeader.Hash previousBlockHeader) false
                (BlockHeader.LastHashProof header) [BlockHeader.Hash header] with
        | Panicked msg => panic msg
        | Returned (inl err) =>
            ret (Some (Some (Errorf "failed to verify last block hash merkle proof: %s"
                               [ArgErrorText err])))
        | Returned (inr verified) =>
            if negb verified then
              ret (Some (Some (Errorf
                "merkle hash of current block doesn't contain hash of previous block" [])))
            else
              match checkTransactions (BlockHeader.Hash header) (Block.Data block) with
              | Some err => ret (Some (Some err))
              | None =>
                  let* err := blockpool_StoreBlock block in
                  match err with
                  | Some err =>
                      ret (Some (Some (Errorf "failed to store block in blockpool: %s"
                                         [ArgErrorText err])))
                  | None => ret (Some None)
                  end
              end
        end
  end.

(** The [for heightCount > 0] loop of [doInitialBlockPoolSync].  The
    result is [None] when the fuel runs out, [Some (inl err)] when the
    procedure returns [err], [Some (inr receivedBlocks)] when the loop
    ends. *)
Fixpoint fetchBlocks (fuel : nat) (heightCount to : Z) (receivedBlocks : list Block.t)
  : M (option (Error + list Block.t)) :=
  if negb (0 <? heightCount) then ret (Some (inr receivedBlocks))
  else
    match fuel with
    | O => ret None
    | S fuel' =>
        let from := add64 to 1 in
        let addedVal :=
          if heightCount <? MaxBlockCountForRetrieving then heightCount
          else MaxBlockCountForRetrieving in
        let heightCount := sub64 heightCount addedVal in
        let to := add64 to addedVal in
        let* r := Call_GetRangeOfBlocks from to in
        match r with
        | inl err => ret (Some (inl err))
        | inr getBlocksReply =>
            let receivedBlocks := receivedBlocks ++ Blocks getBlocksReply in
            (if negb (length (FailedBlockHeights getBlocksReply) =? 0)%nat then
               logrus (LogWarnf "remote node is unable to retrieve block heights: %s"
                         [ArgHeights (FailedBlockHeights getBlocksReply)])
             else ret tt) ;;;
            fetchBlocks fuel' heightCount to receivedBlocks
        end
    end.

(** The [for _, b := range receivedBlocks] loop.  [Some tt]: the loop
    ended; [None]: a call of [processReceivedBlock] panicked, which
    leaves the loop with the blocks after it untouched. *)
Fixpoint processBlocks (receivedBlocks : list Block.t) : M (option unit) :=
  match receivedBlocks with
  | [] => ret (Some tt)
  | b :: rest =>
      let* r := processReceivedBlock b in
      match r with
      | None => ret None
      | Some (Some err) =>
          logrus (LogWarnf "unable to process block %d: %s"
                    [ArgUint64 (BlockHeader.Height (Block.Header b)); ArgErrorText err]) ;;;
          processBlocks rest
      | Some None => processBlocks rest
      end
  end.

(** Lines 110 to 148 of [doInitialBlockPoolSync]: what is done once the
    local height and the peer's height are known. *)
Definition catchUp (fuel : nat) (ourLastHeight replyHeight : Z)
  : M (option (option Error)) :=
  if ourLastHeight <? replyHeight then
    let heightCount := sub64 replyHeight ourLastHeight in
    let* r := fetchBlocks fuel heightCount ourLastHeight [] in
    match r with
    | None => ret None
    | Some (inl err) => ret (Some (Some err))
    | Some (inr receivedBlocks) =>
        let* r := processBlocks receivedBlocks in
        match r with
        | None => ret None
        | Some _ => ret (Some None)
        end
    end
  else ret (Some None).

(** Lines 101 to 148: the [LastBlockHeight] call and what follows it. *)
Definition syncWithPeer (fuel : nat) (ourLastHeight : Z) : M (option (option Error)) :=
  let* r := Call_LastBlockHeight in
  match r with
  | inl err => ret (Some (Some err))
  | inr reply =>
      match lbh_Error reply with
      | Some err => ret (Some (Some err))
      | None => catchUp fuel ourLastHeight (lbh_Height reply)
      end
  end.

(** [Some err]: the Go function returned [err]; [None]: it has not
    returned, the fuel of the range loop ran out or a call of
    [processReceivedBlock] panicked. *)
Definition doInitialBlockPoolSync (fuel : nat) : M (option (option Error)) :=
  let* completed := gets initialSyncCompleted in
  if completed then ret (Some None)
  else
    let* db := gets blockpool in
    let '(ourLastHeight, err) := GetLatestBlockHeight db in
    let* err := (if is_ErrLatestHeightNil err then blockpool_StoreBlock GenesisBlock
                 else ret None) in
    match err with
    | Some err => ret (Some (Some err))
    | None => syncWithPeer fuel ourLastHeight
    end.

(** The [for _, v := range reply.Inventory] loop of
    [doInitialMempoolSync]: the hashes the mempool does not know. *)
Fixpoint missingTransactions (mp : MempoolT) (inventory : list InvItem)
    (txsToRetrieve : list bytes) : list bytes :=
  match inventory with
  | [] => txsToRetrieve
  | v :: rest =>
      let err :=
        match mempool_GetTransaction mp (inv_Hash v) with
        | inl err => Some err
        | inr _ => None
        end in
      missingTransactions mp rest
        (if errors_Is_ErrTxNotFound err then txsToRetrieve ++ [inv_Hash v]
         else txsToRetrieve)
  end.

(** The [for _, v := range getMempoolTxReply.Transactions] loop. *)
Fixpoint storeTransactions (txs : list Transaction.t) : M unit :=
  match txs with
  | [] => ret tt
  | v :: rest =>
      let* err := mempool_StoreTx_call v in
      match err with
      | Some err => logrus (LogWarnfText err) ;;; storeTransactions rest
      | None => storeTransactions rest
      end
  end.

(** The batching [for] loop of [doInitialMempoolSync] (lines 167 to
    199).  In the [else] branch the Go code assigns [txHashes] and leaves
    [txsToRetrieve] as it is. *)
Fixpoint retrieveTransactions (fuel : nat) (txsToRetrieve : list bytes)
  : M (option (option Error)) :=
  if (length txsToRetrieve =? 0)%nat then ret (Some None)
  else
    match fuel with
    | O => ret None
    | S fuel' =>
        let '(txHashes, txsToRetrieve) :=
          if MaxTransactionCountForRetrieving <? Z.of_nat (length txsToRetrieve) then
            (take (Z.to_nat MaxTransactionCountForRetrieving) txsToRetrieve,
             drop (Z.to_nat MaxTransactionCountForRetrieving) txsToRetrieve)
          else (txsToRetrieve, txsToRetrieve) in
        let* r := Call_GetMempoolTxs txHashes in
        match r with
        | inl err => ret (Some (Some err))
        | inr getMempoolTxReply =>
            match gmt_Error getMempoolTxReply with
            | Some err => ret (Some (Some err))
            | None =>
                storeTransactions (Transactions getMempoolTxReply) ;;;
                retrieveTransactions fuel' txsToRetrieve
            end
        end
    end.

Definition doInitialMempoolSync (fuel : nat) : M (option (option Error)) :=
  let* r := Call_Mempool in
  match r with
  | inl err => ret (Some (Some err))
  | inr reply =>
      let* mp := gets mempool in
      let txsToRetrieve := missingTransactions mp (Inventory reply) [] in
      retrieveTransactions fuel txsToRetrieve
  end.

Definition syncLoop : M unit := ret tt.

Definition onNewTransaction (message : GenericMessage) : M unit :=
  match Payload_of message with
  | PayloadOther _ => logrus (LogWarn "failed to convert payload to Transaction")
  | PayloadTransaction tx =>
      if negb (ValidateHash tx) then
        logrus (LogWarn "failed to validate tx hash, rejecting it")
      else
        let* err := mempool_StoreTx_call tx in
        match err with
        | Some err =>
            logrus (LogWarnf "failed to store incoming transaction in mempool: %s"
                      [ArgErrorText err])
        | None => ret tt
        end
  end.

(** [NewSyncManager]: the fields as the constructor sets them, and the
    hook of [onNewTransaction] on the new-transaction topic. *)
Definition NewSyncManager (bp : DB) (mp : MempoolT) (p2pRPCClient : World)
  : SyncManager :=
  {| blockpool := bp;
     mempool := mp;
     wg := 0;
     net := p2pRPCClient;
     initialSyncCompleted := false;
     trace := [EvHookNewTx] |}.

(** [Start]; [None] when one of the two syncs has not returned. *)
Definition Start (fuel : nat) : M (option unit) :=
  wg_Add 1 ;;;
  let* r := doInitialBlockPoolSync fuel in
  match r with
  | None => ret None
  | Some err =>
      (match err with Some err => logrus (LogError err) | None => ret tt end) ;;;
      let* r := doInitialMempoolSync fuel in
      match r with
      | None => ret None
      | Some err =>
          (match err with Some err => logrus (LogError err) | None => ret tt end) ;;;
          emit EvGoSyncLoop ;;;
          ret (Some tt)
      end
  end.

(** [Stop] cancels the context and waits on the wait group.  Nothing in
    the package calls [wg.Done], so the wait ends only when [Start] has
    not been called: [None] is a call that blocks for ever. *)
Definition Stop : M (option unit) :=
  emit EvCtxCancel ;;;
  wg_Wait.

End SyncManagerCode.


(** ** Block pool: the read side *)

(** What [txn.Get] returns besides a value: lmdb's not-found, which
    [lmdb.IsNotFound] recognises, or another error. *)
Inductive GetError :=
| MDB_NOTFOUND
| GetFailed (err : Error).

(** [lmdb.IsNotFound(err)] *)
Definition IsNotFound (e : GetError) : bool :=
  match e with MDB_NOTFOUND => true | GetFailed _ => false end.

(** The error of a failed [txn.Get] as the Go [error] it is returned as. *)
Definition GetError_error (e : GetError) : Error :=
  match e with
  | MDB_NOTFOUND => ErrExternal "MDB_NOTFOUND: No matching key/data pair found"
  | GetFailed err => err
  end.

(** What the read functions of the pool import: lmdb's failures on the
    read path (beginning a read transaction, reading a key) and
    [cbor.Unmarshal] at the two types it is called on.  Whether a read
    fails depends on the state of the lmdb environment [bp.dbEnv] at the
    time of the call (its reader table, its file), which changes between
    calls while the contents of the database stay the same: every read
    function takes that state as its first argument. *)
Class PoolReads := {
  EnvState : Type;
  lmdb_view_error : EnvState -> DB -> option Error;
  lmdb_get_error : EnvState -> DB -> string -> option Error;
  cbor_Unmarshal_block : bytes -> Error + Block.t;
  cbor_Unmarshal_header : bytes -> Error + BlockHeader.t
}.

Section BlockPoolReads.
Context `{R : PoolReads}.

(** [txn.Get(dbi, key)] *)
Definition txn_Get (env : EnvState) (txn : DB) (key : string) : GetError + bytes :=
  match lmdb_get_error env txn key with
  | Some err => inl (GetFailed err)
  | None =>
      match txn !! key with
      | Some val => inr val
      | None => inl MDB_NOTFOUND
      end
  end.

(** [env.View(fn)]: runs [fn] in a read transaction; the closures of the
    pool assign their result to a captured variable, here the value
    returned beside the error. *)
Definition env_View {A} (env : EnvState) (db : DB) (fn : DB -> Error + A)
  : Error + A :=
  match lmdb_view_error env db with
  | Some err => inl err
  | None => fn db
  end.

Definition HasBlock (env : EnvState) (db : DB) (blockHash : string)
  : bool * option Error :=
  match env_View env db (fun txn =>
          match txn_Get env txn (DefaultBlockPrefix +:+ blockHash) with
          | inl err => if IsNotFound err then inr false else inl (GetError_error err)
          | inr _ => inr true
          end) with
  | inl err => (false, Some err)
  | inr blockExists => (blockExists, None)
  end.

Definition FetchBlock (env : EnvState) (db : DB) (blockHash : string)
  : Error + Block.t :=
  env_View env db (fun txn =>
    match txn_Get env txn (DefaultBlockPrefix +:+ blockHash) with
    | inl err => if IsNotFound err then inl ErrBlockNotFound else inl (GetError_error err)
    | inr data => cbor_Unmarshal_block data
    end).

Definition FetchBlockHeader (env : EnvState) (db : DB) (blockHash : string)
  : Error + BlockHeader.t :=
  env_View env db (fun txn =>
    match txn_Get env txn (DefaultBlockHeaderPrefix +:+ blockHash) with
    | inl err => if IsNotFound err then inl ErrBlockNotFound else inl (GetError_error err)
    | inr data => cbor_Unmarshal_header data
    end).

End BlockPoolReads.

(** ** package rpc: the client of the Lotus node *)

Record RequestBody := mkRequestBody {
  Jsonrpc : string;
  Method : string;
  Params : list string;
  ID : Z
}.

Definition NewRequestBody (method : string) : RequestBody :=
  {| Jsonrpc := "2.0"; Method := method; Params := []; ID := 0 |}.

(** [LotusClient]; of the [jwt.Token] only [Raw] is read. *)
Record LotusClient := mkLotusClient { host : string; jwt_Raw : string }.

Definition NewLotusClient (host : string) (token_Raw : string) : LotusClient :=
  {| host := host; jwt_Raw := token_Raw |}.

(** [http.Request], with the fields [http.NewRequest] and [Header.Set]
    write. *)
Record HttpRequest := mkHttpRequest {
  req_Method : string;
  req_URL : string;
  req_Header : gmap string (list string);
  req_Body : bytes
}.

(** [req.Header.Set(key, value)], for a key already in canonical form. *)
Definition Header_Set (req : HttpRequest) (key value : string) : HttpRequest :=
  {| req_Method := req_Method req;
     req_URL := req_URL req;
     req_Header := <[key := [value]]> (req_Header req);
     req_Body := req_Body req |}.

(** What the client imports: [json.Marshal] on a request body, whether
    [url.Parse] rejects an address, and [client.Do], which depends on the
    network. *)
Class HttpExternals := {
  HttpWorld : Type;
  HttpResponse : Type;
  json_Marshal_RequestBody : RequestBody -> Error + bytes;
  url_Parse_error : string -> option Error;
  client_Do : HttpWorld -> HttpRequest -> Error + HttpResponse
}.

Section LotusClientCode.
Context `{H : HttpExternals}.

(** [http.NewRequest("POST", url, body)]: the pair Go returns, a [nil]
    request with the error when the address does not parse. *)
Definition http_NewRequest_POST (url : string) (body : bytes)
  : option HttpRequest * option Error :=
  match url_Parse_error url with
  | Some err => (None, Some err)
  | None => (Some (mkHttpRequest "POST" url ∅ body), None)
  end.

(** [GetMessage].  The headers are set on the request before the error
    of [http.NewRequest] is looked at; setting a header on a [nil]
    request panics.  The incoming request [r] is not read. *)
Definition GetMessage (c : LotusClient) (w : HttpWorld) (r : option HttpRequest)
    (txHash : string) : Outcome (Error + HttpResponse) :=
  let requestBody := NewRequestBody "Filecoin.GetMessage" in
  let requestBody :=
    mkRequestBody (Jsonrpc requestBody) (Method requestBody)
      (Params requestBody ++ [txHash]) (ID requestBody) in
  match json_Marshal_RequestBody requestBody with
  | inl err =>
      Returned (inl (Errorf "Failed to marshal request body %v" [ArgErrorText err]))
  | inr body =>
      let '(req, err) := http_NewRequest_POST (host c) body in
      match req with
      | None => Panicked "invalid memory address or nil pointer dereference"
      | Some req =>
          let req := Header_Set req "Content-Type" "application/json" in
          let req := Header_Set req "Authentication" ("Bearer " +:+ jwt_Raw c) in
          match err with
          | Some err =>
              Returned (inl (Errorf "Failed to construct lotus node rpc request %v"
                               [ArgErrorText err]))
          | None => Returned (client_Do w req)
          end
      end
  end.

(** [HandleRequest], with the same order of steps. *)
Definition HandleRequest (c : LotusClient) (w : HttpWorld) (r : option HttpRequest)
    (data : bytes) : Outcome (Error + HttpResponse) :=
  let '(req, err) := http_NewRequest_POST (host c) data in
  match req with
  | None => Panicked "invalid memory address or nil pointer dereference"
  | Some req =>
      let req := Header_Set req "Content-Type" "application/json" in
      let req := Header_Set req "Authentication" ("Bearer " +:+ jwt_Raw c) in
      match err with
      | Some err =>
          Returned (inl (Errorf "Failed to construct lotus node rpc request %v"
                           [ArgErrorText err]))
      | None => Returned (client_Do w req)
      end
  end.

End LotusClientCode.
(** ** Reading a trace *)

Definition range_request (ev : Event) : option (Z * Z) :=
  match ev with
  | EvRPC (CallGetRangeOfBlocks from to) => Some (from, to)
  | _ => None
  end.

Definition mempool_request (ev : Event) : option (list bytes) :=
  match ev with
  | EvRPC (CallGetMempoolTxs items) => Some items
  | _ => None
  end.

Definition processed_block (ev : Event) : option Block.t :=
  match ev with EvProcessReceivedBlock b => Some b | _ => None end.

Definition stored_block (ev : Event) : option Block.t :=
  match ev with EvStoreBlock b => Some b | _ => None end.

Definition stored_tx (ev : Event) : option Transaction.t :=
  match ev with EvStoreTx tx => Some tx | _ => None end.

Definition logged (ev : Event) : option LogLine :=
  match ev with EvLog l => Some l | _ => None end.

Definition panic_of (ev : Event) : option string :=
  match ev with EvPanic msg => Some msg | _ => None end.

(** The [GetRangeOfBlocks{from, to}] requests of a trace, in order; and
    likewise the other observations. *)
Definition range_requests (evs : list Event) : list (Z * Z) := omap range_request evs.
Definition mempool_requests (evs : list Event) : list (list bytes) := omap mempool_request evs.
Definition processed_blocks (evs : list Event) : list Block.t := omap processed_block evs.
Definition stored_blocks (evs : list Event) : list Block.t := omap stored_block evs.
Definition stored_txs (evs : list Event) : list Transaction.t := omap stored_tx evs.
Definition log_lines (evs : list Event) : list LogLine := omap logged evs.
Definition panics (evs : list Event) : list string := omap panic_of evs.

(** What a run from [sm] to [sm'] added to the trace. *)
Definition new_events `{E : Externals} (sm sm' : SyncManager) : list Event :=
  drop (length (trace sm)) (trace sm').

(** ** Outcomes of [StoreBlock] *)

Section StoreBlockOutcome.
Context `{E : Externals}.

(** The four steps of the transaction body and the commit, as the
    outcome of [StoreBlock] depends on them. *)
Inductive StoreBlock_outcome (db : DB) (block : Block.t) : DB * option Error -> Prop :=
| sb_marshal_block_fails err :
    cbor_Marshal_block block = inl err ->
    StoreBlock_outcome db block (db, Some err)
| sb_marshal_header_fails data err :
    cbor_Marshal_block block = inr data ->
    cbor_Marshal_header (Block.Header block) = inl err ->
    StoreBlock_outcome db block (db, Some err)
| sb_put_block_fails data headerData err :
    cbor_Marshal_block block = inr data ->
    cbor_Marshal_header (Block.Header block) = inr headerData ->
    lmdb_put_error db
      (DefaultBlockPrefix +:+ EncodeToString (BlockHeader.Hash (Block.Header block)))
      data = Some err ->
    StoreBlock_outcome db block (db, Some err)
| sb_put_header_fails data headerData err :
    let blockHash := EncodeToString (BlockHeader.Hash (Block.Header block)) in
    cbor_Marshal_block block = inr data ->
    cbor_Marshal_header (Block.Header block) = inr headerData ->
    lmdb_put_error db (DefaultBlockPrefix +:+ blockHash) data = None ->
    lmdb_put_error (<[DefaultBlockPrefix +:+ blockHash := data]> db)
      (DefaultBlockHeaderPrefix +:+ blockHash) headerData = Some err ->
    StoreBlock_outcome db block (db, Some err)
| sb_commit_fails data headerData err :
    let blockHash := EncodeToString (BlockHeader.Hash (Block.Header block)) in
    let txn := <[DefaultBlockHeaderPrefix +:+ blockHash := headerData]>
                 (<[DefaultBlockPrefix +:+ blockHash := data]> db) in
    cbor_Marshal_block block = inr data ->
    cbor_Marshal_header (Block.Header block) = inr headerData ->
    lmdb_put_error db (DefaultBlockPrefix +:+ blockHash) data = None ->
    lmdb_put_error (<[DefaultBlockPrefix +:+ blockHash := data]> db)
      (DefaultBlockHeaderPrefix +:+ blockHash) headerData = None ->
    lmdb_commit_error db txn = Some err ->
    StoreBlock_outcome db block (db, Some err)
| sb_committed data headerData :
    let blockHash := EncodeToString (BlockHeader.Hash (Block.Header block)) in
    let txn := <[DefaultBlockHeaderPrefix +:+ blockHash := headerData]>
                 (<[DefaultBlockPrefix +:+ blockHash := data]> db) in
    cbor_Marshal_block block = inr data ->
    cbor_Marshal_header (Block.Header block) = inr headerData ->
    lmdb_put_error db (DefaultBlockPrefix +:+ blockHash) data = None ->
    lmdb_put_error (<[DefaultBlockPrefix +:+ blockHash := data]> db)
      (DefaultBlockHeaderPrefix +:+ blockHash) headerData = None ->
    lmdb_commit_error db txn = None ->
    StoreBlock_outcome db block (txn, None).

End StoreBlockOutcome.

(** ** The validation steps of [processReceivedBlock], as propositions *)

Section Validation.
Context `{E : Externals}.

(** What step 4 asks of one transaction of a block of hash [blockHash]:
    the Merkle proof is present, it verifies the transaction's hash under
    [blockHash] as root, and [ValidateHash()] holds. *)
Definition tx_validates (blockHash : bytes) (tx : Transaction.t) : Prop :=
  is_Some (Transaction.MerkleProof tx) /\
  VerifyProofUsing (Transaction.Hash tx) false (Transaction.MerkleProof tx) [blockHash]
    = Returned (inr true) /\
  ValidateHash tx = true.

(** Every validation step succeeds, the last-hash proof being read as the
    code calls the verifier: the predecessor's hash is the data, the
    block's own hash the root.  A verifier that returns has been given a
    proof that is not [nil]. *)
Definition block_validates (db : DB) (block : Block.t) : Prop :=
  let header := Block.Header block in
  exists prev,
    FetchBlockHeaderByHeight db (sub64 (BlockHeader.Height header) 1) = inr prev /\
    BlockHeader.LastHash header = BlockHeader.Hash prev /\
    VerifyProofUsing (BlockHeader.Hash prev) false
      (BlockHeader.LastHashProof header) [BlockHeader.Hash header] = Returned (inr true) /\
    Forall (tx_validates (BlockHeader.Hash header)) (Block.Data block).

(** The blocks on which [processReceivedBlock] panics: the predecessor
    is found, its hash is the block's [LastHash], and the block carries
    no last-hash proof. *)
Definition nil_proof_panics (db : DB) (block : Block.t) : Prop :=
  let header := Block.Header block in
  BlockHeader.LastHashProof header = None /\
  exists prev,
    FetchBlockHeaderByHeight db (sub64 (BlockHeader.Height header) 1) = inr prev /\
    BlockHeader.LastHash header = BlockHeader.Hash prev.

End Validation.

(** ** What a method may do to the manager *)

Section Emits.
Context `{E : Externals}.

(** [emits P m]: from every state, [m] leaves [initialSyncCompleted] and
    the wait-group counter as they were and appends to the trace only
    events that satisfy [P]. *)
Definition emits {A} (P : Event -> Prop) (m : M A) : Prop :=
  forall sm,
    (initialSyncCompleted (snd (m sm)) = initialSyncCompleted sm /\
     wg (snd (m sm)) = wg sm) /\
    exists evs, trace (snd (m sm)) = trace sm ++ evs /\ Forall P evs.

End Emits.

(** Kinds of events. *)
Definition any_event (ev : Event) : Prop := True.

Definition not_processing (ev : Event) : Prop := processed_block ev = None.

Definition not_storing_block (ev : Event) : Prop := stored_block ev = None.

(** ** States the manager can be in *)

Section Reachable.
Context `{E : Externals}.

(** A manager is built by [NewSyncManager] and then driven through its
    methods; the pool, the mempool and the peer are shared with the rest
    of the node, which may change them at any time. *)
Inductive reachable : SyncManager -> Prop :=
| reachable_new bp mp client :
    reachable (NewSyncManager bp mp client)
| reachable_Start fuel sm :
    reachable sm -> reachable (snd (Start fuel sm))
| reachable_Stop sm :
    reachable sm -> reachable (snd (Stop sm))
| reachable_onNewTransaction message sm :
    reachable sm -> reachable (snd (onNewTransaction message sm))
| reachable_shared sm bp mp w :
    reachable sm ->
    reachable (mkSyncManager bp mp (wg sm) w (initialSyncCompleted sm) (trace sm)).

End Reachable.

(** ** The loops of the initial sync, read as sequences of requests *)

Section Loops.
Context `{E : Externals}.

(** The state after the loop body for [b]: [processReceivedBlock b], and
    the warning when it returned an error. *)
Definition after_block (b : Block.t) (sm : SyncManager) : SyncManager :=
  let '(r, sm1) := processReceivedBlock b sm in
  match r with
  | Some (Some err) =>
      snd (logrus (LogWarnf "unable to process block %d: %s"
                     [ArgUint64 (BlockHeader.Height (Block.Header b)); ArgErrorText err])
             sm1)
  | _ => sm1
  end.

End Loops.

(** How a run of the block side of the sync can end, read off its result
    and its events: it returned [nil]; or a call of
    [processReceivedBlock] panicked and it has not returned; or it
    passed no block to [processReceivedBlock]. *)
Definition sync_outcome (r : option (option Error)) (evs : list Event) : Prop :=
  (r = Some None /\ panics evs = []) \/
  (r = None /\ panics evs = [nil_pointer_dereference]) \/
  (processed_blocks evs = [] /\ panics evs = []).

(** Each request starts right after the previous one ends, the first one
    right after [prev_to]. *)
Fixpoint chained (prev_to : Z) (rs : list (Z * Z)) : Prop :=
  match rs with
  | [] => True
  | (from, to) :: rest => from = prev_to + 1 /\ chained to rest
  end.

(** Where a chain of requests ends. *)
Fixpoint last_to (prev_to : Z) (rs : list (Z * Z)) : Z :=
  match rs with
  | [] => prev_to
  | (_, to) :: rest => last_to to rest
  end.

Definition in_request (h : Z) (r : Z * Z) : bool :=
  (fst r <=? h) && (h <=? snd r).

(** In how many of the requested ranges the height [h] lies. *)
Definition covered_times (h : Z) (rs : list (Z * Z)) : nat :=
  length (List.filter (in_request h) rs).

(** The union of the requested ranges is exactly [(local, peer]], every
    height in it requested once: no gap and no overlap. *)
Definition covers_exactly (local peer : Z) (rs : list (Z * Z)) : Prop :=
  forall h, covered_times h rs = if (local <? h) && (h <=? peer) then 1%nat else 0%nat.

Section LoopSteps.
Context `{E : Externals}.

(** How many heights an iteration of the range loop asks for. *)
Definition addedVal (heightCount : Z) : Z :=
  if heightCount <? MaxBlockCountForRetrieving then heightCount
  else MaxBlockCountForRetrieving.

(** A request that ends at or below [hi] and spans at most
    [MaxBlockCountForRetrieving] heights (at least one when the constant
    is positive). *)
Definition batch_ok (hi : Z) (r : Z * Z) : Prop :=
  snd r <= hi /\
  fst r - 1 <= snd r /\
  snd r - fst r + 1 <= MaxBlockCountForRetrieving /\
  (0 < MaxBlockCountForRetrieving -> fst r <= snd r).

(** The transport answers every [GetRangeOfBlocks] call. *)
Definition range_calls_succeed : Prop :=
  forall w from to, exists reply, snd (rpc_GetRangeOfBlocks w from to) = inr reply.

(** The transport answers every [GetMempoolTxs] call and the peer reports
    no error in its reply. *)
Definition mempool_calls_succeed : Prop :=
  forall w items, exists reply,
    snd (rpc_GetMempoolTxs w items) = inr reply /\ gmt_Error reply = None.

(** The batch an iteration of the mempool loop requests. *)
Definition txHashes_of (txsToRetrieve : list bytes) : list bytes :=
  if MaxTransactionCountForRetrieving <? Z.of_nat (length txsToRetrieve) then
    take (Z.to_nat MaxTransactionCountForRetrieving) txsToRetrieve
  else txsToRetrieve.

(** What the Go loop leaves in [txsToRetrieve] after an iteration. *)
Definition txsToRetrieve_after (txsToRetrieve : list bytes) : list bytes :=
  if MaxTransactionCountForRetrieving <? Z.of_nat (length txsToRetrieve) then
    drop (Z.to_nat MaxTransactionCountForRetrieving) txsToRetrieve
  else txsToRetrieve.

End LoopSteps.

(** The number of [GetMempoolTxs] calls the specification expects for [n]
    hashes and batches of at most [cap]: the ceiling of [n / cap]. *)
Definition expected_calls (n cap : Z) : Z := (n + cap - 1) / cap.

(** ** Reading hex back, and the pools [StoreBlock] builds *)

(** The value of a lowercase hex digit. *)
Definition unhex (c : ascii) : option N :=
  let n := N_of_ascii c in
  if (48 <=? n)%N && (n <=? 57)%N then Some (n - 48)%N
  else if (97 <=? n)%N && (n <=? 102)%N then Some (n - 87)%N
  else None.

Definition unhex_pair (c1 c2 : ascii) : option byte :=
  match unhex c1, unhex c2 with
  | Some h, Some l => Byte.of_N (16 * h + l)
  | _, _ => None
  end.

(** The inverse of [EncodeToString] on its image. *)
Fixpoint hex_decode (s : string) : option bytes :=
  match s with
  | EmptyString => Some []
  | String c1 (String c2 rest) =>
      match unhex_pair c1 c2, hex_decode rest with
      | Some v, Some vs => Some (v :: vs)
      | _, _ => None
      end
  | String _ EmptyString => None
  end.

Section PoolInvariant.
Context `{E : Externals}.

(** The pools that [StoreBlock] calls build from the empty database. *)
Inductive pool_built : DB -> Prop :=
| pool_built_empty : pool_built ∅
| pool_built_store db block :
    pool_built db -> pool_built (fst (StoreBlock db block)).

(** The two entries kept for the hash string [h]: none, or the encodings
    of one block whose header hash is [h] and of that block's header. *)
Definition entries_paired (db : DB) (h : string) : Prop :=
  (db !! (DefaultBlockPrefix +:+ h) = None /\
   db !! (DefaultBlockHeaderPrefix +:+ h) = None) \/
  (exists block data headerData,
     h = EncodeToString (BlockHeader.Hash (Block.Header block)) /\
     cbor_Marshal_block block = inr data /\
     cbor_Marshal_header (Block.Header block) = inr headerData /\
     db !! (DefaultBlockPrefix +:+ h) = Some data /\
     db !! (DefaultBlockHeaderPrefix +:+ h) = Some headerData).

End PoolInvariant.

(** A state of the lmdb environment in which reads do not fail. *)
Definition reads_ok `{R : PoolReads} (env : EnvState) : Prop :=
  forall db,
    lmdb_view_error env db = None /\ forall key, lmdb_get_error env db key = None.

(** ** Parts of the manager's state that a method leaves alone *)

Section Keeps.
Context `{E : Externals}.

(** [keeps f m]: from every state, [m] leaves the component [f] of the
    state as it was. *)
Definition keeps {A B} (f : SyncManager -> B) (m : M A) : Prop :=
  forall sm, f (snd (m sm)) = f sm.

(** The state after the body of the transaction loop for [v]. *)
Definition after_tx (v : Transaction.t) (sm : SyncManager) : SyncManager :=
  let '(err, sm1) := mempool_StoreTx_call v sm in
  match err with
  | Some err => snd (logrus (LogWarnfText err) sm1)
  | None => sm1
  end.

(** The state after [if err != nil { logrus.Error(err) }], and the events
    this adds. *)
Definition after_error (err : option Error) (sm : SyncManager) : SyncManager :=
  match err with
  | Some err => snd (logrus (LogError err) sm)
  | None => sm
  end.

Definition error_line (err : option Error) : list Event :=
  match err with
  | Some err => [EvLog (LogError err)]
  | None => []
  end.

End Keeps.

(** Events of the block side of the sync, and of its mempool side. *)
Definition block_side (ev : Event) : Prop :=
  match ev with
  | EvRPC CallLastBlockHeight | EvRPC (CallGetRangeOfBlocks _ _)
  | EvProcessReceivedBlock _ | EvStoreBlock _ | EvLog _ | EvPanic _ => True
  | _ => False
  end.

Definition mempool_side (ev : Event) : Prop :=
  match ev with
  | EvRPC CallMempool | EvRPC (CallGetMempoolTxs _) | EvStoreTx _ | EvLog _ => True
  | _ => False
  end.

Definition handler_side (ev : Event) : Prop :=
  match ev with
  | EvStoreTx _ | EvLog _ => True
  | _ => False
  end.

Section MempoolSpec.
Context `{E : Externals}.

(** The mempool after [StoreTx] has been called on each transaction in
    turn, and the errors these calls returned, in order. *)
Definition mempool_after (mp : MempoolT) (txs : list Transaction.t) : MempoolT :=
  foldl (fun mp tx => fst (mempool_StoreTx mp tx)) mp txs.

Fixpoint store_failures (mp : MempoolT) (txs : list Transaction.t) : list Error :=
  match txs with
  | [] => []
  | tx :: rest =>
      match snd (mempool_StoreTx mp tx) with
      | Some err => err :: store_failures (fst (mempool_StoreTx mp tx)) rest
      | None => store_failures (fst (mempool_StoreTx mp tx)) rest
      end
  end.

(** Whether the mempool's [GetTransaction] answers, for an inventory
    item, with an error that [errors.Is] takes for [ErrTxNotFound]. *)
Definition unknown_to (mp : MempoolT) (v : InvItem) : bool :=
  match mempool_GetTransaction mp (inv_Hash v) with
  | inl err => errors_Is_ErrTxNotFound (Some err)
  | inr _ => false
  end.

(** The peer answers every [Mempool] call with an inventory that holds a
    hash the mempool [mp] does not know. *)
Definition inventory_always_missing (mp : MempoolT) : Prop :=
  forall w, exists reply,
    snd (rpc_Mempool w) = inr reply /\
    List.filter (unknown_to mp) (Inventory reply) <> [].

End MempoolSpec.

(** ** A small instance of the externals

    A peer that serves a short chain, a list as mempool, and in place of
    Keccak-256 a sorted-pair combination that concatenates: enough to run
    the code on concrete inputs. *)

Module Demo.

Record Peer := mkPeer {
  peer_height : Z;
  peer_blocks : list Block.t;
  peer_txs : list Transaction.t;
  (** [false]: the transport fails on every [GetRangeOfBlocks] call *)
  range_link_up : bool
}.

Definition bytes_eqb (a b : bytes) : bool := bytes_Compare a b =? 0.

(** Sorted pairs: the smaller operand comes first. *)
Definition combine (a b : bytes) : bytes :=
  if bytes_Compare a b <=? 0 then a ++ b else b ++ a.

Definition verify (data : bytes) (salt : bool) (proof : Proof)
    (pollard : list bytes) : Error + bool :=
  inr (existsb (bytes_eqb (fold_left combine (Hashes proof) data)) pollard).

Definition validate (tx : Transaction.t) : bool :=
  bytes_eqb (Transaction.Hash tx) (Transaction.Data tx).

Definition genesis : Block.t :=
  Block.mk (BlockHeader.mk 0 [x00] [] None) [].

Definition tx1 : Transaction.t :=
  Transaction.mk [x01] (Some (mkProof [[x00]] 1)) [x01].

(** Height 1: its hash [00 01] combines the genesis hash [00] and the
    hash [01] of its one transaction. *)
Definition block1 : Block.t :=
  Block.mk (BlockHeader.mk 1 [x00; x01] [x00] (Some (mkProof [[x01]] 0))) [tx1].

(** Height 1 again, with a transaction whose hash is not that of its data. *)
Definition tx_bad : Transaction.t :=
  Transaction.mk [x01] (Some (mkProof [[x00]] 1)) [x02].

Definition block1_bad_tx : Block.t :=
  Block.mk (BlockHeader.mk 1 [x00; x01] [x00] (Some (mkProof [[x01]] 0))) [tx_bad].

(** Height 1 on top of the genesis block, without a last-hash proof. *)
Definition block1_nil_proof : Block.t :=
  Block.mk (BlockHeader.mk 1 [x00; x01] [x00] None) [tx1].

(** A header of height 0 that is not the genesis header, and one of the
    largest height. *)
Definition header_max : BlockHeader.t :=
  BlockHeader.mk MaxUint64 [xff] [] None.

Definition block_zero : Block.t :=
  Block.mk (BlockHeader.mk 0 [xfe; xff] [xff] (Some (mkProof [[xfe]] 0))) [].

Definition known_headers : list BlockHeader.t :=
  [Block.Header genesis; Block.Header block1; header_max].

Definition header_stored (db : DB) (hd : BlockHeader.t) : bool :=
  match db !! (DefaultBlockHeaderPrefix +:+ EncodeToString (BlockHeader.Hash hd)) with
  | Some _ => true
  | None => false
  end.

(** The height index: the stored header of that height. *)
Definition fetch_by_height (db : DB) (h : Z) : Error + BlockHeader.t :=
  match find (fun hd => (BlockHeader.Height hd =? h) && header_stored db hd)
          known_headers with
  | Some hd => inr hd
  | None => inl ErrBlockNotFound
  end.

Definition latest_height (db : DB) : Z * option Error :=
  match List.filter (header_stored db) known_headers with
  | [] => (0, Some ErrLatestHeightNil)
  | hs => (foldr Z.max 0 (map BlockHeader.Height hs), None)
  end.

Definition marshal_header (hd : BlockHeader.t) : Error + bytes :=
  inr (x01 :: BlockHeader.Hash hd ++ BlockHeader.LastHash hd).

Definition marshal_block (b : Block.t) : Error + bytes :=
  inr (x02 :: BlockHeader.Hash (Block.Header b)
         ++ concat (map Transaction.Hash (Block.Data b))).

Definition in_range (from to : Z) (b : Block.t) : bool :=
  (from <=? BlockHeader.Height (Block.Header b))
  && (BlockHeader.Height (Block.Header b) <=? to).

Definition get_range (w : Peer) (from to : Z) : Peer * (Error + GetRangeOfBlocksReply) :=
  if range_link_up w then
    (w, inr (mkGetRangeOfBlocksReply
               (List.filter (in_range from to) (peer_blocks w)) [] None))
  else (w, inl (ErrExternal "connection reset by peer")).

Definition wanted (items : list bytes) (tx : Transaction.t) : bool :=
  existsb (bytes_eqb (Transaction.Hash tx)) items.

Definition get_txs (w : Peer) (items : list bytes) : Peer * (Error + GetMempoolTxsReply) :=
  (w, inr (mkGetMempoolTxsReply (List.filter (wanted items) (peer_txs w)) [] None)).

Definition get_transaction (mp : list Transaction.t) (hash : bytes)
  : Error + Transaction.t :=
  match find (fun tx => bytes_eqb (Transaction.Hash tx) hash) mp with
  | Some tx => inr tx
  | None => inl ErrTxNotFound
  end.

(** The instance, for a given height index and a given lmdb put failure. *)
Definition externals
    (fetch : DB -> Z -> Error + BlockHeader.t)
    (latest : DB -> Z * option Error)
    (put_error : DB -> string -> bytes -> option Error) : Externals :=
  {| World := Peer;
     MempoolT := list Transaction.t;
     MaxBlockCountForRetrieving := 1000;
     MaxTransactionCountForRetrieving := 1000;
     GenesisBlock := genesis;
     ValidateHash := validate;
     merkletree_verify := verify;
     cbor_Marshal_block := marshal_block;
     cbor_Marshal_header := marshal_header;
     lmdb_put_error := put_error;
     lmdb_commit_error := fun _ _ => None;
     FetchBlockHeaderByHeight := fetch;
     GetLatestBlockHeight := latest;
     mempool_GetTransaction := get_transaction;
     mempool_StoreTx := fun mp tx => (mp ++ [tx], None);
     rpc_LastBlockHeight := fun w => (w, inr (mkLastBlockHeightReply (peer_height w) None));
     rpc_GetRangeOfBlocks := get_range;
     rpc_Mempool := fun w => (w, inr (mkInvMessage (map (fun tx => mkInvItem (Transaction.Hash tx)) (peer_txs w))));
     rpc_GetMempoolTxs := get_txs |}.

Definition E : Externals := externals fetch_by_height latest_height (fun _ _ _ => None).

(** The same, with a pool whose latest-height lookup fails in storage. *)
Definition E_storage_failure : Externals :=
  externals fetch_by_height
    (fun _ => (7, Some (ErrExternal "mdb_txn_begin: MDB_READERS_FULL")))
    (fun _ _ _ => None).

(** A peer at height 1500 that serves no block bodies, and the same peer
    behind a link that drops range requests. *)
Definition peer1500 : Peer := mkPeer 1500 [] [] true.
Definition peer1500_down : Peer := mkPeer 1500 [] [] false.

(** A peer at height 1 serving [block1]. *)
Definition peer1 : Peer := mkPeer 1 [block1] [tx1] true.

(** A peer at height 1 that serves, for that height, first the block
    without a last-hash proof and then [block1]. *)
Definition peer1_nil_proof : Peer := mkPeer 1 [block1_nil_proof; block1] [tx1] true.

(** The pool once the genesis block is in it. *)
Definition db_genesis : DB := fst (@StoreBlock E ∅ genesis).

(** The pool holding only the header of the largest height. *)
Definition db_max : DB :=
  <[DefaultBlockHeaderPrefix +:+ EncodeToString [xff] := [x01; xff]]> ∅.

Definition sm0 (db : DB) (w : Peer) : @SyncManager E := @NewSyncManager E db [] w.

Definition sm_storage_failure : @SyncManager E_storage_failure :=
  @NewSyncManager E_storage_failure db_genesis [] peer1500.

End Demo.

(** ** The small instance, continued: reads of the pool, the HTTP side *)

Module DemoReads.

Definition known_blocks : list Block.t := [Demo.genesis; Demo.block1; Demo.block_zero].

Definition encodes_block (data : bytes) (b : Block.t) : bool :=
  match Demo.marshal_block b with
  | inr d => Demo.bytes_eqb d data
  | inl _ => false
  end.

Definition encodes_header (data : bytes) (hd : BlockHeader.t) : bool :=
  match Demo.marshal_header hd with
  | inr d => Demo.bytes_eqb d data
  | inl _ => false
  end.

(** Decoding by table: the known block, or header, with that encoding. *)
Definition unmarshal_block (data : bytes) : Error + Block.t :=
  match find (encodes_block data) known_blocks with
  | Some b => inr b
  | None => inl (ErrExternal "cbor: unexpected EOF")
  end.

Definition unmarshal_header (data : bytes) : Error + BlockHeader.t :=
  match find (encodes_header data) (map Block.Header known_blocks) with
  | Some hd => inr hd
  | None => inl (ErrExternal "cbor: unexpected EOF")
  end.

(** The state of the environment is whether its reader table has a free
    slot: without one no read transaction begins. *)
Definition R : PoolReads :=
  {| EnvState := bool;
     lmdb_view_error := fun free_slot _ =>
       if free_slot then None else Some (ErrExternal "mdb_txn_begin: MDB_READERS_FULL");
     lmdb_get_error := fun _ _ _ => None;
     cbor_Unmarshal_block := unmarshal_block;
     cbor_Unmarshal_header := unmarshal_header |}.

(** The pool after the genesis block and [block1]. *)
Definition db_two : DB := fst (@StoreBlock Demo.E Demo.db_genesis Demo.block1).

(** An HTTP side whose JSON is a tag and the parameters, whose addresses
    parse when they do not start with a colon, and whose server echoes
    the request. *)
Definition marshal_body (b : RequestBody) : Error + bytes :=
  inr (x7b :: concat (map String.list_byte_of_string (Method b :: Params b))).

Definition parse_error (url : string) : option Error :=
  match url with
  | String ":" _ => Some (ErrExternal "parse: missing protocol scheme")
  | _ => None
  end.

Definition H : HttpExternals :=
  {| HttpWorld := unit;
     HttpResponse := HttpRequest;
     json_Marshal_RequestBody := marshal_body;
     url_Parse_error := parse_error;
     client_Do := fun _ req => inr req |}.

(** A peer whose mempool always holds [tx1] and whose chain is empty,
    and a local mempool that never has a transaction and wraps the
    sentinel it returns. *)
Definition E_busy : Externals :=
  {| World := unit;
     MempoolT := list Transaction.t;
     MaxBlockCountForRetrieving := 1000;
     MaxTransactionCountForRetrieving := 1000;
     GenesisBlock := Demo.genesis;
     ValidateHash := Demo.validate;
     merkletree_verify := Demo.verify;
     cbor_Marshal_block := Demo.marshal_block;
     cbor_Marshal_header := Demo.marshal_header;
     lmdb_put_error := fun _ _ _ => None;
     lmdb_commit_error := fun _ _ => None;
     FetchBlockHeaderByHeight := Demo.fetch_by_height;
     GetLatestBlockHeight := Demo.latest_height;
     mempool_GetTransaction := fun _ _ =>
       inl (ErrWrapped "mempool: failed to get transaction" ErrTxNotFound);
     mempool_StoreTx := fun mp tx => (mp ++ [tx], None);
     rpc_LastBlockHeight := fun w => (w, inr (mkLastBlockHeightReply 0 None));
     rpc_GetRangeOfBlocks := fun w _ _ => (w, inl (ErrExternal "connection reset by peer"));
     rpc_Mempool := fun w => (w, inr (mkInvMessage [mkInvItem [x01]]));
     rpc_GetMempoolTxs := fun w _ => (w, inr (mkGetMempoolTxsReply [Demo.tx1] [] None)) |}.

End DemoReads.

(** ** Properties of [hex.EncodeToString] and of the keys *)

Lemma hexchar_high_lowercase (v : byte) :
  hexchar (N.shiftr (Byte.to_N v) 4) = lowercase_digit (Byte.to_N v / 16).
Proof. destruct v; reflexivity. Qed.

Lemma hexchar_low_lowercase (v : byte) :
  hexchar (N.land (Byte.to_N v) 15) = lowercase_digit (Byte.to_N v mod 16).
Proof. destruct v; reflexivity. Qed.

Lemma EncodeToString_lowercase_hex (src : bytes) :
  EncodeToString src = lowercase_hex src.
Proof.
  induction src as [|v rest IH]; [reflexivity|].
  cbn [EncodeToString lowercase_hex fold_right].
  rewrite hexchar_high_lowercase, hexchar_low_lowercase.
  f_equal. f_equal. exact IH.
Qed.

Lemma EncodeToString_length (src : bytes) :
  String.length (EncodeToString src) = (2 * length src)%nat.
Proof. induction src as [|v rest IH]; cbn; [reflexivity | rewrite IH; lia]. Qed.

Lemma block_key_ne_header_key (h h' : string) :
  DefaultBlockPrefix +:+ h <> DefaultBlockHeaderPrefix +:+ h'.
Proof. unfold DefaultBlockPrefix, DefaultBlockHeaderPrefix. cbn. discriminate. Qed.

(** ** [StoreBlock] *)

Section StoreBlockFacts.
Context `{E : Externals}.

Lemma StoreBlock_cases (db : DB) (block : Block.t) :
  StoreBlock_outcome db block (StoreBlock db block).
Proof.
  unfold StoreBlock, env_Update, txn_Put.
  destruct (cbor_Marshal_block block) as [e1|data] eqn:Hb;
    [by apply sb_marshal_block_fails|].
  destruct (cbor_Marshal_header (Block.Header block)) as [e2|hd] eqn:Hh;
    [by eapply sb_marshal_header_fails|].
  cbv zeta.
  destruct (lmdb_put_error db _ data) as [e3|] eqn:Hp1;
    [by eapply sb_put_block_fails|].
  destruct (lmdb_put_error (<[_ := data]> db) _ hd) as [e4|] eqn:Hp2;
    [by eapply sb_put_header_fails|].
  destruct (lmdb_commit_error db _) as [e5|] eqn:Hc.
  - by eapply sb_commit_fails.
  - by eapply sb_committed.
Qed.

Lemma StoreBlock_error_unchanged (db : DB) (block : Block.t) db' err :
  StoreBlock db block = (db', Some err) -> db' = db.
Proof.
  intros Hs. pose proof (StoreBlock_cases db block) as Hc.
  rewrite Hs in Hc. by inversion Hc.
Qed.

(** A committed [StoreBlock] is two inserts. *)
Lemma StoreBlock_committed (db db' : DB) (block : Block.t) :
  StoreBlock db block = (db', None) ->
  exists data headerData,
    cbor_Marshal_block block = inr data /\
    cbor_Marshal_header (Block.Header block) = inr headerData /\
    db' = <[DefaultBlockHeaderPrefix +:+
              EncodeToString (BlockHeader.Hash (Block.Header block)) := headerData]>
            (<[DefaultBlockPrefix +:+
                 EncodeToString (BlockHeader.Hash (Block.Header block)) := data]> db).
Proof.
  intros Hs. pose proof (StoreBlock_cases db block) as Hc. rewrite Hs in Hc.
  inversion Hc as [| | | | |data hd bh txn Hb Hh _ _ _ Htxn]. subst txn bh. eauto.
Qed.

(** When nothing fails, [StoreBlock] commits the two inserts. *)
Lemma StoreBlock_succeeds (db : DB) (block : Block.t) (data headerData : bytes) :
  let blockHash := EncodeToString (BlockHeader.Hash (Block.Header block)) in
  let txn := <[DefaultBlockHeaderPrefix +:+ blockHash := headerData]>
               (<[DefaultBlockPrefix +:+ blockHash := data]> db) in
  cbor_Marshal_block block = inr data ->
  cbor_Marshal_header (Block.Header block) = inr headerData ->
  lmdb_put_error db (DefaultBlockPrefix +:+ blockHash) data = None ->
  lmdb_put_error (<[DefaultBlockPrefix +:+ blockHash := data]> db)
    (DefaultBlockHeaderPrefix +:+ blockHash) headerData = None ->
  lmdb_commit_error db txn = None ->
  StoreBlock db block = (txn, None).
Proof.
  intros blockHash txn Hb Hh Hp1 Hp2 Hc. subst txn blockHash.
  unfold StoreBlock, env_Update, txn_Put. rewrite Hb, Hh. cbv zeta.
  by rewrite Hp1, Hp2, Hc.
Qed.

(** C5.  For every block, [StoreBlock] runs one transaction.  When it
    returns no error it has written exactly two keys: ["block_"] followed
    by the lowercase hex of the header's hash, holding the CBOR of the
    block, and ["header_"] followed by the same hex, holding the CBOR of
    the header; the two keys differ and every other key is as before.
    When it returns an error the database is unchanged, and it does
    return an error whenever serialising the block or the header fails or
    either put fails.  When the two serialisations, the two puts and the
    commit all succeed, it returns no error and the database is the old
    one with the two keys written. *)
Theorem C5_StoreBlock_two_keys_atomic (db : DB) (block : Block.t) :
  let hash := BlockHeader.Hash (Block.Header block) in
  let blockKey := "block_" +:+ lowercase_hex hash in
  let headerKey := "header_" +:+ lowercase_hex hash in
  blockKey <> headerKey /\
  (forall db', StoreBlock db block = (db', None) ->
     exists data headerData,
       cbor_Marshal_block block = inr data /\
       cbor_Marshal_header (Block.Header block) = inr headerData /\
       db' = <[headerKey := headerData]> (<[blockKey := data]> db) /\
       db' !! blockKey = Some data /\
       db' !! headerKey = Some headerData /\
       (forall k, k <> blockKey -> k <> headerKey -> db' !! k = db !! k)) /\
  (forall db' err, StoreBlock db block = (db', Some err) -> db' = db) /\
  ((exists err, cbor_Marshal_block block = inl err) \/
   (exists err, cbor_Marshal_header (Block.Header block) = inl err) \/
   (exists data err,
      cbor_Marshal_block block = inr data /\
      lmdb_put_error db blockKey data = Some err) \/
   (exists data headerData err,
      cbor_Marshal_block block = inr data /\
      cbor_Marshal_header (Block.Header block) = inr headerData /\
      lmdb_put_error (<[blockKey := data]> db) headerKey headerData = Some err) ->
   exists err, StoreBlock db block = (db, Some err)) /\
  (forall data headerData,
     cbor_Marshal_block block = inr data ->
     cbor_Marshal_header (Block.Header block) = inr headerData ->
     lmdb_put_error db blockKey data = None ->
     lmdb_put_error (<[blockKey := data]> db) headerKey headerData = None ->
     lmdb_commit_error db (<[headerKey := headerData]> (<[blockKey := data]> db)) = None ->
     StoreBlock db block = (<[headerKey := headerData]> (<[blockKey := data]> db), None)).
Proof.
  intros hash blockKey headerKey.
  assert (Hbk : blockKey = DefaultBlockPrefix +:+ EncodeToString hash)
    by (unfold blockKey; by rewrite EncodeToString_lowercase_hex).
  assert (Hhk : headerKey = DefaultBlockHeaderPrefix +:+ EncodeToString hash)
    by (unfold headerKey; by rewrite EncodeToString_lowercase_hex).
  assert (Hne : blockKey <> headerKey)
    by (rewrite Hbk, Hhk; apply block_key_ne_header_key).
  clearbody blockKey headerKey. subst blockKey headerKey. subst hash.
  pose proof (StoreBlock_cases db block) as Hc.
  split; [exact Hne|]. split; [|split; [|split]].
  - intros db' Hs. rewrite Hs in Hc.
    inversion Hc as [| | | | |data hd bh txn Hb Hh _ _ _ Htxn].
    subst txn bh. exists data, hd.
    split; [done|]. split; [done|]. split; [done|]. split; [|split].
    + rewrite lookup_insert_ne, lookup_insert_eq; done.
    + by rewrite lookup_insert_eq.
    + intros k Hk1 Hk2. rewrite !lookup_insert_ne; done.
  - intros db' err. apply StoreBlock_error_unchanged.
  - intros Hfail.
    destruct (StoreBlock db block) as [db' [err|]] eqn:Hs.
    + exists err. by rewrite (StoreBlock_error_unchanged _ _ _ _ Hs).
    + exfalso. inversion Hc as [| | | | |data hd bh txn Hb Hh Hp1 Hp2 _ Htxn].
      subst txn bh.
      destruct Hfail as [[e He]|[[e He]|[(d & e & Hd & He)|(d & h & e & Hd & Hh' & He)]]];
        congruence.
  - intros data hd Hb Hh Hp1 Hp2 Hcommit. by apply StoreBlock_succeeds.
Qed.

End StoreBlockFacts.
(** ** The monad: how the primitive steps act on the state *)

Ltac unfold_M :=
  unfold bind, ret, logrus, emit, gets, set_blockpool, set_mempool, set_net in *.

Section Steps.
Context `{E : Externals}.

Lemma new_events_app (sm sm' : SyncManager) (evs : list Event) :
  trace sm' = trace sm ++ evs -> new_events sm sm' = evs.
Proof. unfold new_events. intros ->. by rewrite drop_app_length. Qed.

Lemma new_events_refl (sm : SyncManager) : new_events sm sm = [].
Proof. apply new_events_app. by rewrite app_nil_r. Qed.

Lemma emit_run (ev : Event) (sm : SyncManager) :
  emit ev sm =
  (tt, mkSyncManager (blockpool sm) (mempool sm) (wg sm) (net sm)
         (initialSyncCompleted sm) (trace sm ++ [ev])).
Proof. reflexivity. Qed.

Lemma blockpool_StoreBlock_run (block : Block.t) (sm : SyncManager) :
  blockpool_StoreBlock block sm =
  (snd (StoreBlock (blockpool sm) block),
   mkSyncManager (fst (StoreBlock (blockpool sm) block)) (mempool sm) (wg sm)
     (net sm)
     (initialSyncCompleted sm) (trace sm ++ [EvStoreBlock block])).
Proof.
  unfold blockpool_StoreBlock. unfold_M. cbn.
  by destruct (StoreBlock (blockpool sm) block).
Qed.

Lemma mempool_StoreTx_call_run (tx : Transaction.t) (sm : SyncManager) :
  mempool_StoreTx_call tx sm =
  (snd (mempool_StoreTx (mempool sm) tx),
   mkSyncManager (blockpool sm) (fst (mempool_StoreTx (mempool sm) tx)) (wg sm)
     (net sm)
     (initialSyncCompleted sm) (trace sm ++ [EvStoreTx tx])).
Proof.
  unfold mempool_StoreTx_call. unfold_M. cbn.
  by destruct (mempool_StoreTx (mempool sm) tx).
Qed.

Lemma Call_LastBlockHeight_run (sm : SyncManager) :
  Call_LastBlockHeight sm =
  (snd (rpc_LastBlockHeight (net sm)),
   mkSyncManager (blockpool sm) (mempool sm) (wg sm)
     (fst (rpc_LastBlockHeight (net sm)))
     (initialSyncCompleted sm) (trace sm ++ [EvRPC CallLastBlockHeight])).
Proof.
  unfold Call_LastBlockHeight. unfold_M. cbn.
  by destruct (rpc_LastBlockHeight (net sm)).
Qed.

Lemma Call_GetRangeOfBlocks_run (from to : Z) (sm : SyncManager) :
  Call_GetRangeOfBlocks from to sm =
  (snd (rpc_GetRangeOfBlocks (net sm) from to),
   mkSyncManager (blockpool sm) (mempool sm) (wg sm)
     (fst (rpc_GetRangeOfBlocks (net sm) from to))
     (initialSyncCompleted sm) (trace sm ++ [EvRPC (CallGetRangeOfBlocks from to)])).
Proof.
  unfold Call_GetRangeOfBlocks. unfold_M. cbn.
  by destruct (rpc_GetRangeOfBlocks (net sm) from to).
Qed.

Lemma Call_Mempool_run (sm : SyncManager) :
  Call_Mempool sm =
  (snd (rpc_Mempool (net sm)),
   mkSyncManager (blockpool sm) (mempool sm) (wg sm)
     (fst (rpc_Mempool (net sm)))
     (initialSyncCompleted sm) (trace sm ++ [EvRPC CallMempool])).
Proof.
  unfold Call_Mempool. unfold_M. cbn.
  by destruct (rpc_Mempool (net sm)).
Qed.

Lemma Call_GetMempoolTxs_run (items : list bytes) (sm : SyncManager) :
  Call_GetMempoolTxs items sm =
  (snd (rpc_GetMempoolTxs (net sm) items),
   mkSyncManager (blockpool sm) (mempool sm) (wg sm)
     (fst (rpc_GetMempoolTxs (net sm) items))
     (initialSyncCompleted sm) (trace sm ++ [EvRPC (CallGetMempoolTxs items)])).
Proof.
  unfold Call_GetMempoolTxs. unfold_M. cbn.
  by destruct (rpc_GetMempoolTxs (net sm) items).
Qed.

End Steps.

(** ** [onNewTransaction] *)

Section OnNewTransaction.
Context `{E : Externals}.

Lemma onNewTransaction_run (message : GenericMessage) (sm : SyncManager) :
  let sm' := snd (onNewTransaction message sm) in
  trace sm' = trace sm ++
    match Payload_of message with
    | PayloadOther _ => [EvLog (LogWarn "failed to convert payload to Transaction")]
    | PayloadTransaction tx =>
        if ValidateHash tx then
          EvStoreTx tx ::
            match snd (mempool_StoreTx (mempool sm) tx) with
            | Some err =>
                [EvLog (LogWarnf "failed to store incoming transaction in mempool: %s"
                          [ArgErrorText err])]
            | None => []
            end
        else [EvLog (LogWarn "failed to validate tx hash, rejecting it")]
    end /\
  mempool sm' =
    match Payload_of message with
    | PayloadOther _ => mempool sm
    | PayloadTransaction tx =>
        if ValidateHash tx then fst (mempool_StoreTx (mempool sm) tx) else mempool sm
    end.
Proof.
  cbv zeta. unfold onNewTransaction.
  destruct (Payload_of message) as [tx|raw]; [|by cbn].
  destruct (ValidateHash tx); cbn [negb]; [|by cbn].
  unfold bind. rewrite mempool_StoreTx_call_run.
  destruct (mempool_StoreTx (mempool sm) tx) as [mp' [err|]]; cbn; [|done].
  by rewrite <- app_assoc.
Qed.

(** C6.  For every message, the handler calls the mempool's [StoreTx]
    exactly when the payload is a [Transaction] whose [ValidateHash()] is
    true, and then once, on that transaction.  When the payload is not a
    transaction or the hash is invalid, nothing is stored, the mempool is
    as before and one warning is logged.  When [StoreTx] fails, the
    failure is logged as a warning; the handler returns nothing in every
    case. *)
Theorem C6_onNewTransaction_stores_iff_valid (message : GenericMessage) (sm : SyncManager) :
  let sm' := snd (onNewTransaction message sm) in
  let evs := new_events sm sm' in
  (forall tx, tx ∈ stored_txs evs <->
     Payload_of message = PayloadTransaction tx /\ ValidateHash tx = true) /\
  (length (stored_txs evs) <= 1)%nat /\
  (stored_txs evs = [] ->
     mempool sm' = mempool sm /\
     exists msg, evs = [EvLog (LogWarn msg)]) /\
  (forall tx err,
     Payload_of message = PayloadTransaction tx -> ValidateHash tx = true ->
     snd (mempool_StoreTx (mempool sm) tx) = Some err ->
     mempool sm' = fst (mempool_StoreTx (mempool sm) tx) /\
     evs = [EvStoreTx tx;
            EvLog (LogWarnf "failed to store incoming transaction in mempool: %s"
                     [ArgErrorText err])]) /\
  (forall tx,
     Payload_of message = PayloadTransaction tx -> ValidateHash tx = true ->
     snd (mempool_StoreTx (mempool sm) tx) = None ->
     mempool sm' = fst (mempool_StoreTx (mempool sm) tx) /\
     evs = [EvStoreTx tx]).
Proof.
  intros sm' evs.
  pose proof (onNewTransaction_run message sm) as [Htr Hmp].
  fold sm' in Htr, Hmp. apply new_events_app in Htr. fold evs in Htr.
  clearbody evs sm'. subst evs.
  destruct (Payload_of message) as [tx0|raw].
  - destruct (ValidateHash tx0) eqn:Hv.
    + destruct (mempool_StoreTx (mempool sm) tx0) as [mp' oerr] eqn:Hst.
      cbn [fst snd] in *. split_and!.
      * intros tx. destruct oerr; cbn; rewrite list_elem_of_singleton;
          (split; [by intros -> | intros [? ?]; by simplify_eq]).
      * destruct oerr; cbn; lia.
      * destruct oerr; cbn; discriminate.
      * intros tx err Hp Hv' He. simplify_eq.
        rewrite Hst in He |- *. cbn in He |- *. by subst oerr.
      * intros tx Hp Hv' He. simplify_eq.
        rewrite Hst in He |- *. cbn in He |- *. by subst oerr.
    + cbn. split_and!.
      * intros tx. rewrite elem_of_nil.
        split; [done | intros [? ?]; simplify_eq; congruence].
      * lia.
      * eauto.
      * intros; simplify_eq; congruence.
      * intros; simplify_eq; congruence.
  - cbn. split_and!.
    + intros tx. rewrite elem_of_nil.
      split; [done | intros [? ?]; simplify_eq].
    + lia.
    + eauto.
    + intros; simplify_eq.
    + intros; simplify_eq.
Qed.

End OnNewTransaction.
(** ** [bytes.Compare] *)

Lemma to_N_inj (x y : byte) : Byte.to_N x = Byte.to_N y -> x = y.
Proof.
  intros H. pose proof (Byte.of_to_N x) as Hx. pose proof (Byte.of_to_N y) as Hy.
  rewrite H in Hx. congruence.
Qed.

Lemma bytes_Compare_eq (a b : bytes) : bytes_Compare a b = 0 <-> a = b.
Proof.
  revert b. induction a as [|x a IH]; intros [|y b]; cbn; try done.
  destruct (Byte.to_N x ?= Byte.to_N y)%N eqn:Hc.
  - apply N.compare_eq_iff, to_N_inj in Hc. subst y. rewrite IH.
    split; [by intros -> | by intros [= ->]].
  - split; [lia | intros [= -> ->]]. by rewrite N.compare_refl in Hc.
  - split; [lia | intros [= -> ->]]. by rewrite N.compare_refl in Hc.
Qed.

(** ** [processReceivedBlock] *)

Section ProcessReceivedBlock.
Context `{E : Externals}.

Lemma checkTransactions_None (blockHash : bytes) (data : list Transaction.t) :
  checkTransactions blockHash data = None <-> Forall (tx_validates blockHash) data.
Proof.
  induction data as [|tx rest IH]; cbn [checkTransactions].
  - split; [constructor | done].
  - rewrite Forall_cons, <- IH. unfold tx_validates, VerifyProofUsing.
    destruct (Transaction.MerkleProof tx) as [p|] eqn:Hp.
    + destruct (merkletree_verify _ _ _ _) as [err|[|]] eqn:Hv; cbn.
      * split; [done | by intros [(_ & ? & _) _]].
      * destruct (ValidateHash tx) eqn:Hh; cbn.
        -- split; [by intros ?; split_and! | by intros [_ ?]].
        -- split; [done | by intros [(_ & _ & ?) _]].
      * split; [done | by intros [(_ & ? & _) _]].
    + split; [done | intros [([? ?] & _) _]; done].
Qed.

(** A block cannot both pass the last-hash check and lack its proof. *)
Lemma validates_not_panics (db : DB) (block : Block.t) :
  block_validates db block -> ~ nil_proof_panics db block.
Proof. intros (prev & _ & _ & Hv & _) (Hnil & _). by rewrite Hnil in Hv. Qed.

(** The three ways a call of [processReceivedBlock] goes: every check
    passes and [StoreBlock] is called; the block has no last-hash proof
    and the verifier is reached, and the call panics; or a check fails
    and the call returns an error.  In the last two the call has touched
    nothing but the trace. *)
Lemma processReceivedBlock_run (block : Block.t) (sm : SyncManager) :
  let r := processReceivedBlock block sm in
  let sm' := snd r in
  mempool sm' = mempool sm /\ net sm' = net sm /\
  initialSyncCompleted sm' = initialSyncCompleted sm /\
  ((block_validates (blockpool sm) block /\
    trace sm' = trace sm ++ [EvProcessReceivedBlock block; EvStoreBlock block] /\
    blockpool sm' = fst (StoreBlock (blockpool sm) block) /\
    fst r = Some
              match snd (StoreBlock (blockpool sm) block) with
              | Some err =>
                  Some (Errorf "failed to store block in blockpool: %s" [ArgErrorText err])
              | None => None
              end) \/
   (nil_proof_panics (blockpool sm) block /\
    trace sm' = trace sm ++
                  [EvProcessReceivedBlock block; EvPanic nil_pointer_dereference] /\
    blockpool sm' = blockpool sm /\
    fst r = None) \/
   (~ block_validates (blockpool sm) block /\
    ~ nil_proof_panics (blockpool sm) block /\
    trace sm' = trace sm ++ [EvProcessReceivedBlock block] /\
    blockpool sm' = blockpool sm /\
    exists err, fst r = Some (Some err))).
Proof.
  cbv zeta. destruct (processReceivedBlock block sm) as [res sm'] eqn:Hrun.
  cbn [fst snd]. unfold processReceivedBlock in Hrun.
  unfold bind, gets in Hrun. rewrite emit_run in Hrun. cbn [blockpool] in Hrun.
  unfold block_validates, nil_proof_panics.
  destruct (FetchBlockHeaderByHeight _ _) as [e|prev] eqn:Hf.
  { unfold ret in Hrun. simplify_eq. cbn. split_and!; try done.
    right. right. split_and!; eauto.
    - by intros (p & ? & _).
    - by intros (_ & p & ? & _). }
  destruct (bytes_Compare _ _ =? 0) eqn:Hcmp; cbn [negb] in Hrun; cycle 1.
  { unfold ret in Hrun. simplify_eq. cbn. split_and!; try done.
    right. right. split_and!; eauto.
    - intros (p & ? & Hl & _). simplify_eq. apply bytes_Compare_eq in Hl. lia.
    - intros (_ & p & ? & Hl). simplify_eq. apply bytes_Compare_eq in Hl. lia. }
  apply Z.eqb_eq, bytes_Compare_eq in Hcmp.
  unfold VerifyProofUsing in *.
  destruct (BlockHeader.LastHashProof (Block.Header block)) as [proof|] eqn:Hproof.
  - destruct (merkletree_verify _ _ _ _) as [e|[|]] eqn:Hv; cbn [negb] in Hrun; cycle 1.
    + destruct (checkTransactions _ _) as [e|] eqn:Hc.
      * unfold ret in Hrun. simplify_eq. cbn. split_and!; try done.
        right. right. split_and!; eauto.
        -- intros (p & ? & _ & _ & Hall). apply checkTransactions_None in Hall.
           congruence.
        -- by intros (? & _).
      * apply checkTransactions_None in Hc.
        rewrite blockpool_StoreBlock_run in Hrun.
        cbn [blockpool mempool net initialSyncCompleted trace] in Hrun.
        destruct (StoreBlock (blockpool sm) block) as [db' [e|]];
          cbn in Hrun; unfold ret in Hrun; simplify_eq; cbn.
        -- split_and!; try done. left.
           split_and!; [|by rewrite <- app_assoc|done|done].
           exists prev. split_and!; [done|done|by rewrite Hv|done].
        -- split_and!; try done. left.
           split_and!; [|by rewrite <- app_assoc|done|done].
           exists prev. split_and!; [done|done|by rewrite Hv|done].
    + unfold ret in Hrun. simplify_eq. cbn. split_and!; try done.
      right. right. split_and!; eauto.
      * intros (p & ? & _ & ? & _). simplify_eq. congruence.
      * by intros (? & _).
    + unfold ret in Hrun. simplify_eq. cbn. split_and!; try done.
      right. right. split_and!; eauto.
      * intros (p & ? & _ & ? & _). simplify_eq. congruence.
      * by intros (? & _).
  - unfold panic in Hrun. rewrite emit_run in Hrun. simplify_eq. cbn.
    split_and!; try done. right. left. split_and!; eauto.
    by rewrite <- app_assoc.
Qed.



End ProcessReceivedBlock.



(** ** Frame and trace facts, by composition *)

Section EmitsFacts.
Context `{E : Externals}.

Lemma emits_mono {A} (P Q : Event -> Prop) (m : M A) :
  (forall ev, P ev -> Q ev) -> emits P m -> emits Q m.
Proof.
  intros HPQ Hm sm. destruct (Hm sm) as (Hf & evs & Htr & HP).
  split; [done|]. exists evs. split; [done|]. by eapply Forall_impl.
Qed.

Lemma emits_ret {A} (P : Event -> Prop) (a : A) : emits P (ret a).
Proof. intros sm. cbn. split; [done|]. exists []. by rewrite app_nil_r. Qed.

Lemma emits_gets {A} (P : Event -> Prop) (f : SyncManager -> A) : emits P (gets f).
Proof. intros sm. cbn. split; [done|]. exists []. by rewrite app_nil_r. Qed.

Lemma emits_emit (P : Event -> Prop) (ev : Event) : P ev -> emits P (emit ev).
Proof. intros HP sm. cbn. split; [done|]. exists [ev]. split; [done|]. by constructor. Qed.

Lemma emits_panic {A} (P : Event -> Prop) (msg : string) :
  P (EvPanic msg) -> emits P (panic (A := A) msg).
Proof. intros HP sm. cbn. split; [done|]. exists [EvPanic msg]. split; [done|]. by constructor. Qed.

Lemma emits_set_blockpool (P : Event -> Prop) (db : DB) : emits P (set_blockpool db).
Proof. intros sm. cbn. split; [done|]. exists []. by rewrite app_nil_r. Qed.

Lemma emits_set_mempool (P : Event -> Prop) (mp : MempoolT) : emits P (set_mempool mp).
Proof. intros sm. cbn. split; [done|]. exists []. by rewrite app_nil_r. Qed.

Lemma emits_set_net (P : Event -> Prop) (w : World) : emits P (set_net w).
Proof. intros sm. cbn. split; [done|]. exists []. by rewrite app_nil_r. Qed.

Lemma emits_bind {A B} (P : Event -> Prop) (m : M A) (k : A -> M B) :
  emits P m -> (forall a, emits P (k a)) -> emits P (bind m k).
Proof.
  intros Hm Hk sm. unfold bind.
  destruct (Hm sm) as (Hf1 & evs1 & Htr1 & HP1).
  destruct (m sm) as [a sm1]. cbn [snd] in *.
  destruct (Hk a sm1) as (Hf2 & evs2 & Htr2 & HP2).
  split; [split; destruct Hf1, Hf2; congruence|]. exists (evs1 ++ evs2).
  split; [by rewrite Htr2, Htr1, app_assoc | by apply Forall_app].
Qed.

End EmitsFacts.

Ltac emits_step :=
  lazymatch goal with
  | |- emits _ (bind _ _) => apply emits_bind; [|intros ?]
  | |- emits _ (ret _) => apply emits_ret
  | |- emits _ (gets _) => apply emits_gets
  | |- emits _ (logrus _) => apply emits_emit
  | |- emits _ (emit _) => apply emits_emit
  | |- emits _ (panic _) => apply emits_panic
  | |- emits _ (set_blockpool _) => apply emits_set_blockpool
  | |- emits _ (set_mempool _) => apply emits_set_mempool
  | |- emits _ (set_net _) => apply emits_set_net
  | |- emits _ (match ?x with _ => _ end) => destruct x
  end.

Ltac solve_emits := repeat emits_step; try done.

Section EmitsCode.
Context `{E : Externals}.

Lemma emits_blockpool_StoreBlock (P : Event -> Prop) (block : Block.t) :
  P (EvStoreBlock block) -> emits P (blockpool_StoreBlock block).
Proof. intros HP. unfold blockpool_StoreBlock. solve_emits. Qed.

Lemma emits_mempool_StoreTx_call (P : Event -> Prop) (tx : Transaction.t) :
  P (EvStoreTx tx) -> emits P (mempool_StoreTx_call tx).
Proof. intros HP. unfold mempool_StoreTx_call. solve_emits. Qed.

Lemma emits_Call_LastBlockHeight (P : Event -> Prop) :
  P (EvRPC CallLastBlockHeight) -> emits P Call_LastBlockHeight.
Proof. intros HP. unfold Call_LastBlockHeight. solve_emits. Qed.

Lemma emits_Call_GetRangeOfBlocks (P : Event -> Prop) (from to : Z) :
  P (EvRPC (CallGetRangeOfBlocks from to)) -> emits P (Call_GetRangeOfBlocks from to).
Proof. intros HP. unfold Call_GetRangeOfBlocks. solve_emits. Qed.

Lemma emits_Call_Mempool (P : Event -> Prop) :
  P (EvRPC CallMempool) -> emits P Call_Mempool.
Proof. intros HP. unfold Call_Mempool. solve_emits. Qed.

Lemma emits_Call_GetMempoolTxs (P : Event -> Prop) (items : list bytes) :
  P (EvRPC (CallGetMempoolTxs items)) -> emits P (Call_GetMempoolTxs items).
Proof. intros HP. unfold Call_GetMempoolTxs. solve_emits. Qed.

Lemma emits_processReceivedBlock (P : Event -> Prop) (block : Block.t) :
  P (EvProcessReceivedBlock block) -> P (EvStoreBlock block) ->
  (forall msg, P (EvPanic msg)) ->
  emits P (processReceivedBlock block).
Proof.
  intros HP1 HP2 HP3. unfold processReceivedBlock. solve_emits.
  by apply emits_blockpool_StoreBlock.
Qed.

Lemma emits_processBlocks (P : Event -> Prop) (receivedBlocks : list Block.t) :
  (forall b, P (EvProcessReceivedBlock b)) -> (forall b, P (EvStoreBlock b)) ->
  (forall l, P (EvLog l)) -> (forall msg, P (EvPanic msg)) ->
  emits P (processBlocks receivedBlocks).
Proof.
  intros HP1 HP2 HP3 HP4. induction receivedBlocks as [|b rest IH]; cbn [processBlocks].
  - solve_emits.
  - apply emits_bind; [by apply emits_processReceivedBlock|].
    intros [[err|]|]; solve_emits.
Qed.

Lemma emits_fetchBlocks (P : Event -> Prop) (fuel : nat) (heightCount to : Z)
    (receivedBlocks : list Block.t) :
  (forall from to, P (EvRPC (CallGetRangeOfBlocks from to))) ->
  (forall l, P (EvLog l)) ->
  emits P (fetchBlocks fuel heightCount to receivedBlocks).
Proof.
  intros HP1 HP2. revert heightCount to receivedBlocks.
  induction fuel as [|fuel IH]; intros heightCount to receivedBlocks; cbn [fetchBlocks].
  - destruct (negb _); solve_emits.
  - destruct (negb _); [solve_emits|].
    apply emits_bind; [by apply emits_Call_GetRangeOfBlocks|].
    intros [err|reply]; [solve_emits|].
    apply emits_bind; [|intros _; apply IH].
    destruct (negb _); solve_emits.
Qed.

Lemma emits_catchUp (P : Event -> Prop) (fuel : nat) (ourLastHeight replyHeight : Z) :
  (forall from to, P (EvRPC (CallGetRangeOfBlocks from to))) ->
  (forall b, P (EvProcessReceivedBlock b)) ->
  (forall b, P (EvStoreBlock b)) -> (forall l, P (EvLog l)) ->
  (forall msg, P (EvPanic msg)) ->
  emits P (catchUp fuel ourLastHeight replyHeight).
Proof.
  intros HP1 HP2 HP3 HP4 HP5. unfold catchUp.
  destruct (_ <? _); [|solve_emits].
  apply emits_bind; [by apply emits_fetchBlocks|].
  intros [[err|blocks]|]; solve_emits.
  by apply emits_processBlocks.
Qed.

Lemma emits_syncWithPeer (P : Event -> Prop) (fuel : nat) (ourLastHeight : Z) :
  (forall c, P (EvRPC c)) -> (forall b, P (EvProcessReceivedBlock b)) ->
  (forall b, P (EvStoreBlock b)) -> (forall l, P (EvLog l)) ->
  (forall msg, P (EvPanic msg)) ->
  emits P (syncWithPeer fuel ourLastHeight).
Proof.
  intros HP1 HP2 HP3 HP4 HP5. unfold syncWithPeer.
  apply emits_bind; [by apply emits_Call_LastBlockHeight|].
  intros [err|reply]; [solve_emits|].
  destruct (lbh_Error reply); [solve_emits|].
  by apply emits_catchUp.
Qed.

Lemma emits_doInitialBlockPoolSync (P : Event -> Prop) (fuel : nat) :
  (forall c, P (EvRPC c)) -> (forall b, P (EvProcessReceivedBlock b)) ->
  (forall b, P (EvStoreBlock b)) -> (forall l, P (EvLog l)) ->
  (forall msg, P (EvPanic msg)) ->
  emits P (doInitialBlockPoolSync fuel).
Proof.
  intros HP1 HP2 HP3 HP4 HP5. unfold doInitialBlockPoolSync.
  apply emits_bind; [solve_emits|]. intros [|]; [solve_emits|].
  apply emits_bind; [solve_emits|]. intros db.
  destruct (GetLatestBlockHeight db) as [h err].
  apply emits_bind.
  - destruct (is_ErrLatestHeightNil err); [by apply emits_blockpool_StoreBlock|solve_emits].
  - intros [e|]; [solve_emits|]. by apply emits_syncWithPeer.
Qed.

Lemma emits_storeTransactions (P : Event -> Prop) (txs : list Transaction.t) :
  (forall tx, P (EvStoreTx tx)) -> (forall l, P (EvLog l)) ->
  emits P (storeTransactions txs).
Proof.
  intros HP1 HP2. induction txs as [|tx rest IH]; cbn [storeTransactions].
  - solve_emits.
  - apply emits_bind; [by apply emits_mempool_StoreTx_call|].
    intros [err|]; solve_emits.
Qed.

Lemma emits_retrieveTransactions (P : Event -> Prop) (fuel : nat)
    (txsToRetrieve : list bytes) :
  (forall items, P (EvRPC (CallGetMempoolTxs items))) ->
  (forall tx, P (EvStoreTx tx)) -> (forall l, P (EvLog l)) ->
  emits P (retrieveTransactions fuel txsToRetrieve).
Proof.
  intros HP1 HP2 HP3. revert txsToRetrieve.
  induction fuel as [|fuel IH]; intros txsToRetrieve; cbn [retrieveTransactions].
  - destruct (_ =? _)%nat; solve_emits.
  - destruct (_ =? _)%nat; [solve_emits|].
    destruct (_ <? _).
    + apply emits_bind; [by apply emits_Call_GetMempoolTxs|].
      intros [err|reply]; [solve_emits|].
      destruct (gmt_Error reply); [solve_emits|].
      apply emits_bind; [by apply emits_storeTransactions|]. intros _. apply IH.
    + apply emits_bind; [by apply emits_Call_GetMempoolTxs|].
      intros [err|reply]; [solve_emits|].
      destruct (gmt_Error reply); [solve_emits|].
      apply emits_bind; [by apply emits_storeTransactions|]. intros _. apply IH.
Qed.

Lemma emits_doInitialMempoolSync (P : Event -> Prop) (fuel : nat) :
  (forall c, P (EvRPC c)) -> (forall tx, P (EvStoreTx tx)) -> (forall l, P (EvLog l)) ->
  emits P (doInitialMempoolSync fuel).
Proof.
  intros HP1 HP2 HP3. unfold doInitialMempoolSync.
  apply emits_bind; [by apply emits_Call_Mempool|].
  intros [err|reply]; [solve_emits|].
  apply emits_bind; [solve_emits|]. intros mp.
  by apply emits_retrieveTransactions.
Qed.

Lemma emits_onNewTransaction (message : GenericMessage) :
  emits any_event (onNewTransaction message).
Proof.
  unfold onNewTransaction. destruct (Payload_of message); [|solve_emits].
  destruct (negb _); [solve_emits|].
  apply emits_bind; [by apply emits_mempool_StoreTx_call|].
  intros [err|]; solve_emits.
Qed.

Lemma Start_frame (fuel : nat) (sm : SyncManager) :
  initialSyncCompleted (snd (Start fuel sm)) = initialSyncCompleted sm /\
  wg (snd (Start fuel sm)) = S (wg sm) /\
  exists evs, trace (snd (Start fuel sm)) = trace sm ++ evs.
Proof.
  unfold Start.
  match goal with |- context [bind (wg_Add 1) ?k] =>
    assert (Hk : emits any_event (k tt));
      [cbv beta
      | change (bind (wg_Add 1) k sm) with (k tt (snd (wg_Add 1 sm)));
        destruct (Hk (snd (wg_Add 1 sm))) as ((Hf & Hw) & evs & Htr & _)]
  end; cycle 1.
  { cbv beta in *. rewrite Hf, Hw, Htr. cbn.
    split; [done|]. split; [lia|]. by exists evs. }
  apply emits_bind; [by apply emits_doInitialBlockPoolSync|].
  intros [err|]; [|solve_emits].
  apply emits_bind; [destruct err; solve_emits|]. intros _.
  apply emits_bind; [by apply emits_doInitialMempoolSync|].
  intros [err'|]; [|solve_emits].
  apply emits_bind; [destruct err'; solve_emits|]. intros _.
  solve_emits.
Qed.

End EmitsCode.

(** ** Initial block-pool sync: how it starts and how it ends *)

Lemma omap_none {A B} (f : A -> option B) (l : list A) :
  Forall (fun x => f x = None) l -> omap f l = [].
Proof. induction 1 as [|x l Hx _ IH]; [done|]. cbn. by rewrite Hx. Qed.

Section BlockPoolSync.
Context `{E : Externals}.

Lemma emits_trace {A} (P : Event -> Prop) (m : M A) (sm : SyncManager) :
  emits P m -> exists evs, trace (snd (m sm)) = trace sm ++ evs /\ Forall P evs.
Proof. intros Hm. by destruct (Hm sm) as (_ & ?). Qed.

Lemma processed_blocks_none (evs : list Event) :
  Forall not_processing evs -> processed_blocks evs = [].
Proof.
  induction 1 as [|ev evs Hev _ IH]; [done|].
  unfold processed_blocks in *. cbn. unfold not_processing in Hev. by rewrite Hev.
Qed.

Lemma syncWithPeer_begins (fuel : nat) (h : Z) (sm : SyncManager) :
  exists evs,
    trace (snd (syncWithPeer fuel h sm)) = trace sm ++ EvRPC CallLastBlockHeight :: evs.
Proof.
  unfold syncWithPeer, bind. rewrite Call_LastBlockHeight_run.
  destruct (rpc_LastBlockHeight (net sm)) as [w [err|reply]]; cbn [fst snd].
  - by exists [].
  - destruct (lbh_Error reply); [by exists []|].
    edestruct (emits_trace any_event (catchUp fuel h (lbh_Height reply))) as (evs & -> & _);
      [by apply emits_catchUp|].
    exists evs. cbn [trace]. by rewrite <- app_assoc.
Qed.

(** With the flag unset the procedure goes past its guard: it seeds the
    genesis block when the pool reports no latest height, and otherwise
    goes on to ask the peer for its height. *)
Lemma doInitialBlockPoolSync_begins (fuel : nat) (sm : SyncManager) :
  initialSyncCompleted sm = false ->
  exists evs,
    trace (snd (doInitialBlockPoolSync fuel sm)) =
    trace sm ++
      (if is_ErrLatestHeightNil (snd (GetLatestBlockHeight (blockpool sm)))
       then EvStoreBlock GenesisBlock else EvRPC CallLastBlockHeight) :: evs.
Proof.
  intros Hflag. unfold doInitialBlockPoolSync, bind, gets. rewrite Hflag.
  destruct (GetLatestBlockHeight (blockpool sm)) as [h err]. cbn [snd].
  destruct (is_ErrLatestHeightNil err).
  - rewrite blockpool_StoreBlock_run.
    destruct (StoreBlock (blockpool sm) GenesisBlock) as [db' [e|]]; cbn [fst snd].
    + by exists [].
    + edestruct (emits_trace any_event (syncWithPeer fuel h)) as (evs & -> & _);
        [by apply emits_syncWithPeer|].
      exists evs. cbn [trace]. by rewrite <- app_assoc.
  - cbn. apply syncWithPeer_begins.
Qed.

Lemma reachable_flag (sm : SyncManager) :
  reachable sm -> initialSyncCompleted sm = false.
Proof.
  induction 1 as [| fuel sm _ IH | sm _ IH | message sm _ IH | sm bp mp w _ IH]; try done.
  - destruct (Start_frame fuel sm) as [-> _]. exact IH.
  - destruct (emits_onNewTransaction message sm) as [[-> _] _]. exact IH.
Qed.

(** C9.  [NewSyncManager] sets [initialSyncCompleted] to false and no
    method assigns it, so it is false in every state the manager reaches;
    the guard at the top of [doInitialBlockPoolSync] therefore never
    fires: every call of [Start] goes into the initial block-pool sync,
    whose first act is to seed the genesis block (empty pool) or to ask
    the peer for its height. *)
Theorem C9_initialSyncCompleted_never_set (sm : SyncManager) :
  reachable sm ->
  initialSyncCompleted sm = false /\
  (forall fuel, initialSyncCompleted (snd (Start fuel sm)) = false) /\
  (forall fuel, exists evs,
     new_events sm (snd (Start fuel sm)) =
       (if is_ErrLatestHeightNil (snd (GetLatestBlockHeight (blockpool sm)))
        then EvStoreBlock GenesisBlock else EvRPC CallLastBlockHeight) :: evs).
Proof.
  intros Hr. pose proof (reachable_flag sm Hr) as Hflag. split_and!; [done| |].
  - intros fuel. by apply reachable_flag, reachable_Start.
  - intros fuel. unfold Start.
    match goal with |- context [bind (wg_Add 1) ?k] =>
      change (bind (wg_Add 1) k sm) with (k tt (snd (wg_Add 1 sm))) end.
    cbv beta. unfold bind at 1.
    destruct (doInitialBlockPoolSync_begins fuel (snd (wg_Add 1 sm)) Hflag)
      as (evs & Htr).
    cbn [wg_Add snd blockpool trace] in Htr.
    destruct (doInitialBlockPoolSync fuel _) as [r sm1]. cbn [snd] in Htr.
    match goal with |- context [new_events sm (snd (?k sm1))] =>
      assert (Hk : exists evs', trace (snd (k sm1)) = trace sm1 ++ evs') end.
    { destruct r as [err|]; [|by exists []; rewrite app_nil_r].
      match goal with |- context [snd (?m sm1)] =>
        destruct (emits_trace any_event m sm1) as (evs' & Hevs & _) end; [|by exists evs'].
      apply emits_bind; [destruct err; solve_emits|]. intros _.
      apply emits_bind; [by apply emits_doInitialMempoolSync|].
      intros [err'|]; [|solve_emits].
      apply emits_bind; [destruct err'; solve_emits|]. intros _. solve_emits. }
    destruct Hk as (evs' & Hk). exists (evs ++ evs').
    apply new_events_app. rewrite Hk, Htr. by rewrite <- app_assoc.
Qed.

(** Past the guard, the genesis seeding and the two error checks of the
    reply, the procedure is [catchUp] from the local height and the
    peer's height. *)
Lemma doInitialBlockPoolSync_catchUp (fuel : nat) (sm : SyncManager) (local : Z)
    (err : option Error) (reply : LastBlockHeightReply) :
  initialSyncCompleted sm = false ->
  GetLatestBlockHeight (blockpool sm) = (local, err) ->
  is_ErrLatestHeightNil err = false ->
  snd (rpc_LastBlockHeight (net sm)) = inr reply ->
  lbh_Error reply = None ->
  doInitialBlockPoolSync fuel sm =
  catchUp fuel local (lbh_Height reply) (snd (Call_LastBlockHeight sm)).
Proof.
  intros Hflag Hlatest Hnil Hr He.
  rewrite Call_LastBlockHeight_run. cbn [snd].
  unfold doInitialBlockPoolSync, bind, gets. rewrite Hflag, Hlatest, Hnil.
  unfold ret at 1. unfold syncWithPeer, bind.
  rewrite Call_LastBlockHeight_run, Hr, He. by rewrite Hflag.
Qed.

(** C8.  When [GetLatestBlockHeight] returns a height together with an
    error that is not [ErrLatestHeightNil], [doInitialBlockPoolSync]
    neither returns nor logs that error: it goes straight to the
    [LastBlockHeight] call, whose outcome replaces the error, and goes on
    with the height that came with it. *)
Theorem C8_latest_height_error_dropped (fuel : nat) (sm : SyncManager) (h : Z) (err : Error) :
  initialSyncCompleted sm = false ->
  GetLatestBlockHeight (blockpool sm) = (h, Some err) ->
  err <> ErrLatestHeightNil ->
  let sm1 := snd (Call_LastBlockHeight sm) in
  doInitialBlockPoolSync fuel sm = syncWithPeer fuel h sm /\
  (exists evs,
     new_events sm (snd (doInitialBlockPoolSync fuel sm)) = EvRPC CallLastBlockHeight :: evs) /\
  (forall e, snd (rpc_LastBlockHeight (net sm)) = inl e ->
     doInitialBlockPoolSync fuel sm = (Some (Some e), sm1)) /\
  (forall reply e, snd (rpc_LastBlockHeight (net sm)) = inr reply ->
     lbh_Error reply = Some e ->
     doInitialBlockPoolSync fuel sm = (Some (Some e), sm1)) /\
  (forall reply, snd (rpc_LastBlockHeight (net sm)) = inr reply ->
     lbh_Error reply = None ->
     doInitialBlockPoolSync fuel sm = catchUp fuel h (lbh_Height reply) sm1).
Proof.
  intros Hflag Hlatest Hne sm1.
  assert (Heq : doInitialBlockPoolSync fuel sm = syncWithPeer fuel h sm).
  { unfold doInitialBlockPoolSync, bind, gets. rewrite Hflag, Hlatest.
    by destruct err. }
  rewrite Heq. split_and!; [done| | | |].
  - destruct (syncWithPeer_begins fuel h sm) as (evs & Htr).
    exists evs. by apply new_events_app.
  - intros e He. subst sm1. unfold syncWithPeer, bind.
    rewrite Call_LastBlockHeight_run, He. done.
  - intros reply e Hr He. subst sm1. unfold syncWithPeer, bind.
    rewrite Call_LastBlockHeight_run, Hr. cbn. by rewrite He.
  - intros reply Hr He. subst sm1. unfold syncWithPeer, bind.
    rewrite Call_LastBlockHeight_run, Hr. cbn. by rewrite He.
Qed.


End BlockPoolSync.

(** ** The per-block loop *)

Section ProcessBlocks.
Context `{E : Externals}.

Lemma processBlocks_cons (b : Block.t) (rest : list Block.t) (sm : SyncManager) :
  processBlocks (b :: rest) sm =
  match fst (processReceivedBlock b sm) with
  | None => (None, after_block b sm)
  | Some _ => processBlocks rest (after_block b sm)
  end.
Proof.
  cbn [processBlocks]. unfold after_block, bind.
  by destruct (processReceivedBlock b sm) as [[[err|]|] sm1].
Qed.

Lemma processBlocks_app (pre post : list Block.t) (sm : SyncManager) :
  processBlocks (pre ++ post) sm =
  match fst (processBlocks pre sm) with
  | None => processBlocks pre sm
  | Some _ => processBlocks post (snd (processBlocks pre sm))
  end.
Proof.
  revert sm. induction pre as [|b pre IH]; intros sm; [done|].
  cbn [app]. rewrite !processBlocks_cons.
  destruct (fst (processReceivedBlock b sm)); [apply IH|done].
Qed.

(** The loop body for [b], by the outcome of [processReceivedBlock b]. *)
Lemma after_block_trace (b : Block.t) (sm : SyncManager) :
  exists evs,
    trace (after_block b sm) = trace sm ++ evs /\
    processed_blocks evs = [b] /\
    match fst (processReceivedBlock b sm) with
    | Some (Some err) =>
        log_lines evs =
          [LogWarnf "unable to process block %d: %s"
             [ArgUint64 (BlockHeader.Height (Block.Header b)); ArgErrorText err]] /\
        panics evs = []
    | Some None => log_lines evs = [] /\ panics evs = []
    | None =>
        evs = [EvProcessReceivedBlock b; EvPanic nil_pointer_dereference] /\
        nil_proof_panics (blockpool sm) b /\
        blockpool (after_block b sm) = blockpool sm
    end.
Proof.
  pose proof (processReceivedBlock_run b sm) as (_ & _ & _ & Hrun).
  unfold after_block. destruct (processReceivedBlock b sm) as [res sm1].
  cbn [fst snd] in *.
  destruct Hrun as [(_ & Htr & _ & ->)|[(Hp & Htr & Hdb & ->)|(_ & _ & Htr & _ & err & ->)]].
  - destruct (snd (StoreBlock (blockpool sm) b)) as [e|].
    + eexists (_ ++ [_]). cbn [logrus emit snd trace]. rewrite Htr.
      split; [by rewrite <- app_assoc|]. done.
    + eexists. split; [exact Htr|]. done.
  - eexists. split; [exact Htr|]. done.
  - eexists (_ ++ [_]). cbn [logrus emit snd trace]. rewrite Htr.
    split; [by rewrite <- app_assoc|]. done.
Qed.

(** The loop as a whole: it ends having passed every block to
    [processReceivedBlock], or a call panicked and the blocks after it
    were not touched. *)
Lemma processBlocks_trace (receivedBlocks : list Block.t) :
  forall sm : SyncManager,
  exists evs,
    trace (snd (processBlocks receivedBlocks sm)) = trace sm ++ evs /\
    match fst (processBlocks receivedBlocks sm) with
    | Some _ => processed_blocks evs = receivedBlocks /\ panics evs = []
    | None =>
        panics evs = [nil_pointer_dereference] /\
        exists pre b post,
          receivedBlocks = pre ++ b :: post /\
          processed_blocks evs = pre ++ [b] /\
          fst (processBlocks pre sm) = Some tt /\
          nil_proof_panics (blockpool (snd (processBlocks pre sm))) b
    end.
Proof.
  induction receivedBlocks as [|b rest IH]; intros sm.
  - exists []. by rewrite app_nil_r.
  - rewrite processBlocks_cons.
    destruct (after_block_trace b sm) as (evs1 & Htr1 & Hp1 & Hout).
    destruct (fst (processReceivedBlock b sm)) as [res|] eqn:Hres.
    + assert (Hpan : panics evs1 = []) by (by destruct res as [e|]; destruct Hout).
      destruct (IH (after_block b sm)) as (evs2 & Htr2 & Hrest).
      exists (evs1 ++ evs2). split; [by rewrite Htr2, Htr1, <- app_assoc|].
      unfold processed_blocks, panics in *. rewrite !omap_app, Hp1, Hpan.
      destruct (fst (processBlocks rest (after_block b sm))) as [[]|].
      * destruct Hrest as [-> ->]. done.
      * destruct Hrest as (-> & pre & b' & post & -> & -> & Hpre & Hb').
        split; [done|]. exists (b :: pre), b', post.
        rewrite processBlocks_cons, Hres. done.
    + destruct Hout as (-> & Hp & _). eexists. split; [exact Htr1|].
      split; [done|]. by exists [], b, rest.
Qed.

(** [catchUp], once the range loop has ended with blocks, is the
    per-block loop on those blocks. *)
Lemma catchUp_processes (fuel : nat) (local peer : Z) (sm sm1 : SyncManager)
    (blocks : list Block.t) :
  local < peer ->
  fetchBlocks fuel (sub64 peer local) local [] sm = (Some (inr blocks), sm1) ->
  catchUp fuel local peer sm =
  (match fst (processBlocks blocks sm1) with Some _ => Some None | None => None end,
   snd (processBlocks blocks sm1)).
Proof.
  intros Hlt Hfetch. unfold catchUp, bind.
  destruct (local <? peer) eqn:Hltb; [|lia]. rewrite Hfetch.
  by destruct (processBlocks blocks sm1) as [[[]|] sm2].
Qed.

(** How [catchUp] ends. *)
Lemma catchUp_outcome (fuel : nat) (local peer : Z) (sm : SyncManager) :
  exists evs,
    trace (snd (catchUp fuel local peer sm)) = trace sm ++ evs /\
    sync_outcome (fst (catchUp fuel local peer sm)) evs.
Proof.
  unfold catchUp. destruct (_ <? _); cycle 1.
  { exists []. rewrite app_nil_r. split; [done|]. by left. }
  unfold bind.
  destruct (emits_trace (fun ev => processed_block ev = None /\ panic_of ev = None)
              (fetchBlocks fuel (sub64 peer local) local []) sm) as (evs & Htr & Hev);
    [by apply emits_fetchBlocks|].
  assert (Hnone : processed_blocks evs = [] /\ panics evs = []).
  { split; apply omap_none; (eapply Forall_impl; [exact Hev|]); by intros ev [? ?]. }
  destruct Hnone as [Hnp Hnpan].
  destruct (fetchBlocks _ _ _ _ sm) as [[[err|blocks]|] sm1]; cbn [snd] in *.
  - exists evs. split; [done|]. right. right. done.
  - destruct (processBlocks_trace blocks sm1) as (evs2 & Htr2 & Hout).
    destruct (processBlocks blocks sm1) as [res sm2]. cbn [fst snd] in *.
    exists (evs ++ evs2). unfold sync_outcome, panics in *.
    destruct res as [[]|]; cbn [ret fst snd].
    + split; [by rewrite Htr2, Htr, <- app_assoc|]. left.
      destruct Hout as [_ Hp]. by rewrite omap_app, Hnpan, Hp.
    + split; [by rewrite Htr2, Htr, <- app_assoc|]. right. left.
      destruct Hout as [Hp _]. by rewrite omap_app, Hnpan, Hp.
  - exists evs. split; [done|]. right. right. done.
Qed.

(** The outcomes of [catchUp] carry over to the procedure, whose earlier
    steps process no block and cannot panic. *)
Lemma sync_outcome_after (r : option (option Error)) (evs1 evs2 : list Event) :
  processed_blocks evs1 = [] -> panics evs1 = [] ->
  sync_outcome r evs2 -> sync_outcome r (evs1 ++ evs2).
Proof.
  intros Hp Hpan. unfold sync_outcome, processed_blocks, panics in *.
  rewrite !omap_app, Hp, Hpan. done.
Qed.

Lemma doInitialBlockPoolSync_outcome (fuel : nat) (sm : SyncManager) :
  sync_outcome (fst (doInitialBlockPoolSync fuel sm))
    (new_events sm (snd (doInitialBlockPoolSync fuel sm))).
Proof.
  unfold doInitialBlockPoolSync, bind, gets.
  destruct (initialSyncCompleted sm); [rewrite new_events_refl; by left|].
  destruct (GetLatestBlockHeight (blockpool sm)) as [h err].
  assert (Hsync : forall sm1 evs1,
            trace sm1 = trace sm ++ evs1 ->
            processed_blocks evs1 = [] -> panics evs1 = [] ->
            sync_outcome (fst (syncWithPeer fuel h sm1))
              (new_events sm (snd (syncWithPeer fuel h sm1)))).
  { intros sm1 evs1 Htr1 Hp1 Hpan1. unfold syncWithPeer, bind.
    rewrite Call_LastBlockHeight_run.
    set (sm2 := mkSyncManager _ _ _ _ _ _).
    assert (Htr2 : trace sm2 = trace sm ++ (evs1 ++ [EvRPC CallLastBlockHeight]))
      by (subst sm2; cbn; by rewrite Htr1, <- app_assoc).
    assert (Hp2 : processed_blocks (evs1 ++ [EvRPC CallLastBlockHeight]) = [])
      by (unfold processed_blocks in *; by rewrite omap_app, Hp1).
    assert (Hpan2 : panics (evs1 ++ [EvRPC CallLastBlockHeight]) = [])
      by (unfold panics in *; by rewrite omap_app, Hpan1).
    destruct (snd (rpc_LastBlockHeight (net sm1))) as [e|reply].
    - cbn. erewrite new_events_app; [|exact Htr2]. right. right. done.
    - destruct (lbh_Error reply).
      + cbn. erewrite new_events_app; [|exact Htr2]. right. right. done.
      + destruct (catchUp_outcome fuel h (lbh_Height reply) sm2) as (evs3 & Htr3 & Hout).
        erewrite new_events_app; [|by rewrite Htr3, Htr2, <- app_assoc].
        by apply sync_outcome_after. }
  destruct (is_ErrLatestHeightNil err).
  - rewrite blockpool_StoreBlock_run.
    destruct (snd (StoreBlock (blockpool sm) GenesisBlock)) as [e|].
    + cbn. erewrite new_events_app; [|reflexivity]. right. right. done.
    + eapply Hsync; [reflexivity | done | done].
  - cbn. eapply (Hsync sm []); [by rewrite app_nil_r | done | done].
Qed.

(** C7, evaluated on the code.  In the per-block loop an error that
    [processReceivedBlock] returns for a block is logged as a warning
    and the loop goes on with the blocks after it; when the loop ends
    every block of the list has been passed to [processReceivedBlock],
    in order, and [doInitialBlockPoolSync] returns [nil].  A block
    without [LastHashProof] whose predecessor is in the pool with the
    hash [LastHash] is not such a failure: the call panics, nothing is
    logged for it, the blocks after it are neither processed nor
    stored, and neither the loop nor [doInitialBlockPoolSync] returns.
    The loop ends, or it is left by such a panic: there is no third
    way. *)
Theorem C7_block_failure_does_not_abort (pre post : list Block.t) (b : Block.t)
    (sm : SyncManager) :
  let sm1 := snd (processBlocks pre sm) in
  let run := processBlocks (pre ++ b :: post) sm in
  let evs := new_events sm (snd run) in
  (fst (processBlocks pre sm) = Some tt ->
   forall err, fst (processReceivedBlock b sm1) = Some (Some err) ->
     run = processBlocks post (after_block b sm1) /\
     processed_blocks (new_events sm (after_block b sm1)) = pre ++ [b] /\
     LogWarnf "unable to process block %d: %s"
       [ArgUint64 (BlockHeader.Height (Block.Header b)); ArgErrorText err]
     ∈ log_lines evs) /\
  (fst (processBlocks pre sm) = Some tt ->
   nil_proof_panics (blockpool sm1) b ->
     fst run = None /\
     evs = new_events sm sm1 ++
             [EvProcessReceivedBlock b; EvPanic nil_pointer_dereference] /\
     processed_blocks evs = pre ++ [b] /\
     stored_blocks evs = stored_blocks (new_events sm sm1) /\
     log_lines evs = log_lines (new_events sm sm1) /\
     blockpool (snd run) = blockpool sm1) /\
  (fst run = Some tt ->
     processed_blocks evs = pre ++ b :: post /\ panics evs = []) /\
  (fst run = None ->
     panics evs = [nil_pointer_dereference] /\
     exists done c rest,
       pre ++ b :: post = done ++ c :: rest /\
       processed_blocks evs = done ++ [c] /\
       fst (processBlocks done sm) = Some tt /\
       nil_proof_panics (blockpool (snd (processBlocks done sm))) c) /\
  (forall fuel local peer sm0 sm2 blocks,
     local < peer ->
     fetchBlocks fuel (sub64 peer local) local [] sm0 = (Some (inr blocks), sm2) ->
     snd (catchUp fuel local peer sm0) = snd (processBlocks blocks sm2) /\
     (fst (catchUp fuel local peer sm0) = Some None <->
      fst (processBlocks blocks sm2) = Some tt) /\
     (fst (catchUp fuel local peer sm0) = None <->
      fst (processBlocks blocks sm2) = None)) /\
  (forall fuel sm0,
     let r0 := doInitialBlockPoolSync fuel sm0 in
     let evs0 := new_events sm0 (snd r0) in
     processed_blocks evs0 <> [] ->
     (fst r0 = Some None /\ panics evs0 = []) \/
     (fst r0 = None /\ panics evs0 = [nil_pointer_dereference])).
Proof.
  intros sm1 run evs.
  assert (Hrun : fst (processBlocks pre sm) = Some tt ->
                 run = match fst (processReceivedBlock b sm1) with
                       | None => (None, after_block b sm1)
                       | Some _ => processBlocks post (after_block b sm1)
                       end).
  { intros Hpre. subst run sm1. by rewrite processBlocks_app, Hpre, processBlocks_cons. }
  destruct (processBlocks_trace pre sm) as (evs1 & Htr1 & Hout1). fold sm1 in Htr1.
  destruct (after_block_trace b sm1) as (evs2 & Htr2 & Hp2 & Hout2).
  destruct (processBlocks_trace (pre ++ b :: post) sm) as (evsr & Htrr & Houtr).
  fold run in Htrr, Houtr.
  assert (Hevs : evs = evsr) by (subst evs; by apply new_events_app).
  split_and!.
  - intros Hpre err Herr. rewrite Hpre in Hout1. destruct Hout1 as [Hp1 _].
    rewrite Herr in Hout2. destruct Hout2 as [Hlog _].
    specialize (Hrun Hpre). rewrite Herr in Hrun. split; [done|]. split.
    + erewrite new_events_app; [|by rewrite Htr2, Htr1, <- app_assoc].
      unfold processed_blocks in *. by rewrite omap_app, Hp1, Hp2.
    + destruct (emits_trace any_event (processBlocks post) (after_block b sm1))
        as (evs3 & Htr3 & _); [by apply emits_processBlocks|].
      subst evs. rewrite Hrun.
      erewrite new_events_app; [|by rewrite Htr3, Htr2, Htr1, <- !app_assoc].
      unfold log_lines in *. rewrite !omap_app, Hlog.
      apply elem_of_app. right. apply elem_of_app. left. apply list_elem_of_here.
  - intros Hpre Hp. rewrite Hpre in Hout1. destruct Hout1 as [Hp1 _].
    pose proof (processReceivedBlock_run b sm1) as (_ & _ & _ & Hb).
    assert (Hres : fst (processReceivedBlock b sm1) = None).
    { destruct Hb as [(Hv & _)|[(_ & _ & _ & ?)|(_ & Hn & _)]]; [|done|done].
      by apply validates_not_panics in Hv. }
    rewrite Hres in Hout2. destruct Hout2 as (-> & _ & Hdb).
    specialize (Hrun Hpre). rewrite Hres in Hrun.
    assert (Hnew : evs = new_events sm sm1 ++
                     [EvProcessReceivedBlock b; EvPanic nil_pointer_dereference]).
    { subst evs. rewrite Hrun. cbn [snd].
      rewrite (new_events_app _ _ _ Htr1).
      apply new_events_app. by rewrite Htr2, Htr1, <- app_assoc. }
    rewrite Hrun. cbn [fst snd]. split; [done|]. split; [done|].
    rewrite Hnew, (new_events_app _ _ _ Htr1).
    unfold processed_blocks, stored_blocks, log_lines in *.
    rewrite !omap_app, Hp1. cbn. by rewrite !app_nil_r.
  - intros Hres. rewrite Hres in Houtr. by rewrite Hevs.
  - intros Hres. rewrite Hres in Houtr. by rewrite Hevs.
  - intros fuel local peer sm0 sm2 blocks Hlt Hfetch.
    rewrite (catchUp_processes fuel local peer sm0 sm2 blocks Hlt Hfetch). cbn [fst snd].
    split; [done|]. destruct (fst (processBlocks blocks sm2)) as [[]|]; by split.
  - intros fuel sm0 r0 evs0 Hne.
    destruct (doInitialBlockPoolSync_outcome fuel sm0) as [?|[?|[Hnone _]]];
      [by left|by right|done].
Qed.

End ProcessBlocks.

(** ** Chains of ranges *)

Lemma last_to_ge (t0 : Z) (rs : list (Z * Z)) :
  chained t0 rs -> Forall (fun r => fst r <= snd r) rs -> t0 <= last_to t0 rs.
Proof.
  revert t0. induction rs as [|[f t] rest IH]; intros t0 Hc Hne; cbn; [lia|].
  destruct Hc as [-> Hc]. apply Forall_cons in Hne as [Hft Hne]. cbn in Hft.
  specialize (IH t Hc Hne). lia.
Qed.

Lemma covered_times_chained (h t0 : Z) (rs : list (Z * Z)) :
  chained t0 rs -> Forall (fun r => fst r <= snd r) rs ->
  covered_times h rs = if (t0 <? h) && (h <=? last_to t0 rs) then 1%nat else 0%nat.
Proof.
  revert t0. induction rs as [|[f t] rest IH]; intros t0 Hc Hne.
  - cbn. destruct (t0 <? h) eqn:H1, (h <=? t0) eqn:H2; try done. lia.
  - destruct Hc as [-> Hc]. apply Forall_cons in Hne as [Hft Hne]. cbn in Hft.
    pose proof (last_to_ge t rest Hc Hne) as Hge.
    specialize (IH t Hc Hne). unfold covered_times in *. cbn [List.filter last_to].
    unfold in_request at 1. cbn [fst snd].
    destruct (t0 + 1 <=? h) eqn:H1, (h <=? t) eqn:H2, (t0 <? h) eqn:H3,
      (h <=? last_to t rest) eqn:H4, (t <? h) eqn:H5;
      cbn [andb length] in *; rewrite ?IH; try reflexivity; lia.
Qed.

Lemma chained_after (t0 : Z) (rs : list (Z * Z)) :
  chained t0 rs -> Forall (fun r => fst r <= snd r) rs ->
  Forall (fun r => t0 < fst r) rs.
Proof.
  revert t0. induction rs as [|[f t] rest IH]; intros t0 Hc Hne; [constructor|].
  destruct Hc as [-> Hc]. apply Forall_cons in Hne as [Hft Hne]. cbn in Hft.
  constructor; [cbn; lia|].
  eapply Forall_impl; [exact (IH t Hc Hne)|]. cbn. intros r. lia.
Qed.

Lemma chained_ascending (t0 : Z) (rs : list (Z * Z)) (i j : nat) (ri rj : Z * Z) :
  chained t0 rs -> Forall (fun r => fst r <= snd r) rs ->
  rs !! i = Some ri -> rs !! j = Some rj -> (i < j)%nat ->
  fst ri < fst rj /\ snd ri < fst rj.
Proof.
  revert t0 i j. induction rs as [|[f t] rest IH]; intros t0 i j Hc Hne Hi Hj Hij; [done|].
  destruct Hc as [-> Hc]. apply Forall_cons in Hne as [Hft Hne]. cbn in Hft.
  destruct j as [|j]; [lia|]. cbn in Hj.
  destruct i as [|i].
  - cbn in Hi. injection Hi as <-. cbn.
    pose proof (chained_after t rest Hc Hne) as Hafter.
    rewrite Forall_forall in Hafter.
    assert (t < fst rj) by (apply Hafter; by eapply list_elem_of_lookup_2). lia.
  - cbn in Hi. eapply (IH t i j); eauto. lia.
Qed.

Lemma chained_app (t0 : Z) (rs1 rs2 : list (Z * Z)) :
  chained t0 (rs1 ++ rs2) <-> chained t0 rs1 /\ chained (last_to t0 rs1) rs2.
Proof.
  revert t0. induction rs1 as [|[f t] rest IH]; intros t0; cbn; [tauto|].
  rewrite IH. tauto.
Qed.

(** ** [uint64] arithmetic where nothing wraps *)

Lemma add64_small (a b : Z) : 0 <= a + b < 2 ^ 64 -> add64 a b = a + b.
Proof. intros H. unfold add64, wrap64, uint64_modulus. by apply Z.mod_small. Qed.

Lemma sub64_small (a b : Z) : 0 <= a - b < 2 ^ 64 -> sub64 a b = a - b.
Proof. intros H. unfold sub64, wrap64, uint64_modulus. by apply Z.mod_small. Qed.

(** ** The range loop of the initial block-pool sync *)

Section FetchLoop.
Context `{E : Externals}.

Lemma addedVal_bounds (heightCount : Z) :
  0 <= MaxBlockCountForRetrieving -> 0 < heightCount ->
  0 <= addedVal heightCount <= heightCount /\
  addedVal heightCount <= MaxBlockCountForRetrieving /\
  (0 < MaxBlockCountForRetrieving -> 1 <= addedVal heightCount).
Proof. intros HM Hh. unfold addedVal. destruct (_ <? _) eqn:Hlt; lia. Qed.

(** One iteration, when nothing wraps. *)
Lemma fetchBlocks_step (fuel : nat) (heightCount to : Z) (receivedBlocks : list Block.t)
    (sm : SyncManager) :
  0 <= MaxBlockCountForRetrieving -> 0 < heightCount -> 0 <= to ->
  to + heightCount < 2 ^ 64 ->
  let from := to + 1 in
  let to' := to + addedVal heightCount in
  let sm1 := snd (Call_GetRangeOfBlocks from to' sm) in
  fetchBlocks (S fuel) heightCount to receivedBlocks sm =
  match snd (rpc_GetRangeOfBlocks (net sm) from to') with
  | inl err => (Some (inl err), sm1)
  | inr reply =>
      fetchBlocks fuel (heightCount - addedVal heightCount) to'
        (receivedBlocks ++ Blocks reply)
        (if negb (length (FailedBlockHeights reply) =? 0)%nat then
           snd (logrus (LogWarnf "remote node is unable to retrieve block heights: %s"
                          [ArgHeights (FailedBlockHeights reply)]) sm1)
         else sm1)
  end.
Proof.
  intros HM Hh Hto Hhi from to' sm1.
  pose proof (addedVal_bounds heightCount HM Hh) as (Ha1 & Ha2 & _).
  cbn [fetchBlocks]. fold (addedVal heightCount).
  destruct (0 <? heightCount) eqn:Hpos; [|lia]. cbn [negb].
  rewrite (add64_small to 1) by lia.
  rewrite (add64_small to (addedVal heightCount)) by lia.
  rewrite (sub64_small heightCount (addedVal heightCount)) by lia.
  fold from to'. unfold bind at 1. subst sm1.
  rewrite Call_GetRangeOfBlocks_run. cbn [fst snd].
  destruct (snd (rpc_GetRangeOfBlocks (net sm) from to')) as [err|reply]; [done|].
  unfold bind. by destruct (negb _).
Qed.

Lemma fetchBlocks_requests (fuel : nat) :
  forall (heightCount to : Z) (receivedBlocks : list Block.t) (sm : SyncManager),
  0 <= MaxBlockCountForRetrieving -> 0 <= heightCount -> 0 <= to ->
  to + heightCount < 2 ^ 64 ->
  exists evs,
    trace (snd (fetchBlocks fuel heightCount to receivedBlocks sm)) = trace sm ++ evs /\
    chained to (range_requests evs) /\
    Forall (batch_ok (to + heightCount)) (range_requests evs) /\
    (forall blocks,
       fst (fetchBlocks fuel heightCount to receivedBlocks sm) = Some (inr blocks) ->
       last_to to (range_requests evs) = to + heightCount).
Proof.
  induction fuel as [|fuel IH]; intros heightCount to receivedBlocks sm HM Hh Hto Hhi.
  - cbn [fetchBlocks]. exists []. rewrite app_nil_r.
    destruct (0 <? heightCount) eqn:Hpos; cbn;
      (split; [done|]; split; [done|]; split; [done|]); [done|].
    intros blocks _. lia.
  - destruct (Z.eq_dec heightCount 0) as [->|Hne].
    { exists []. rewrite app_nil_r. cbn.
      split; [done|]. split; [done|]. split; [done|]. intros blocks _. lia. }
    assert (Hpos : 0 < heightCount) by lia.
    pose proof (addedVal_bounds heightCount HM Hpos) as (Ha1 & Ha2 & Ha3).
    rewrite fetchBlocks_step by done. cbv zeta.
    rewrite Call_GetRangeOfBlocks_run. cbn [snd].
    set (from := to + 1). set (to' := to + addedVal heightCount).
    assert (Hok : batch_ok (to + heightCount) (from, to'))
      by (unfold batch_ok; subst from to'; cbn; lia).
    destruct (snd (rpc_GetRangeOfBlocks (net sm) from to')) as [err|reply].
    + exists [EvRPC (CallGetRangeOfBlocks from to')]. cbn.
      split; [done|]. split; [done|]. split; [by constructor|].
      intros blocks [=].
    + match goal with |- context [fetchBlocks fuel ?hc ?t ?acc ?s] =>
        destruct (IH hc t acc s) as (evs & Htr & Hch & Hall & Hlast); try lia;
        set (sm2 := s) in *
      end.
      assert (Hsm2 : exists lg, trace sm2 = trace sm ++
                       EvRPC (CallGetRangeOfBlocks from to') :: lg /\
                       range_requests lg = []).
      { subst sm2. destruct (negb _); cbn.
        - eexists [_]. split; [by rewrite <- app_assoc|done].
        - by exists []. }
      destruct Hsm2 as (lg & Hsm2 & Hlg).
      exists (EvRPC (CallGetRangeOfBlocks from to') :: lg ++ evs).
      assert (Hrs : range_requests (EvRPC (CallGetRangeOfBlocks from to') :: lg ++ evs)
                    = (from, to') :: range_requests evs).
      { unfold range_requests in *. cbn. by rewrite omap_app, Hlg. }
      rewrite Hrs. split; [|split; [|split]].
      * rewrite Htr, Hsm2. by rewrite <- app_assoc.
      * cbn. done.
      * constructor; [done|].
        replace (to + heightCount) with (to' + (heightCount - addedVal heightCount))
          by (subst to'; lia). done.
      * intros blocks Hb. cbn. rewrite (Hlast blocks Hb). subst to'. lia.
Qed.

(** When every range call is answered, fuel for one iteration per
    missing height is enough for the loop to end. *)
Lemma fetchBlocks_completes (fuel : nat) :
  forall (heightCount to : Z) (receivedBlocks : list Block.t) (sm : SyncManager),
  0 < MaxBlockCountForRetrieving -> range_calls_succeed ->
  0 <= heightCount -> 0 <= to -> to + heightCount < 2 ^ 64 ->
  (Z.to_nat heightCount <= fuel)%nat ->
  exists blocks,
    fst (fetchBlocks fuel heightCount to receivedBlocks sm) = Some (inr blocks).
Proof.
  induction fuel as [|fuel IH];
    intros heightCount to receivedBlocks sm HM Hrpc Hh Hto Hhi Hfuel.
  - assert (heightCount = 0) as -> by lia. by eexists.
  - destruct (Z.eq_dec heightCount 0) as [->|Hne]; [by eexists|].
    assert (Hpos : 0 < heightCount) by lia.
    pose proof (addedVal_bounds heightCount ltac:(lia) Hpos) as (Ha1 & Ha2 & Ha3).
    rewrite fetchBlocks_step by (done || lia). cbv zeta.
    destruct (Hrpc (net sm) (to + 1) (to + addedVal heightCount)) as (reply & ->).
    apply IH; try done; lia.
Qed.

(** Fuel for one iteration per missing height is enough for the loop to
    end, with the accumulated blocks or with the error of a call. *)
Lemma fetchBlocks_terminates (fuel : nat) :
  forall (heightCount to : Z) (receivedBlocks : list Block.t) (sm : SyncManager),
  0 < MaxBlockCountForRetrieving ->
  0 <= heightCount -> 0 <= to -> to + heightCount < 2 ^ 64 ->
  (Z.to_nat heightCount <= fuel)%nat ->
  is_Some (fst (fetchBlocks fuel heightCount to receivedBlocks sm)).
Proof.
  induction fuel as [|fuel IH];
    intros heightCount to receivedBlocks sm HM Hh Hto Hhi Hfuel.
  - assert (heightCount = 0) as -> by lia. by eexists.
  - destruct (Z.eq_dec heightCount 0) as [->|Hne]; [by eexists|].
    assert (Hpos : 0 < heightCount) by lia.
    pose proof (addedVal_bounds heightCount ltac:(lia) Hpos) as (Ha1 & Ha2 & Ha3).
    rewrite fetchBlocks_step by (done || lia). cbv zeta.
    destruct (snd (rpc_GetRangeOfBlocks _ _ _)) as [err|reply]; [by eexists|].
    apply IH; try done; lia.
Qed.

End FetchLoop.

Lemma last_to_le (hi t0 : Z) (rs : list (Z * Z)) :
  t0 <= hi -> Forall (fun r => snd r <= hi) rs -> last_to t0 rs <= hi.
Proof.
  revert t0. induction rs as [|[f t] rest IH]; intros t0 Ht Hall; cbn; [done|].
  apply Forall_cons in Hall as [Hle Hall]. by apply IH.
Qed.

Section CatchUp.
Context `{E : Externals}.

Lemma catchUp_requests (fuel : nat) (local peer : Z) (sm : SyncManager) :
  0 <= MaxBlockCountForRetrieving -> is_uint64 local -> is_uint64 peer ->
  exists evs,
    trace (snd (catchUp fuel local peer sm)) = trace sm ++ evs /\
    chained local (range_requests evs) /\
    Forall (batch_ok (Z.max local peer)) (range_requests evs) /\
    (local < peer ->
     fst (catchUp fuel local peer sm) = Some None \/ panics evs <> [] ->
     last_to local (range_requests evs) = peer).
Proof.
  intros HM [Hl1 Hl2] [Hp1 Hp2]. unfold uint64_modulus in *. unfold catchUp.
  destruct (local <? peer) eqn:Hlt; cycle 1.
  { exists []. rewrite app_nil_r. cbn.
    split; [done|]. split; [done|]. split; [done|]. lia. }
  apply Z.ltb_lt in Hlt.
  rewrite (sub64_small peer local) by lia. unfold bind.
  destruct (fetchBlocks_requests fuel (peer - local) local [] sm)
    as (evs & Htr & Hch & Hall & Hlast); try lia.
  destruct (emits_trace (fun ev => panic_of ev = None)
              (fetchBlocks fuel (peer - local) local []) sm) as (evs' & Htr' & Hev');
    [by apply emits_fetchBlocks|].
  rewrite Htr in Htr'. apply app_inv_head in Htr'. subst evs'.
  assert (Hnopanic : panics evs = []) by (by apply omap_none).
  replace (local + (peer - local)) with peer in * by lia.
  replace (Z.max local peer) with peer by lia.
  destruct (fetchBlocks fuel (peer - local) local [] sm) as [[[err|blocks]|] sm1];
    cbn [fst snd] in *.
  - exists evs. split; [done|]. split; [done|]. split; [done|]. by intros _ [[=]|?].
  - destruct (emits_trace (fun ev => range_request ev = None) (processBlocks blocks) sm1)
      as (evs2 & Htr2 & Hev2); [by apply emits_processBlocks|].
    destruct (processBlocks blocks sm1) as [res sm2]. cbn [fst snd] in *.
    exists (evs ++ evs2).
    assert (Hrs : range_requests (evs ++ evs2) = range_requests evs).
    { unfold range_requests. by rewrite omap_app, (omap_none _ evs2), app_nil_r. }
    rewrite Hrs.
    assert (Htrace : forall x : option (option Error),
              trace (snd (ret x sm2)) = trace sm ++ evs ++ evs2)
      by (intros x; cbn; by rewrite Htr2, Htr, <- app_assoc).
    destruct res as [[]|];
      (split; [apply Htrace|]); (split; [done|]); (split; [done|]);
      intros _ _; by eapply Hlast.
  - exists evs. split; [done|]. split; [done|]. split; [done|]. by intros _ [[=]|?].
Qed.

(** With fuel for one iteration per missing height the range loop ends,
    so the catch-up returns unless a call of [processReceivedBlock]
    panics; when every range call is answered it returns [nil] unless
    such a call panics. *)
Lemma catchUp_ends (fuel : nat) (local peer : Z) (sm : SyncManager) :
  0 < MaxBlockCountForRetrieving -> is_uint64 local -> is_uint64 peer ->
  (Z.to_nat (peer - local) <= fuel)%nat ->
  let r := catchUp fuel local peer sm in
  let evs := new_events sm (snd r) in
  (is_Some (fst r) \/ (fst r = None /\ panics evs = [nil_pointer_dereference])) /\
  (range_calls_succeed ->
   fst r = Some None \/ (fst r = None /\ panics evs = [nil_pointer_dereference])).
Proof.
  intros HM [Hl1 Hl2] [Hp1 Hp2] Hfuel. unfold uint64_modulus in *. cbv zeta.
  unfold catchUp.
  destruct (local <? peer) eqn:Hlt; [|split; [left; by eexists | by left]].
  apply Z.ltb_lt in Hlt.
  rewrite (sub64_small peer local) by lia. unfold bind.
  destruct (fetchBlocks_terminates fuel (peer - local) local [] sm) as (res & Hres);
    try done; try lia.
  destruct (emits_trace (fun ev => panic_of ev = None)
              (fetchBlocks fuel (peer - local) local []) sm) as (evs1 & Htr1 & Hev1);
    [by apply emits_fetchBlocks|].
  apply omap_none in Hev1. fold (panics evs1) in Hev1.
  destruct (fetchBlocks fuel (peer - local) local [] sm) as [rf sm1] eqn:Hfetch.
  cbn [fst snd] in *. subst rf. destruct res as [err|blocks].
  - split; [left; by eexists|]. intros Hrpc.
    destruct (fetchBlocks_completes fuel (peer - local) local [] sm) as (blocks & Hb);
      try done; try lia.
    rewrite Hfetch in Hb. discriminate.
  - destruct (processBlocks_trace blocks sm1) as (evs2 & Htr2 & Hout).
    destruct (processBlocks blocks sm1) as [[[]|] sm2]; cbn [fst snd ret] in *.
    + split; [left; by eexists | by left].
    + destruct Hout as [Hpan _].
      assert (Hp : panics (new_events sm sm2) = [nil_pointer_dereference]).
      { erewrite new_events_app; [|by rewrite Htr2, Htr1, <- app_assoc].
        unfold panics in *. by rewrite omap_app, Hev1, Hpan. }
      split; [by right | by right].
Qed.

(** C3 (as amended).  For every local height and every peer height
    above it, the [GetRangeOfBlocks] requests that the initial block-pool
    sync issues are chained: the first starts at [local + 1] and each
    next one right after the end of the one before; their [from] values
    are strictly increasing and the ranges do not overlap; no height
    outside [(local, peer]] is requested.  When the procedure returns
    without error, the union of the ranges is exactly [(local, peer]],
    every height requested once; so it is when the procedure has gone on
    to the received blocks and a call of [processReceivedBlock] panics.
    The range loop ends within [peer - local] iterations: the procedure
    then returns, unless such a call panics; when every
    [GetRangeOfBlocks] call is answered the ranges cover
    [(local, peer]] exactly and the procedure returns without error,
    unless such a call panics. *)
Theorem C3_range_requests_ascending (fuel : nat) (local peer : Z) (sm : SyncManager) :
  0 < MaxBlockCountForRetrieving ->
  is_uint64 local -> is_uint64 peer -> local < peer ->
  let r := catchUp fuel local peer sm in
  let evs := new_events sm (snd r) in
  let rs := range_requests evs in
  let panicked := fst r = None /\ panics evs = [nil_pointer_dereference] in
  chained local rs /\
  (forall i j ri rj, rs !! i = Some ri -> rs !! j = Some rj -> (i < j)%nat ->
     fst ri < fst rj /\ snd ri < fst rj) /\
  (forall h, (covered_times h rs <= 1)%nat /\
             (covered_times h rs = 1%nat -> local < h <= peer)) /\
  (fst r = Some None -> covers_exactly local peer rs) /\
  (panics evs <> [] -> covers_exactly local peer rs) /\
  ((Z.to_nat (peer - local) <= fuel)%nat -> is_Some (fst r) \/ panicked) /\
  (range_calls_succeed -> (Z.to_nat (peer - local) <= fuel)%nat ->
     (fst r = Some None \/ panicked) /\ covers_exactly local peer rs).
Proof.
  intros HM Hl Hp Hlt r evs rs panicked.
  destruct (catchUp_requests fuel local peer sm) as (evs' & Htr & Hch & Hall & Hlast);
    [lia|done|done|].
  apply new_events_app in Htr. fold r in Htr, Hlast. fold evs in Htr.
  subst rs panicked. rewrite Htr. rewrite <- Htr in Hlast, Hch, Hall.
  pose proof (catchUp_ends fuel local peer sm HM Hl Hp) as Hends.
  cbv zeta in Hends. fold r in Hends. fold evs in Hends. rewrite <- Htr. clear Htr evs'.
  set (rs := range_requests evs) in *.
  replace (Z.max local peer) with peer in Hall by lia.
  assert (Hne : Forall (fun r => fst r <= snd r) rs).
  { eapply Forall_impl; [exact Hall|]. intros q (_ & _ & _ & Hq). by apply Hq. }
  assert (Hhi : last_to local rs <= peer).
  { apply last_to_le; [lia|]. eapply Forall_impl; [exact Hall|]. by intros q (? & _). }
  assert (Hcov : fst r = Some None \/ panics evs <> [] -> covers_exactly local peer rs).
  { intros Hr h. rewrite (covered_times_chained h local rs Hch Hne).
    by rewrite (Hlast Hlt Hr). }
  split; [done|]. split; [|split; [|split; [|split; [|split]]]].
  - intros i j ri rj. by apply (chained_ascending local).
  - intros h. rewrite (covered_times_chained h local rs Hch Hne).
    destruct (local <? h) eqn:H1, (h <=? last_to local rs) eqn:H2; cbn; split; lia.
  - intros Hr. apply Hcov. by left.
  - intros Hr. apply Hcov. by right.
  - intros Hfuel. by destruct (Hends Hfuel) as [? _].
  - intros Hrpc Hfuel. destruct (Hends Hfuel) as [_ Hret]. specialize (Hret Hrpc).
    split; [done|]. apply Hcov.
    destruct Hret as [?|[_ Hpan]]; [by left|]. right. by rewrite Hpan.
Qed.

(** Every range request of [catchUp] spans at most the policy's count. *)
Lemma catchUp_batch_bound (fuel : nat) (local peer : Z) (sm : SyncManager) :
  0 <= MaxBlockCountForRetrieving -> is_uint64 local -> is_uint64 peer ->
  forall from to,
    (from, to) ∈ range_requests (new_events sm (snd (catchUp fuel local peer sm))) ->
    to - from + 1 <= MaxBlockCountForRetrieving.
Proof.
  intros HM Hl Hp from to Hin.
  destruct (catchUp_requests fuel local peer sm) as (evs & Htr & _ & Hall & _); try done.
  apply new_events_app in Htr. rewrite Htr in Hin.
  rewrite Forall_forall in Hall. by destruct (Hall _ Hin) as (_ & _ & ? & _).
Qed.

End CatchUp.

(** C3 as stated fails when the transport drops a range request: with
    the local pool at height 0 and the peer at height 1500, the sync asks
    for [1, 1000], the call fails, the procedure returns the error, and
    no request ever covers height 1500. *)
Lemma C3_counterexample :
  @GetLatestBlockHeight Demo.E Demo.db_genesis = (0, None) /\
  snd (@rpc_LastBlockHeight Demo.E Demo.peer1500_down)
    = inr (mkLastBlockHeightReply 1500 None) /\
  fst (@doInitialBlockPoolSync Demo.E 10 (Demo.sm0 Demo.db_genesis Demo.peer1500_down))
    = Some (Some (ErrExternal "connection reset by peer")) /\
  range_requests
    (new_events (Demo.sm0 Demo.db_genesis Demo.peer1500_down)
       (snd (@doInitialBlockPoolSync Demo.E 10
               (Demo.sm0 Demo.db_genesis Demo.peer1500_down)))) = [(1, 1000)] /\
  range_requests
    (new_events (Demo.sm0 Demo.db_genesis Demo.peer1500_down)
       (snd (@catchUp Demo.E 10 0 1500
               (Demo.sm0 Demo.db_genesis Demo.peer1500_down)))) = [(1, 1000)] /\
  covered_times 1500 [(1, 1000)] = 0%nat /\
  ~ covers_exactly 0 1500 [(1, 1000)].
Proof.
  split_and!; try (vm_compute; reflexivity).
  intros Hc. specialize (Hc 1500). vm_compute in Hc. discriminate.
Qed.

(** ** The batching loop of the initial mempool sync *)

Section MempoolLoop.
Context `{E : Externals}.

Lemma txHashes_of_length (txsToRetrieve : list bytes) :
  0 <= MaxTransactionCountForRetrieving ->
  Z.of_nat (length (txHashes_of txsToRetrieve)) <= MaxTransactionCountForRetrieving.
Proof.
  intros HM. unfold txHashes_of. destruct (_ <? _) eqn:Hlt.
  - rewrite length_take. lia.
  - lia.
Qed.

Lemma txsToRetrieve_after_nonempty (txsToRetrieve : list bytes) :
  txsToRetrieve <> [] -> txsToRetrieve_after txsToRetrieve <> [].
Proof.
  intros Hne. unfold txsToRetrieve_after. destruct (_ <? _) eqn:Hlt; [|done].
  apply Z.ltb_lt in Hlt. intros Hnil. apply (f_equal length) in Hnil.
  rewrite length_drop in Hnil. destruct txsToRetrieve; [done|].
  cbn [length] in *. lia.
Qed.

(** The [else] branch: a list that fits in one batch is left as it is. *)
Lemma txsToRetrieve_after_small (txsToRetrieve : list bytes) :
  Z.of_nat (length txsToRetrieve) <= MaxTransactionCountForRetrieving ->
  txHashes_of txsToRetrieve = txsToRetrieve /\
  txsToRetrieve_after txsToRetrieve = txsToRetrieve.
Proof.
  intros Hle. unfold txHashes_of, txsToRetrieve_after.
  destruct (_ <? _) eqn:Hlt; [lia|done].
Qed.

(** One iteration on a non-empty list. *)
Lemma retrieveTransactions_step (fuel : nat) (txsToRetrieve : list bytes)
    (sm : SyncManager) :
  txsToRetrieve <> [] ->
  let sm1 := snd (Call_GetMempoolTxs (txHashes_of txsToRetrieve) sm) in
  retrieveTransactions (S fuel) txsToRetrieve sm =
  match snd (rpc_GetMempoolTxs (net sm) (txHashes_of txsToRetrieve)) with
  | inl err => (Some (Some err), sm1)
  | inr reply =>
      match gmt_Error reply with
      | Some err => (Some (Some err), sm1)
      | None =>
          retrieveTransactions fuel (txsToRetrieve_after txsToRetrieve)
            (snd (storeTransactions (Transactions reply) sm1))
      end
  end.
Proof.
  intros Hne sm1. cbn [retrieveTransactions].
  destruct txsToRetrieve as [|x l]; [done|]. cbn [length Nat.eqb].
  unfold txHashes_of, txsToRetrieve_after in *. subst sm1.
  destruct (_ <? _); unfold bind at 1;
    rewrite !Call_GetMempoolTxs_run; cbn [fst snd];
    (destruct (snd (rpc_GetMempoolTxs (net sm) _)) as [err|reply]; [done|]);
    (destruct (gmt_Error reply); [done|]);
    unfold bind; by destruct (storeTransactions _ _).
Qed.

Lemma retrieveTransactions_requests (fuel : nat) :
  forall (txsToRetrieve : list bytes) (sm : SyncManager),
  0 <= MaxTransactionCountForRetrieving ->
  exists evs,
    trace (snd (retrieveTransactions fuel txsToRetrieve sm)) = trace sm ++ evs /\
    Forall (fun items => Z.of_nat (length items) <= MaxTransactionCountForRetrieving)
      (mempool_requests evs).
Proof.
  induction fuel as [|fuel IH]; intros txsToRetrieve sm HM.
  - exists []. rewrite app_nil_r. cbn. by destruct (_ =? _)%nat.
  - destruct txsToRetrieve as [|x l] eqn:Hl.
    { exists []. rewrite app_nil_r. done. }
    rewrite <- Hl. assert (Hne : txsToRetrieve <> []) by (by rewrite Hl).
    clear Hl. rewrite retrieveTransactions_step by done. cbv zeta.
    rewrite Call_GetMempoolTxs_run. cbn [snd].
    pose proof (txHashes_of_length txsToRetrieve HM) as Hlen.
    assert (Hone : Forall
              (fun items => Z.of_nat (length items) <= MaxTransactionCountForRetrieving)
              (mempool_requests [EvRPC (CallGetMempoolTxs (txHashes_of txsToRetrieve))]))
      by (cbn; by constructor).
    destruct (snd (rpc_GetMempoolTxs (net sm) _)) as [err|reply]; [by eexists [_]|].
    destruct (gmt_Error reply); [by eexists [_]|].
    match goal with |- context [storeTransactions ?txs ?s] =>
      destruct (emits_trace (fun ev => mempool_request ev = None)
                  (storeTransactions txs) s) as (evs1 & Htr1 & Hev1);
        [by apply emits_storeTransactions|];
      destruct (IH (txsToRetrieve_after txsToRetrieve) (snd (storeTransactions txs s)) HM)
        as (evs2 & Htr2 & Hev2)
    end.
    eexists (_ :: evs1 ++ evs2). split.
    + rewrite Htr2, Htr1. cbn [trace]. by rewrite <- !app_assoc.
    + unfold mempool_requests in *. cbn. constructor; [done|].
      by rewrite omap_app, (omap_none _ evs1), app_nil_l.
Qed.

Lemma doInitialMempoolSync_requests (fuel : nat) (sm : SyncManager) :
  0 <= MaxTransactionCountForRetrieving ->
  Forall (fun items => Z.of_nat (length items) <= MaxTransactionCountForRetrieving)
    (mempool_requests (new_events sm (snd (doInitialMempoolSync fuel sm)))).
Proof.
  intros HM. unfold doInitialMempoolSync, bind, gets.
  rewrite Call_Mempool_run. cbn [fst snd].
  destruct (snd (rpc_Mempool (net sm))) as [err|reply].
  - erewrite new_events_app; [|reflexivity]. cbn. constructor.
  - match goal with |- context [retrieveTransactions fuel ?txs ?s] =>
      destruct (retrieveTransactions_requests fuel txs s HM) as (evs & Htr & Hev)
    end.
    erewrite new_events_app; [|rewrite Htr; cbn [trace]; by rewrite <- app_assoc].
    done.
Qed.

(** The loop on a non-empty list, while the peer keeps answering: however
    much fuel it is given it has not returned, and it has issued one
    request per unit of fuel. *)
Lemma retrieveTransactions_diverges (fuel : nat) :
  forall (txsToRetrieve : list bytes) (sm : SyncManager),
  mempool_calls_succeed -> txsToRetrieve <> [] ->
  exists evs,
    trace (snd (retrieveTransactions fuel txsToRetrieve sm)) = trace sm ++ evs /\
    fst (retrieveTransactions fuel txsToRetrieve sm) = None /\
    length (mempool_requests evs) = fuel /\
    (Z.of_nat (length txsToRetrieve) <= MaxTransactionCountForRetrieving ->
     mempool_requests evs = replicate fuel txsToRetrieve).
Proof.
  induction fuel as [|fuel IH]; intros txsToRetrieve sm Hrpc Hne.
  - exists []. rewrite app_nil_r. destruct txsToRetrieve; done.
  - rewrite retrieveTransactions_step by done. cbv zeta.
    rewrite Call_GetMempoolTxs_run. cbn [snd].
    destruct (Hrpc (net sm) (txHashes_of txsToRetrieve)) as (reply & -> & ->).
    match goal with |- context [storeTransactions ?txs ?s] =>
      destruct (emits_trace (fun ev => mempool_request ev = None)
                  (storeTransactions txs) s) as (evs1 & Htr1 & Hev1);
        [by apply emits_storeTransactions|];
      destruct (IH (txsToRetrieve_after txsToRetrieve) (snd (storeTransactions txs s))
                  Hrpc (txsToRetrieve_after_nonempty _ Hne))
        as (evs2 & Htr2 & Hres & Hlen & Hsame)
    end.
    eexists (_ :: evs1 ++ evs2).
    assert (Hreq : mempool_requests
              (EvRPC (CallGetMempoolTxs (txHashes_of txsToRetrieve)) :: evs1 ++ evs2) =
              txHashes_of txsToRetrieve :: mempool_requests evs2).
    { unfold mempool_requests. cbn.
      by rewrite omap_app, (omap_none _ evs1), app_nil_l. }
    rewrite Hreq. split; [|split; [|split]].
    + rewrite Htr2, Htr1. cbn [trace]. by rewrite <- !app_assoc.
    + done.
    + cbn. by rewrite Hlen.
    + intros Hsmall. destruct (txsToRetrieve_after_small _ Hsmall) as [Hh Ha].
      rewrite Ha in Hsame. rewrite Hh, (Hsame Hsmall). done.
Qed.

(** C2, evaluated on the code.  On every non-empty list of missing
    hashes, with a peer that answers every [GetMempoolTxs] call without
    error, the batching loop does not terminate: for every amount of
    fuel it has not returned and has issued that many requests.  When the
    list fits in one batch, every one of these requests asks for the
    whole list again.  The specification expects the ceiling of
    [|to_fetch| / MaxTransactionCountForRetrieving] calls that request
    each hash once. *)
Theorem C2_mempool_loop_never_returns (fuel : nat) (txsToRetrieve : list bytes)
    (sm : SyncManager) :
  mempool_calls_succeed -> txsToRetrieve <> [] ->
  let r := retrieveTransactions fuel txsToRetrieve sm in
  let requests := mempool_requests (new_events sm (snd r)) in
  fst r = None /\
  length requests = fuel /\
  (Z.of_nat (length txsToRetrieve) <= MaxTransactionCountForRetrieving ->
   requests = replicate fuel txsToRetrieve) /\
  (0 < MaxTransactionCountForRetrieving ->
   (Z.to_nat (expected_calls (Z.of_nat (length txsToRetrieve))
                MaxTransactionCountForRetrieving) < fuel)%nat ->
   Z.of_nat (length requests) <>
   expected_calls (Z.of_nat (length txsToRetrieve)) MaxTransactionCountForRetrieving).
Proof.
  intros Hrpc Hne r requests.
  destruct (retrieveTransactions_diverges fuel txsToRetrieve sm Hrpc Hne)
    as (evs & Htr & Hres & Hlen & Hsame).
  apply new_events_app in Htr. fold r in Htr, Hres. subst requests. rewrite Htr.
  split; [done|]. split; [done|]. split; [done|].
  intros HM Hfuel. rewrite Hlen. unfold expected_calls in *.
  assert (0 <= (Z.of_nat (length txsToRetrieve) + MaxTransactionCountForRetrieving - 1)
               / MaxTransactionCountForRetrieving)
    by (apply Z.div_pos; lia).
  lia.
Qed.

(** C4.  Every [GetRangeOfBlocks{from, to}] request of the range loop
    covers at most [MaxBlockCountForRetrieving] heights, and every
    [GetMempoolTxs] request of the mempool loop carries at most
    [MaxTransactionCountForRetrieving] hashes. *)
Theorem C4_batch_bounds (fuel : nat) (local peer : Z) (txsToRetrieve : list bytes)
    (sm : SyncManager) :
  0 <= MaxBlockCountForRetrieving -> 0 <= MaxTransactionCountForRetrieving ->
  is_uint64 local -> is_uint64 peer ->
  (forall from to,
     (from, to) ∈ range_requests (new_events sm (snd (catchUp fuel local peer sm))) ->
     to - from + 1 <= MaxBlockCountForRetrieving) /\
  (forall items,
     items ∈ mempool_requests
               (new_events sm (snd (retrieveTransactions fuel txsToRetrieve sm))) ->
     Z.of_nat (length items) <= MaxTransactionCountForRetrieving) /\
  (forall items,
     items ∈ mempool_requests (new_events sm (snd (doInitialMempoolSync fuel sm))) ->
     Z.of_nat (length items) <= MaxTransactionCountForRetrieving).
Proof.
  intros HB HT Hl Hp. split; [|split].
  - by apply catchUp_batch_bound.
  - destruct (retrieveTransactions_requests fuel txsToRetrieve sm HT) as (evs & Htr & Hev).
    apply new_events_app in Htr. rewrite Htr. by apply Forall_forall.
  - apply Forall_forall. by apply doInitialMempoolSync_requests.
Qed.

End MempoolLoop.

(** ** The theorems at concrete inputs *)

Lemma is_uint64_0 : is_uint64 0.
Proof. unfold is_uint64, uint64_modulus. lia. Qed.

Lemma is_uint64_1500 : is_uint64 1500.
Proof. unfold is_uint64, uint64_modulus. lia. Qed.

Lemma Demo_mempool_calls_succeed : @mempool_calls_succeed Demo.E.
Proof. intros w items. eexists. split; reflexivity. Qed.

(** C2 at a single missing hash: five units of fuel, five requests for
    the same hash, and the loop has not returned. *)
Lemma C2_witness :
  fst (@retrieveTransactions Demo.E 5 [[x01]] (Demo.sm0 ∅ Demo.peer1)) = None /\
  mempool_requests
    (new_events (Demo.sm0 ∅ Demo.peer1)
       (snd (@retrieveTransactions Demo.E 5 [[x01]] (Demo.sm0 ∅ Demo.peer1))))
  = replicate 5 [[x01]] /\
  expected_calls 1 1000 = 1.
Proof.
  destruct (@C2_mempool_loop_never_returns Demo.E 5 [[x01]] (Demo.sm0 ∅ Demo.peer1)
              Demo_mempool_calls_succeed ltac:(discriminate))
    as (Hr & _ & Hsame & _).
  split; [exact Hr|]. split; [|reflexivity].
  apply Hsame. cbn. lia.
Defined.

(** C3 at local height 0 and peer height 1500, every call answered: the
    two requests [1, 1000] and [1001, 1500] cover [(0, 1500]] exactly. *)
Lemma C3_witness :
  0 < @MaxBlockCountForRetrieving Demo.E /\ 0 < 1500 /\
  range_requests
    (new_events (Demo.sm0 Demo.db_genesis Demo.peer1500)
       (snd (@catchUp Demo.E 10 0 1500 (Demo.sm0 Demo.db_genesis Demo.peer1500))))
  = [(1, 1000); (1001, 1500)] /\
  covers_exactly 0 1500
    (range_requests
       (new_events (Demo.sm0 Demo.db_genesis Demo.peer1500)
          (snd (@catchUp Demo.E 10 0 1500 (Demo.sm0 Demo.db_genesis Demo.peer1500))))).
Proof.
  assert (HM : 0 < @MaxBlockCountForRetrieving Demo.E) by (cbn; lia).
  destruct (@C3_range_requests_ascending Demo.E 10 0 1500
              (Demo.sm0 Demo.db_genesis Demo.peer1500)
              HM is_uint64_0 is_uint64_1500 ltac:(lia))
    as (_ & _ & _ & Hcov & _).
  split; [exact HM|]. split; [lia|]. split; [vm_compute; reflexivity|].
  apply Hcov. vm_compute. reflexivity.
Defined.

(** C4 at the same heights and at one missing hash. *)
Lemma C4_witness :
  0 <= @MaxBlockCountForRetrieving Demo.E /\
  0 <= @MaxTransactionCountForRetrieving Demo.E /\
  1000 - 1 + 1 <= @MaxBlockCountForRetrieving Demo.E /\
  Z.of_nat (length [[x01]]) <= @MaxTransactionCountForRetrieving Demo.E.
Proof.
  assert (HB : 0 <= @MaxBlockCountForRetrieving Demo.E) by (cbn; lia).
  assert (HT : 0 <= @MaxTransactionCountForRetrieving Demo.E) by (cbn; lia).
  destruct (@C4_batch_bounds Demo.E 10 0 1500 [[x01]]
              (Demo.sm0 Demo.db_genesis Demo.peer1500)
              HB HT is_uint64_0 is_uint64_1500)
    as (Hrange & Htxs & _).
  split; [exact HB|]. split; [exact HT|]. split.
  - apply Hrange. vm_compute. apply list_elem_of_here.
  - apply Htxs. vm_compute. apply list_elem_of_here.
Defined.

(** C8 with a pool whose latest-height lookup returns height 7 and a
    storage error: the procedure goes on as [syncWithPeer] from height 7
    and, the peer being at 1500, asks for the blocks from 8 on. *)
Lemma C8_witness :
  @GetLatestBlockHeight Demo.E_storage_failure Demo.db_genesis
    = (7, Some (ErrExternal "mdb_txn_begin: MDB_READERS_FULL")) /\
  @doInitialBlockPoolSync Demo.E_storage_failure 10 Demo.sm_storage_failure
    = @syncWithPeer Demo.E_storage_failure 10 7 Demo.sm_storage_failure /\
  fst (@doInitialBlockPoolSync Demo.E_storage_failure 10 Demo.sm_storage_failure)
    = Some None /\
  range_requests
    (trace (snd (@doInitialBlockPoolSync Demo.E_storage_failure 10
                   Demo.sm_storage_failure)))
    = [(8, 1007); (1008, 1500)].
Proof.
  destruct (@C8_latest_height_error_dropped Demo.E_storage_failure 10
              Demo.sm_storage_failure 7 (ErrExternal "mdb_txn_begin: MDB_READERS_FULL")
              eq_refl eq_refl ltac:(discriminate))
    as (Heq & _).
  split; [reflexivity|]. split; [exact Heq|].
  split; vm_compute; reflexivity.
Defined.

(** C9 at a freshly built manager. *)
Lemma C9_witness :
  @reachable Demo.E (Demo.sm0 ∅ Demo.peer1) /\
  @initialSyncCompleted Demo.E (Demo.sm0 ∅ Demo.peer1) = false /\
  @initialSyncCompleted Demo.E
    (snd (@Start Demo.E 3 (snd (@Start Demo.E 3 (Demo.sm0 ∅ Demo.peer1))))) = false.
Proof.
  assert (Hr : @reachable Demo.E (Demo.sm0 ∅ Demo.peer1)) by apply reachable_new.
  destruct (@C9_initialSyncCompleted_never_set Demo.E _ Hr) as (Hflag & _).
  destruct (@C9_initialSyncCompleted_never_set Demo.E _
              (reachable_Start 3 _ Hr)) as (_ & Hflag' & _).
  split; [exact Hr|]. split; [exact Hflag | apply Hflag'].
Defined.

(** C7 at the list of a block without last-hash proof followed by
    [block1], with the genesis block in the pool: the first call
    panics, [block1] is never passed to [processReceivedBlock], nothing
    is logged or stored, and the initial block-pool sync that receives
    this list from its peer does not return. *)
Lemma C7_witness :
  @nil_proof_panics Demo.E Demo.db_genesis Demo.block1_nil_proof /\
  fst (@processBlocks Demo.E [Demo.block1_nil_proof; Demo.block1]
         (Demo.sm0 Demo.db_genesis Demo.peer1)) = None /\
  new_events (Demo.sm0 Demo.db_genesis Demo.peer1)
    (snd (@processBlocks Demo.E [Demo.block1_nil_proof; Demo.block1]
            (Demo.sm0 Demo.db_genesis Demo.peer1)))
    = [EvProcessReceivedBlock Demo.block1_nil_proof;
       EvPanic "invalid memory address or nil pointer dereference"] /\
  fst (@doInitialBlockPoolSync Demo.E 10
         (Demo.sm0 Demo.db_genesis Demo.peer1_nil_proof)) = None /\
  processed_blocks
    (new_events (Demo.sm0 Demo.db_genesis Demo.peer1_nil_proof)
       (snd (@doInitialBlockPoolSync Demo.E 10
               (Demo.sm0 Demo.db_genesis Demo.peer1_nil_proof))))
    = [Demo.block1_nil_proof].
Proof.
  assert (Hnil : @nil_proof_panics Demo.E Demo.db_genesis Demo.block1_nil_proof).
  { split; [reflexivity|]. exists (Block.Header Demo.genesis).
    split; [vm_compute; reflexivity | reflexivity]. }
  destruct (@C7_block_failure_does_not_abort Demo.E [] [Demo.block1]
              Demo.block1_nil_proof (Demo.sm0 Demo.db_genesis Demo.peer1))
    as (_ & Hpanic & _).
  destruct (Hpanic eq_refl Hnil) as (Hres & Hevs & _).
  split; [exact Hnil|]. split; [exact Hres|]. split; [exact Hevs|].
  split; vm_compute; reflexivity.
Defined.



(** ** Scenarios of the specification, run on the code *)

(** Cold start with the peer at height 0: genesis stored, no range
    fetched, no error. *)
Example cold_start_peer_at_zero :
  let sm := Demo.sm0 ∅ (Demo.mkPeer 0 [] [] true) in
  let r := @doInitialBlockPoolSync Demo.E 10 sm in
  fst r = Some None /\
  new_events sm (snd r) = [EvStoreBlock Demo.genesis; EvRPC CallLastBlockHeight].
Proof. vm_compute. done. Qed.

(** Catch-up of 1500 blocks with batch cap 1000: exactly two range calls. *)
Example catch_up_1500 :
  let sm := Demo.sm0 Demo.db_genesis Demo.peer1500 in
  range_requests (new_events sm (snd (@doInitialBlockPoolSync Demo.E 10 sm)))
  = [(1, 1000); (1001, 1500)].
Proof. vm_compute. done. Qed.

(** A block whose transaction has an invalid hash is rejected and the
    pool is as before. *)
Example invalid_tx_hash_rejected :
  let sm := Demo.sm0 Demo.db_genesis Demo.peer1 in
  let r := @processReceivedBlock Demo.E Demo.block1_bad_tx sm in
  fst r = Some (Some (Errorf "transaction hash is invalid" [])) /\
  stored_blocks (new_events sm (snd r)) = [].
Proof. vm_compute. done. Qed.

(** A pool that holds a header of height [2^64 - 1] answers the
    predecessor lookup of a block of height 0; with the stand-in
    verifier of the small instance the block then passes every check. *)
Example height_zero_after_max_height :
  let sm := Demo.sm0 Demo.db_max Demo.peer1 in
  let r := @processReceivedBlock Demo.E Demo.block_zero sm in
  fst r = Some None /\ stored_blocks (new_events sm (snd r)) = [Demo.block_zero].
Proof. vm_compute. done. Qed.

(** ** Hex keys lose nothing *)

Lemma unhex_pair_hexchar (v : byte) :
  unhex_pair (hexchar (N.shiftr (Byte.to_N v) 4)) (hexchar (N.land (Byte.to_N v) 15))
  = Some v.
Proof. destruct v; reflexivity. Qed.

Lemma hex_decode_EncodeToString (src : bytes) :
  hex_decode (EncodeToString src) = Some src.
Proof.
  induction src as [|v rest IH]; [reflexivity|].
  cbn [EncodeToString hex_decode]. by rewrite unhex_pair_hexchar, IH.
Qed.

Lemma EncodeToString_inj (a b : bytes) :
  EncodeToString a = EncodeToString b -> a = b.
Proof.
  intros Heq. apply (f_equal hex_decode) in Heq.
  rewrite !hex_decode_EncodeToString in Heq. congruence.
Qed.

Lemma block_prefix_inj (h h' : string) :
  DefaultBlockPrefix +:+ h = DefaultBlockPrefix +:+ h' -> h = h'.
Proof. unfold DefaultBlockPrefix. cbn. intros Heq. by simplify_eq. Qed.

Lemma header_prefix_inj (h h' : string) :
  DefaultBlockHeaderPrefix +:+ h = DefaultBlockHeaderPrefix +:+ h' -> h = h'.
Proof. unfold DefaultBlockHeaderPrefix. cbn. intros Heq. by simplify_eq. Qed.

(** ** The pool: what is read after what was written *)

Section PoolReadFacts.
Context `{E : Externals} `{R : PoolReads}.

Lemma StoreBlock_other_keys (db : DB) (block : Block.t) (key : string) :
  key <> DefaultBlockPrefix +:+ EncodeToString (BlockHeader.Hash (Block.Header block)) ->
  key <> DefaultBlockHeaderPrefix +:+ EncodeToString (BlockHeader.Hash (Block.Header block)) ->
  fst (StoreBlock db block) !! key = db !! key.
Proof.
  intros Hk1 Hk2. destruct (StoreBlock db block) as [db' [err|]] eqn:Hs; cbn.
  - by rewrite (StoreBlock_error_unchanged _ _ _ _ Hs).
  - destruct (StoreBlock_committed _ _ _ Hs) as (data & hd & _ & _ & ->).
    by rewrite !lookup_insert_ne.
Qed.

Lemma HasBlock_healthy (env : EnvState) (db : DB) (h : string) :
  reads_ok env ->
  HasBlock env db h =
  (match db !! (DefaultBlockPrefix +:+ h) with Some _ => true | None => false end, None).
Proof.
  intros Hok. destruct (Hok db) as [Hv Hg].
  unfold HasBlock, env_View, txn_Get. rewrite Hv, Hg.
  by destruct (db !! _).
Qed.

Lemma FetchBlock_healthy (env : EnvState) (db : DB) (h : string) :
  reads_ok env ->
  FetchBlock env db h =
  match db !! (DefaultBlockPrefix +:+ h) with
  | Some data => cbor_Unmarshal_block data
  | None => inl ErrBlockNotFound
  end.
Proof.
  intros Hok. destruct (Hok db) as [Hv Hg].
  unfold FetchBlock, env_View, txn_Get. rewrite Hv, Hg.
  by destruct (db !! _).
Qed.

Lemma FetchBlockHeader_healthy (env : EnvState) (db : DB) (h : string) :
  reads_ok env ->
  FetchBlockHeader env db h =
  match db !! (DefaultBlockHeaderPrefix +:+ h) with
  | Some data => cbor_Unmarshal_header data
  | None => inl ErrBlockNotFound
  end.
Proof.
  intros Hok. destruct (Hok db) as [Hv Hg].
  unfold FetchBlockHeader, env_View, txn_Get. rewrite Hv, Hg.
  by destruct (db !! _).
Qed.

(** X1.  After a [StoreBlock] that returned no error, reads made in a
    state of the lmdb environment in which reads do not fail find the
    block: [HasBlock] on the hex of the block's hash answers true
    without error, and [FetchBlock] and [FetchBlockHeader] on it no
    longer answer [ErrBlockNotFound]: each returns what [cbor.Unmarshal]
    makes of the bytes that [cbor.Marshal] produced for the block and for
    its header. *)
Theorem X1_stored_block_is_found (env : EnvState) (db db' : DB) (block : Block.t) :
  reads_ok env ->
  StoreBlock db block = (db', None) ->
  let h := EncodeToString (BlockHeader.Hash (Block.Header block)) in
  HasBlock env db' h = (true, None) /\
  exists data headerData,
    cbor_Marshal_block block = inr data /\
    cbor_Marshal_header (Block.Header block) = inr headerData /\
    FetchBlock env db' h = cbor_Unmarshal_block data /\
    FetchBlockHeader env db' h = cbor_Unmarshal_header headerData.
Proof.
  intros Hok Hs h. subst h.
  destruct (StoreBlock_committed _ _ _ Hs) as (data & hd & Hb & Hh & ->).
  rewrite HasBlock_healthy, FetchBlock_healthy, FetchBlockHeader_healthy by done.
  rewrite lookup_insert_eq.
  rewrite lookup_insert_ne by (apply not_eq_sym, block_key_ne_header_key).
  rewrite lookup_insert_eq. split; [done|]. by exists data, hd.
Qed.

(** X2.  Round trip.  When [cbor.Unmarshal] inverts [cbor.Marshal] on a
    block and on its header, a [StoreBlock] that returned no error
    followed by [FetchBlock] and [FetchBlockHeader] on the hex of the
    hash, in a state of the environment in which reads do not fail,
    gives back the block and its header. *)
Theorem X2_store_fetch_roundtrip (env : EnvState) (db db' : DB) (block : Block.t) :
  reads_ok env ->
  StoreBlock db block = (db', None) ->
  (forall data, cbor_Marshal_block block = inr data ->
     cbor_Unmarshal_block data = inr block) ->
  (forall data, cbor_Marshal_header (Block.Header block) = inr data ->
     cbor_Unmarshal_header data = inr (Block.Header block)) ->
  let h := EncodeToString (BlockHeader.Hash (Block.Header block)) in
  FetchBlock env db' h = inr block /\
  FetchBlockHeader env db' h = inr (Block.Header block).
Proof.
  intros Hok Hs Hrb Hrh h. subst h.
  destruct (StoreBlock_committed _ _ _ Hs) as (data & hd & Hb & Hh & ->).
  rewrite FetchBlock_healthy, FetchBlockHeader_healthy by done.
  rewrite lookup_insert_eq.
  rewrite lookup_insert_ne by (apply not_eq_sym, block_key_ne_header_key).
  rewrite lookup_insert_eq. split; [by apply Hrb | by apply Hrh].
Qed.

(** X3.  [HasBlock] and [FetchBlock] agree on what the pool holds, each
    call meeting its own state of the lmdb environment, where the reads
    of one may fail and those of the other not.  [HasBlock] answers
    [(false, nil)] only for a key that is absent, and [FetchBlock] then
    never returns a block: it fails, with [ErrBlockNotFound] unless its
    own read fails.  When [FetchBlock] returns a block the key is there,
    and [HasBlock] answers [(true, nil)] unless its own read fails.
    [HasBlock] returns an error only when its read failed, with that
    error and the answer false; a missing key is never an error of
    [HasBlock]. *)
Theorem X3_HasBlock_FetchBlock_agree (env1 env2 : EnvState) (db : DB) (h : string) :
  let key := DefaultBlockPrefix +:+ h in
  let read_fails env err :=
    lmdb_view_error env db = Some err \/
    (lmdb_view_error env db = None /\ lmdb_get_error env db key = Some err) in
  (HasBlock env1 db h = (false, None) ->
     db !! key = None /\
     (FetchBlock env2 db h = inl ErrBlockNotFound \/
      exists err, read_fails env2 err /\ FetchBlock env2 db h = inl err)) /\
  (forall b, FetchBlock env2 db h = inr b ->
     is_Some (db !! key) /\
     (HasBlock env1 db h = (true, None) \/
      exists err, read_fails env1 err /\ HasBlock env1 db h = (false, Some err))) /\
  (forall err, snd (HasBlock env1 db h) = Some err ->
     fst (HasBlock env1 db h) = false /\ read_fails env1 err) /\
  (lmdb_view_error env1 db = None -> lmdb_get_error env1 db key = None ->
   HasBlock env1 db h =
     (match db !! key with Some _ => true | None => false end, None)).
Proof.
  intros key read_fails. subst key read_fails. cbv beta.
  unfold HasBlock, FetchBlock, env_View, txn_Get.
  destruct (lmdb_view_error env1 db) as [e1|] eqn:Hv1;
    destruct (lmdb_view_error env2 db) as [e2|] eqn:Hv2;
    destruct (lmdb_get_error env1 db _) as [g1|] eqn:Hg1;
    destruct (lmdb_get_error env2 db _) as [g2|] eqn:Hg2;
    destruct (db !! _) as [data|] eqn:Hdb; cbn;
    split_and!; intros; cbn in *; simplify_eq;
    try done; try (split; [done|]); try (by eexists); eauto 10.
Qed.

(** X4.  In every pool that [StoreBlock] calls build from the empty
    database, whatever their outcomes, the entries of each hash string go
    in pairs: either there is neither a block entry nor a header entry,
    or both are there and they are the encodings of one block whose
    header hash is that string and of that block's header; and the pool
    holds no other key. *)
Theorem X4_pool_entries_paired (db : DB) :
  pool_built db ->
  (forall h, entries_paired db h) /\
  (forall key, is_Some (db !! key) ->
     exists h, key = DefaultBlockPrefix +:+ h \/ key = DefaultBlockHeaderPrefix +:+ h).
Proof.
  induction 1 as [|db block _ [IH1 IH2]].
  - split; [by left | intros key [v Hv]; by rewrite lookup_empty in Hv].
  - destruct (StoreBlock db block) as [db' [err|]] eqn:Hs; cbn [fst].
    { by rewrite (StoreBlock_error_unchanged _ _ _ _ Hs). }
    destruct (StoreBlock_committed _ _ _ Hs) as (data & hd & Hb & Hh & ->).
    set (hx := EncodeToString (BlockHeader.Hash (Block.Header block))).
    split.
    + intros h. destruct (decide (h = hx)) as [->|Hne].
      * right. exists block, data, hd. split_and!; try done.
        -- rewrite lookup_insert_ne by (apply not_eq_sym, block_key_ne_header_key).
           by rewrite lookup_insert_eq.
        -- by rewrite lookup_insert_eq.
      * assert (Hk1 : DefaultBlockPrefix +:+ hx <> DefaultBlockPrefix +:+ h)
          by (intros Heq; by apply block_prefix_inj in Heq).
        assert (Hk2 : DefaultBlockHeaderPrefix +:+ hx <> DefaultBlockHeaderPrefix +:+ h)
          by (intros Heq; by apply header_prefix_inj in Heq).
        pose proof (block_key_ne_header_key h hx) as Hk3.
        pose proof (block_key_ne_header_key hx h) as Hk4.
        unfold entries_paired.
        rewrite (lookup_insert_ne _ (DefaultBlockHeaderPrefix +:+ hx)
                   (DefaultBlockPrefix +:+ h)) by done.
        rewrite (lookup_insert_ne _ (DefaultBlockPrefix +:+ hx)
                   (DefaultBlockPrefix +:+ h)) by done.
        rewrite (lookup_insert_ne _ (DefaultBlockHeaderPrefix +:+ hx)
                   (DefaultBlockHeaderPrefix +:+ h)) by done.
        rewrite (lookup_insert_ne _ (DefaultBlockPrefix +:+ hx)
                   (DefaultBlockHeaderPrefix +:+ h)) by done.
        apply IH1.
    + intros key Hkey.
      destruct (decide (key = DefaultBlockHeaderPrefix +:+ hx)) as [->|Hn1]; [by eauto|].
      destruct (decide (key = DefaultBlockPrefix +:+ hx)) as [->|Hn2]; [by eauto|].
      rewrite !lookup_insert_ne in Hkey by done. by apply IH2.
Qed.

(** X5.  Keys are unique by hash: storing a block, whatever the outcome,
    leaves what the pool answers for a different hash as it was, for
    [HasBlock], [FetchBlock] and [FetchBlockHeader] alike, the reads
    before and after being made in states of the environment in which
    reads do not fail. *)
Theorem X5_other_hash_untouched (env env' : EnvState) (db : DB) (block : Block.t)
    (hash : bytes) :
  reads_ok env -> reads_ok env' ->
  hash <> BlockHeader.Hash (Block.Header block) ->
  let db' := fst (StoreBlock db block) in
  let h := EncodeToString hash in
  HasBlock env' db' h = HasBlock env db h /\
  FetchBlock env' db' h = FetchBlock env db h /\
  FetchBlockHeader env' db' h = FetchBlockHeader env db h.
Proof.
  intros Hok Hok' Hne db' h. subst db' h.
  assert (Hhex : EncodeToString hash
                 <> EncodeToString (BlockHeader.Hash (Block.Header block)))
    by (intros Heq; by apply EncodeToString_inj in Heq).
  rewrite !HasBlock_healthy, !FetchBlock_healthy, !FetchBlockHeader_healthy by done.
  rewrite !StoreBlock_other_keys; first done.
  all: intros Heq;
    first [ by apply block_key_ne_header_key in Heq
          | by (symmetry in Heq; apply block_key_ne_header_key in Heq)
          | by (apply block_prefix_inj in Heq)
          | by (apply header_prefix_inj in Heq) ].
Qed.

(** X21.  Storing a block that the pool already holds changes nothing:
    after a [StoreBlock] that returned no error, a second [StoreBlock]
    of the same block leaves the pool as the first one left it, whether
    the second one commits or fails. *)
Theorem X21_StoreBlock_twice_is_once (db db' : DB) (block : Block.t) :
  StoreBlock db block = (db', None) ->
  fst (StoreBlock db' block) = db'.
Proof.
  intros Hs. destruct (StoreBlock db' block) as [db'' [err|]] eqn:Hs2; cbn [fst].
  - by rewrite (StoreBlock_error_unchanged _ _ _ _ Hs2).
  - destruct (StoreBlock_committed _ _ _ Hs) as (data & hd & Hb & Hh & ->).
    destruct (StoreBlock_committed _ _ _ Hs2) as (data2 & hd2 & Hb2 & Hh2 & ->).
    rewrite Hb in Hb2. rewrite Hh in Hh2. simplify_eq.
    set (bk := DefaultBlockPrefix +:+
                 EncodeToString (BlockHeader.Hash (Block.Header block))).
    set (hk := DefaultBlockHeaderPrefix +:+
                 EncodeToString (BlockHeader.Hash (Block.Header block))).
    apply map_eq. intros k.
    destruct (decide (hk = k)) as [<-|Hk1]; [by rewrite !lookup_insert_eq|].
    rewrite (lookup_insert_ne (<[bk:=data2]> (<[hk:=hd2]> (<[bk:=data2]> db))) hk k)
      by done.
    rewrite (lookup_insert_ne (<[bk:=data2]> db) hk k) by done.
    destruct (decide (bk = k)) as [<-|Hk2]; [by rewrite !lookup_insert_eq|].
    rewrite (lookup_insert_ne (<[hk:=hd2]> (<[bk:=data2]> db)) bk k) by done.
    by rewrite (lookup_insert_ne (<[bk:=data2]> db) hk k) by done.
Qed.

End PoolReadFacts.

(** ** Which parts of the state each procedure leaves alone *)

Section KeepsFacts.
Context `{E : Externals}.

Lemma keeps_bind {A B C} (f : SyncManager -> C) (m : M A) (k : A -> M B) :
  keeps f m -> (forall a, keeps f (k a)) -> keeps f (bind m k).
Proof.
  intros Hm Hk sm. unfold bind. specialize (Hm sm).
  destruct (m sm) as [a sm1]. cbn [snd] in Hm. by rewrite Hk.
Qed.

End KeepsFacts.

Ltac keeps_step :=
  lazymatch goal with
  | |- keeps _ (bind _ _) => apply keeps_bind; [|intros ?]
  | |- keeps _ (match ?x with _ => _ end) => destruct x
  | |- keeps _ _ => by intros ?
  end.

Ltac solve_keeps := repeat keeps_step.

Section Frames.
Context `{E : Externals}.

Lemma keeps_mempool_blockpool_StoreBlock (block : Block.t) :
  keeps mempool (blockpool_StoreBlock block).
Proof. unfold blockpool_StoreBlock. solve_keeps. Qed.

Lemma keeps_mempool_processReceivedBlock (block : Block.t) :
  keeps mempool (processReceivedBlock block).
Proof.
  unfold processReceivedBlock. solve_keeps.
  apply keeps_mempool_blockpool_StoreBlock.
Qed.

Lemma keeps_mempool_processBlocks (receivedBlocks : list Block.t) :
  keeps mempool (processBlocks receivedBlocks).
Proof.
  induction receivedBlocks as [|b rest IH]; cbn [processBlocks]; [solve_keeps|].
  apply keeps_bind; [apply keeps_mempool_processReceivedBlock|].
  intros [[err|]|]; [|done|solve_keeps].
  apply keeps_bind; [solve_keeps | by intros _].
Qed.

Lemma keeps_mempool_Call_GetRangeOfBlocks (from to : Z) :
  keeps mempool (Call_GetRangeOfBlocks from to).
Proof. unfold Call_GetRangeOfBlocks. solve_keeps. Qed.

Lemma keeps_mempool_fetchBlocks (fuel : nat) (heightCount to : Z)
    (receivedBlocks : list Block.t) :
  keeps mempool (fetchBlocks fuel heightCount to receivedBlocks).
Proof.
  revert heightCount to receivedBlocks.
  induction fuel as [|fuel IH]; intros heightCount to receivedBlocks; cbn [fetchBlocks].
  - destruct (negb _); solve_keeps.
  - destruct (negb _); [solve_keeps|].
    apply keeps_bind; [apply keeps_mempool_Call_GetRangeOfBlocks|].
    intros [err|reply]; [solve_keeps|].
    apply keeps_bind; [destruct (negb _); solve_keeps|]. intros _. apply IH.
Qed.

Lemma keeps_mempool_doInitialBlockPoolSync (fuel : nat) :
  keeps mempool (doInitialBlockPoolSync fuel).
Proof.
  unfold doInitialBlockPoolSync.
  apply keeps_bind; [solve_keeps|]. intros [|]; [solve_keeps|].
  apply keeps_bind; [solve_keeps|]. intros db.
  destruct (GetLatestBlockHeight db) as [h err].
  apply keeps_bind.
  { destruct (is_ErrLatestHeightNil err);
      [apply keeps_mempool_blockpool_StoreBlock | solve_keeps]. }
  intros [e|]; [solve_keeps|]. unfold syncWithPeer.
  apply keeps_bind; [unfold Call_LastBlockHeight; solve_keeps|].
  intros [e|reply]; [solve_keeps|]. destruct (lbh_Error reply); [solve_keeps|].
  unfold catchUp. destruct (_ <? _); [|solve_keeps].
  apply keeps_bind; [apply keeps_mempool_fetchBlocks|].
  intros [[e|blocks]|]; [solve_keeps| |solve_keeps].
  apply keeps_bind; [apply keeps_mempool_processBlocks | intros [[]|]; solve_keeps].
Qed.

Lemma keeps_blockpool_mempool_StoreTx_call (tx : Transaction.t) :
  keeps blockpool (mempool_StoreTx_call tx).
Proof. unfold mempool_StoreTx_call. solve_keeps. Qed.

Lemma keeps_net_mempool_StoreTx_call (tx : Transaction.t) :
  keeps net (mempool_StoreTx_call tx).
Proof. unfold mempool_StoreTx_call. solve_keeps. Qed.

Lemma keeps_blockpool_storeTransactions (txs : list Transaction.t) :
  keeps blockpool (storeTransactions txs).
Proof.
  induction txs as [|tx rest IH]; cbn [storeTransactions]; [solve_keeps|].
  apply keeps_bind; [apply keeps_blockpool_mempool_StoreTx_call|].
  intros [err|]; [|done]. apply keeps_bind; [solve_keeps | by intros _].
Qed.

Lemma keeps_blockpool_Call_GetMempoolTxs (items : list bytes) :
  keeps blockpool (Call_GetMempoolTxs items).
Proof. unfold Call_GetMempoolTxs. solve_keeps. Qed.

Lemma keeps_blockpool_retrieveTransactions (fuel : nat) (txsToRetrieve : list bytes) :
  keeps blockpool (retrieveTransactions fuel txsToRetrieve).
Proof.
  revert txsToRetrieve.
  induction fuel as [|fuel IH]; intros txsToRetrieve; cbn [retrieveTransactions].
  - destruct (_ =? _)%nat; solve_keeps.
  - destruct (_ =? _)%nat; [solve_keeps|].
    destruct (_ <? _);
      (apply keeps_bind; [apply keeps_blockpool_Call_GetMempoolTxs|]);
      (intros [err|reply]; [solve_keeps|]);
      (destruct (gmt_Error reply); [solve_keeps|]);
      (apply keeps_bind; [apply keeps_blockpool_storeTransactions|]);
      intros _; apply IH.
Qed.

Lemma keeps_blockpool_doInitialMempoolSync (fuel : nat) :
  keeps blockpool (doInitialMempoolSync fuel).
Proof.
  unfold doInitialMempoolSync.
  apply keeps_bind; [unfold Call_Mempool; solve_keeps|].
  intros [err|reply]; [solve_keeps|].
  apply keeps_bind; [solve_keeps|]. intros mp.
  apply keeps_blockpool_retrieveTransactions.
Qed.

Lemma keeps_blockpool_onNewTransaction (message : GenericMessage) :
  keeps blockpool (onNewTransaction message).
Proof.
  unfold onNewTransaction. destruct (Payload_of message); [|solve_keeps].
  destruct (negb _); [solve_keeps|].
  apply keeps_bind; [apply keeps_blockpool_mempool_StoreTx_call|].
  intros [err|]; solve_keeps.
Qed.

Lemma keeps_net_onNewTransaction (message : GenericMessage) :
  keeps net (onNewTransaction message).
Proof.
  unfold onNewTransaction. destruct (Payload_of message); [|solve_keeps].
  destruct (negb _); [solve_keeps|].
  apply keeps_bind; [apply keeps_net_mempool_StoreTx_call|].
  intros [err|]; solve_keeps.
Qed.

Lemma emits_handler_side (message : GenericMessage) :
  emits handler_side (onNewTransaction message).
Proof.
  unfold onNewTransaction. destruct (Payload_of message); [|solve_emits].
  destruct (negb _); [solve_emits|].
  apply emits_bind; [by apply emits_mempool_StoreTx_call|].
  intros [err|]; solve_emits.
Qed.

Lemma emits_block_side (fuel : nat) : emits block_side (doInitialBlockPoolSync fuel).
Proof.
  unfold doInitialBlockPoolSync.
  apply emits_bind; [solve_emits|]. intros [|]; [solve_emits|].
  apply emits_bind; [solve_emits|]. intros db.
  destruct (GetLatestBlockHeight db) as [h err].
  apply emits_bind.
  - destruct (is_ErrLatestHeightNil err); [by apply emits_blockpool_StoreBlock|solve_emits].
  - intros [e|]; [solve_emits|]. unfold syncWithPeer.
    apply emits_bind; [by apply emits_Call_LastBlockHeight|].
    intros [e|reply]; [solve_emits|]. destruct (lbh_Error reply); [solve_emits|].
    by apply emits_catchUp.
Qed.

Lemma emits_mempool_side (fuel : nat) : emits mempool_side (doInitialMempoolSync fuel).
Proof.
  unfold doInitialMempoolSync.
  apply emits_bind; [by apply emits_Call_Mempool|].
  intros [err|reply]; [solve_emits|].
  apply emits_bind; [solve_emits|]. intros mp.
  by apply emits_retrieveTransactions.
Qed.

(** X6.  The three procedures keep to their side of the node.  The
    initial block-pool sync never changes the mempool and issues no
    [Mempool] or [GetMempoolTxs] call and no [StoreTx]; the initial
    mempool sync never changes the block pool, stores no block and issues
    no [LastBlockHeight] or [GetRangeOfBlocks] call; the gossip handler
    changes neither the block pool nor the state of the peer and issues
    no RPC call at all. *)
Theorem X6_procedures_keep_to_their_side (fuel : nat) (message : GenericMessage)
    (sm : SyncManager) :
  (mempool (snd (doInitialBlockPoolSync fuel sm)) = mempool sm /\
   Forall block_side (new_events sm (snd (doInitialBlockPoolSync fuel sm)))) /\
  (blockpool (snd (doInitialMempoolSync fuel sm)) = blockpool sm /\
   Forall mempool_side (new_events sm (snd (doInitialMempoolSync fuel sm)))) /\
  (blockpool (snd (onNewTransaction message sm)) = blockpool sm /\
   net (snd (onNewTransaction message sm)) = net sm /\
   Forall handler_side (new_events sm (snd (onNewTransaction message sm)))).
Proof.
  split_and!.
  - apply keeps_mempool_doInitialBlockPoolSync.
  - destruct (emits_trace block_side (doInitialBlockPoolSync fuel) sm) as (evs & Htr & Hev);
      [apply emits_block_side|].
    by rewrite (new_events_app _ _ _ Htr).
  - apply keeps_blockpool_doInitialMempoolSync.
  - destruct (emits_trace mempool_side (doInitialMempoolSync fuel) sm) as (evs & Htr & Hev);
      [apply emits_mempool_side|].
    by rewrite (new_events_app _ _ _ Htr).
  - apply keeps_blockpool_onNewTransaction.
  - apply keeps_net_onNewTransaction.
  - destruct (emits_trace handler_side (onNewTransaction message) sm) as (evs & Htr & Hev);
      [apply emits_handler_side|].
    by rewrite (new_events_app _ _ _ Htr).
Qed.

End Frames.

(** ** The mempool side of the initial sync *)

Section MempoolExtras.
Context `{E : Externals}.

Lemma storeTransactions_cons (v : Transaction.t) (rest : list Transaction.t)
    (sm : SyncManager) :
  storeTransactions (v :: rest) sm = storeTransactions rest (after_tx v sm).
Proof.
  cbn [storeTransactions]. unfold after_tx, bind.
  by destruct (mempool_StoreTx_call v sm) as [[err|] sm1].
Qed.

Lemma after_tx_run (v : Transaction.t) (sm : SyncManager) :
  mempool (after_tx v sm) = fst (mempool_StoreTx (mempool sm) v) /\
  trace (after_tx v sm) =
    trace sm ++ EvStoreTx v ::
      match snd (mempool_StoreTx (mempool sm) v) with
      | Some err => [EvLog (LogWarnfText err)]
      | None => []
      end.
Proof.
  unfold after_tx. rewrite mempool_StoreTx_call_run.
  destruct (snd (mempool_StoreTx (mempool sm) v)); cbn; split; try done.
  by rewrite <- app_assoc.
Qed.

Lemma storeTransactions_run (txs : list Transaction.t) :
  forall sm : SyncManager,
  exists evs,
    trace (snd (storeTransactions txs sm)) = trace sm ++ evs /\
    stored_txs evs = txs /\
    log_lines evs = map LogWarnfText (store_failures (mempool sm) txs) /\
    mempool (snd (storeTransactions txs sm)) = mempool_after (mempool sm) txs.
Proof.
  induction txs as [|v rest IH]; intros sm.
  - exists []. by rewrite app_nil_r.
  - rewrite storeTransactions_cons.
    destruct (after_tx_run v sm) as [Hmp Htr].
    destruct (IH (after_tx v sm)) as (evs & Htr' & Hst & Hlog & Hmp').
    rewrite Hmp in Hlog, Hmp'. cbn [store_failures mempool_after foldl].
    unfold stored_txs, log_lines in *.
    destruct (snd (mempool_StoreTx (mempool sm) v)) as [err|].
    + exists (EvStoreTx v :: EvLog (LogWarnfText err) :: evs). split_and!.
      * rewrite Htr', Htr. by rewrite <- app_assoc.
      * cbn. by rewrite Hst.
      * cbn. by rewrite Hlog.
      * done.
    + exists (EvStoreTx v :: evs). split_and!.
      * rewrite Htr', Htr. by rewrite <- app_assoc.
      * cbn. by rewrite Hst.
      * cbn. by rewrite Hlog.
      * done.
Qed.

(** X7.  The loop over the transactions of a [GetMempoolTxs] reply hands
    every one of them to [StoreTx], in the order of the reply and without
    any check of its hash; the mempool it leaves is the one these calls
    build one after the other, and the lines it logs are the errors of
    the calls that failed, in order.  A failed [StoreTx] stops nothing. *)
Theorem X7_storeTransactions_stores_all (txs : list Transaction.t) (sm : SyncManager) :
  let sm' := snd (storeTransactions txs sm) in
  let evs := new_events sm sm' in
  stored_txs evs = txs /\
  mempool sm' = mempool_after (mempool sm) txs /\
  log_lines evs = map LogWarnfText (store_failures (mempool sm) txs).
Proof.
  cbv zeta. destruct (storeTransactions_run txs sm) as (evs & Htr & Hst & Hlog & Hmp).
  by rewrite (new_events_app _ _ _ Htr).
Qed.

Lemma missingTransactions_filter (mp : MempoolT) (inventory : list InvItem) :
  forall txsToRetrieve : list bytes,
  missingTransactions mp inventory txsToRetrieve =
  txsToRetrieve ++ map inv_Hash (List.filter (unknown_to mp) inventory).
Proof.
  induction inventory as [|v rest IH]; intros txsToRetrieve; cbn [missingTransactions].
  - by rewrite app_nil_r.
  - rewrite IH. cbn [List.filter]. unfold unknown_to at 2.
    destruct (mempool_GetTransaction mp (inv_Hash v)) as [err|tx]; [|done].
    destruct (errors_Is_ErrTxNotFound (Some err)); [|done].
    cbn. by rewrite <- app_assoc.
Qed.

Lemma txHashes_of_subseteq (txs : list bytes) : txHashes_of txs ⊆ txs.
Proof. unfold txHashes_of. destruct (_ <? _); [apply subseteq_take|done]. Qed.

Lemma txsToRetrieve_after_subseteq (txs : list bytes) : txsToRetrieve_after txs ⊆ txs.
Proof. unfold txsToRetrieve_after. destruct (_ <? _); [apply subseteq_drop|done]. Qed.

Lemma retrieveTransactions_asks_listed (fuel : nat) :
  forall (txsToRetrieve : list bytes) (sm : SyncManager),
  exists evs,
    trace (snd (retrieveTransactions fuel txsToRetrieve sm)) = trace sm ++ evs /\
    Forall (fun items => items ⊆ txsToRetrieve) (mempool_requests evs).
Proof.
  induction fuel as [|fuel IH]; intros txsToRetrieve sm.
  - exists []. rewrite app_nil_r. cbn. by destruct (_ =? _)%nat.
  - destruct txsToRetrieve as [|x l] eqn:Hl.
    { exists []. rewrite app_nil_r. done. }
    rewrite <- Hl. assert (Hne : txsToRetrieve <> []) by (by rewrite Hl).
    clear Hl. rewrite retrieveTransactions_step by done. cbv zeta.
    rewrite Call_GetMempoolTxs_run. cbn [snd].
    assert (Hone : Forall (fun items => items ⊆ txsToRetrieve)
              (mempool_requests [EvRPC (CallGetMempoolTxs (txHashes_of txsToRetrieve))]))
      by (cbn; constructor; [apply txHashes_of_subseteq|constructor]).
    destruct (snd (rpc_GetMempoolTxs (net sm) _)) as [err|reply]; [by eexists [_]|].
    destruct (gmt_Error reply); [by eexists [_]|].
    match goal with |- context [storeTransactions ?txs ?s] =>
      destruct (emits_trace (fun ev => mempool_request ev = None)
                  (storeTransactions txs) s) as (evs1 & Htr1 & Hev1);
        [by apply emits_storeTransactions|];
      destruct (IH (txsToRetrieve_after txsToRetrieve) (snd (storeTransactions txs s)))
        as (evs2 & Htr2 & Hev2)
    end.
    eexists (_ :: evs1 ++ evs2). split.
    + rewrite Htr2, Htr1. cbn [trace]. by rewrite <- !app_assoc.
    + unfold mempool_requests in *. cbn. constructor; [apply txHashes_of_subseteq|].
      rewrite omap_app, (omap_none _ evs1), app_nil_l by done.
      eapply Forall_impl; [exact Hev2|]. intros items Hsub. cbn in Hsub.
      etrans; [exact Hsub|apply txsToRetrieve_after_subseteq].
Qed.

(** X8.  The initial mempool sync asks the peer only for what it lacks:
    every hash of every [GetMempoolTxs] request is the hash of an item of
    the inventory the peer sent, for which the local mempool's
    [GetTransaction] returned an error that [errors.Is] takes for
    [ErrTxNotFound]: the sentinel or an error that wraps it.  A hash the
    mempool knows, or one whose lookup fails with another error, is
    never requested. *)
Theorem X8_requests_only_unknown_inventory (fuel : nat) (sm : SyncManager)
    (items : list bytes) (h : bytes) :
  items ∈ mempool_requests (new_events sm (snd (doInitialMempoolSync fuel sm))) ->
  h ∈ items ->
  exists reply v err,
    snd (rpc_Mempool (net sm)) = inr reply /\
    v ∈ Inventory reply /\ inv_Hash v = h /\
    mempool_GetTransaction (mempool sm) h = inl err /\
    errors_Is_ErrTxNotFound (Some err) = true.
Proof.
  unfold doInitialMempoolSync, bind, gets.
  rewrite Call_Mempool_run. cbn [fst snd mempool].
  destruct (snd (rpc_Mempool (net sm))) as [err|reply].
  - erewrite new_events_app; [|reflexivity]. cbn. intros Hin. by apply elem_of_nil in Hin.
  - match goal with |- context [retrieveTransactions fuel ?txs ?s] =>
      destruct (retrieveTransactions_asks_listed fuel txs s) as (evs & Htr & Hev)
    end.
    erewrite new_events_app; [|rewrite Htr; cbn [trace]; by rewrite <- app_assoc].
    intros Hin Hh.
    assert (Hreq : mempool_requests (EvRPC CallMempool :: evs) = mempool_requests evs)
      by done.
    cbn [app] in Hin. rewrite Hreq in Hin.
    rewrite Forall_forall in Hev. specialize (Hev items Hin h Hh).
    rewrite missingTransactions_filter, app_nil_l in Hev.
    apply list_elem_of_fmap in Hev as (v & -> & Hv).
    apply list_elem_of_In, filter_In in Hv as [Hv Hunk].
    unfold unknown_to in Hunk. cbn [mempool] in Hunk.
    destruct (mempool_GetTransaction (mempool sm) (inv_Hash v)) as [err|tx] eqn:Hget;
      [|done].
    exists reply, v, err. split_and!; [done|by apply list_elem_of_In|done|done|done].
Qed.

Lemma retrieveTransactions_covers (fuel : nat) :
  forall (txsToRetrieve : list bytes) (sm : SyncManager),
  mempool_calls_succeed ->
  0 < MaxTransactionCountForRetrieving ->
  Z.of_nat (length txsToRetrieve) <= Z.of_nat fuel * MaxTransactionCountForRetrieving ->
  exists evs,
    trace (snd (retrieveTransactions fuel txsToRetrieve sm)) = trace sm ++ evs /\
    forall h, h ∈ txsToRetrieve -> exists items, items ∈ mempool_requests evs /\ h ∈ items.
Proof.
  induction fuel as [|fuel IH]; intros txsToRetrieve sm Hrpc HM Hlen.
  - destruct txsToRetrieve; [|cbn in Hlen; lia].
    exists []. rewrite app_nil_r. split; [done|]. intros h Hh. by apply elem_of_nil in Hh.
  - destruct txsToRetrieve as [|x l] eqn:Hl.
    { exists []. rewrite app_nil_r. split; [done|].
      intros h Hh. by apply elem_of_nil in Hh. }
    rewrite <- Hl in *. assert (Hne : txsToRetrieve <> []) by (by rewrite Hl).
    clear Hl. rewrite retrieveTransactions_step by done. cbv zeta.
    rewrite Call_GetMempoolTxs_run. cbn [snd].
    destruct (Hrpc (net sm) (txHashes_of txsToRetrieve)) as (reply & -> & ->).
    assert (Hafter : Z.of_nat (length (txsToRetrieve_after txsToRetrieve)) <=
                     Z.of_nat fuel * MaxTransactionCountForRetrieving \/
                     txHashes_of txsToRetrieve = txsToRetrieve).
    { unfold txsToRetrieve_after, txHashes_of. destruct (_ <? _) eqn:Hlt; [left|by right].
      rewrite length_drop. lia. }
    match goal with |- context [storeTransactions ?txs ?s] =>
      destruct (emits_trace (fun ev => mempool_request ev = None)
                  (storeTransactions txs) s) as (evs1 & Htr1 & Hev1);
        [by apply emits_storeTransactions|];
      pose proof (IH (txsToRetrieve_after txsToRetrieve) (snd (storeTransactions txs s))
                    Hrpc HM) as IH';
      destruct (emits_trace any_event
                  (retrieveTransactions fuel (txsToRetrieve_after txsToRetrieve))
                  (snd (storeTransactions txs s))) as (evs2 & Htr2 & _);
        [by apply emits_retrieveTransactions|]
    end.
    eexists (_ :: evs1 ++ evs2).
    assert (Hreq : mempool_requests
              (EvRPC (CallGetMempoolTxs (txHashes_of txsToRetrieve)) :: evs1 ++ evs2) =
              txHashes_of txsToRetrieve :: mempool_requests evs2).
    { unfold mempool_requests. cbn.
      by rewrite omap_app, (omap_none _ evs1), app_nil_l. }
    rewrite Hreq. split.
    + rewrite Htr2, Htr1. cbn [trace]. by rewrite <- !app_assoc.
    + intros h Hh. destruct Hafter as [Hsmall|Hall].
      * destruct (IH' Hsmall) as (evs2' & Htr2' & Hcov).
        rewrite Htr2 in Htr2'. apply app_inv_head in Htr2'. subst evs2'.
        unfold txHashes_of, txsToRetrieve_after in *.
        destruct (_ <? _) eqn:Hlt.
        -- rewrite <- (take_drop (Z.to_nat MaxTransactionCountForRetrieving)
                        txsToRetrieve) in Hh.
           apply elem_of_app in Hh as [Hh|Hh].
           ++ eexists. split; [apply list_elem_of_here|done].
           ++ destruct (Hcov h Hh) as (items & Hi & Hhi).
              exists items. split; [by apply list_elem_of_further|done].
        -- eexists. split; [apply list_elem_of_here|done].
      * rewrite Hall. eexists. split; [apply list_elem_of_here|done].
Qed.

(** X9.  Nothing the node lacks is left out: while the peer answers the
    [GetMempoolTxs] calls without error and the batch size is positive,
    every inventory hash for which the mempool's [GetTransaction]
    returns an error that [errors.Is] takes for [ErrTxNotFound] (the
    sentinel or an error that wraps it) has been requested once the
    loop has made enough iterations for the number of such hashes. *)
Theorem X9_every_unknown_hash_requested (fuel : nat) (sm : SyncManager)
    (reply : InvMessage) (v : InvItem) :
  mempool_calls_succeed ->
  0 < MaxTransactionCountForRetrieving ->
  snd (rpc_Mempool (net sm)) = inr reply ->
  Z.of_nat (length (List.filter (unknown_to (mempool sm)) (Inventory reply))) <=
    Z.of_nat fuel * MaxTransactionCountForRetrieving ->
  v ∈ Inventory reply ->
  unknown_to (mempool sm) v = true ->
  exists items,
    items ∈ mempool_requests (new_events sm (snd (doInitialMempoolSync fuel sm))) /\
    inv_Hash v ∈ items.
Proof.
  intros Hrpc HM Hreply Hlen Hv Hunk.
  unfold doInitialMempoolSync, bind, gets.
  rewrite Call_Mempool_run. cbn [fst snd mempool]. rewrite Hreply.
  match goal with |- context [retrieveTransactions fuel ?txs ?s] =>
    destruct (retrieveTransactions_covers fuel txs s Hrpc HM) as (evs & Htr & Hcov)
  end.
  { rewrite missingTransactions_filter, app_nil_l, length_map. done. }
  erewrite new_events_app; [|rewrite Htr; cbn [trace]; by rewrite <- app_assoc].
  destruct (Hcov (inv_Hash v)) as (items & Hi & Hh).
  { rewrite missingTransactions_filter, app_nil_l.
    apply list_elem_of_fmap. exists v. split; [done|].
    apply list_elem_of_In, filter_In. split; [by apply list_elem_of_In|].
    exact Hunk. }
  exists items. split; [|done]. done.
Qed.

End MempoolExtras.

(** ** The block side of the initial sync *)

Section BlockExtras.
Context `{E : Externals}.

Lemma after_block_stored (b : Block.t) (sm : SyncManager) :
  exists evs,
    trace (after_block b sm) = trace sm ++ evs /\
    ((block_validates (blockpool sm) b /\ stored_blocks evs = [b] /\
      is_Some (fst (processReceivedBlock b sm))) \/
     (~ block_validates (blockpool sm) b /\ stored_blocks evs = [])).
Proof.
  pose proof (processReceivedBlock_run b sm) as (_ & _ & _ & Hrun).
  unfold after_block. destruct (processReceivedBlock b sm) as [res sm1].
  cbn [fst snd] in *.
  destruct Hrun as [(Hv & Htr & _ & ->)|[(Hp & Htr & _ & ->)|(Hn & _ & Htr & _ & err & ->)]].
  - destruct (snd (StoreBlock (blockpool sm) b)) as [e|];
      cbn [logrus emit snd trace]; rewrite Htr.
    + eexists (_ ++ [_]). split; [by rewrite <- app_assoc|]. left. by split_and!.
    + eexists. split; [done|]. left. by split_and!.
  - eexists. split; [exact Htr|]. right. split; [|done].
    intros Hv. by apply validates_not_panics in Hv.
  - cbn [logrus emit snd trace]. rewrite Htr.
    eexists (_ ++ [_]). split; [by rewrite <- app_assoc|]. right. by split.
Qed.

Lemma processBlocks_stored (receivedBlocks : list Block.t) :
  forall sm : SyncManager,
  exists evs,
    trace (snd (processBlocks receivedBlocks sm)) = trace sm ++ evs /\
    forall b, b ∈ stored_blocks evs <->
      exists pre post,
        receivedBlocks = pre ++ b :: post /\
        fst (processBlocks pre sm) = Some tt /\
        block_validates (blockpool (snd (processBlocks pre sm))) b.
Proof.
  induction receivedBlocks as [|b0 rest IH]; intros sm.
  - exists []. rewrite app_nil_r. split; [done|]. intros b. split.
    + intros Hb. by apply elem_of_nil in Hb.
    + intros (pre & post & Heq & _). by destruct pre.
  - rewrite processBlocks_cons.
    destruct (after_block_stored b0 sm) as (evs1 & Htr1 & Hst1).
    destruct (fst (processReceivedBlock b0 sm)) as [res|] eqn:Hres.
    + destruct (IH (after_block b0 sm)) as (evs2 & Htr2 & Hst2).
      exists (evs1 ++ evs2). split; [by rewrite Htr2, Htr1, <- app_assoc|].
      intros b. unfold stored_blocks in *. rewrite omap_app, elem_of_app, Hst2.
      split.
      * intros [Hb|(pre & post & -> & Hpre & Hv)].
        -- destruct Hst1 as [(Hv & Hs & _)|[_ Hs]]; rewrite Hs in Hb.
           ++ apply list_elem_of_singleton in Hb as ->. by exists [], rest.
           ++ by apply elem_of_nil in Hb.
        -- exists (b0 :: pre), post. rewrite processBlocks_cons, Hres. done.
      * intros (pre & post & Heq & Hpre & Hv). destruct pre as [|x pre].
        -- cbn in Heq. injection Heq as <- <-. left.
           destruct Hst1 as [(_ & Hs & _)|[Hn _]]; [|done].
           rewrite Hs. by apply list_elem_of_singleton.
        -- cbn in Heq. injection Heq as <- ->. right.
           rewrite processBlocks_cons, Hres in Hpre, Hv.
           by exists pre, post.
    + exists evs1. split; [done|].
      assert (Hnone : ~ block_validates (blockpool sm) b0 /\ stored_blocks evs1 = []).
      { destruct Hst1 as [(_ & _ & [x Hx])|?]; [discriminate|done]. }
      destruct Hnone as [Hn Hs]. rewrite Hs. intros b. split.
      * intros Hb. by apply elem_of_nil in Hb.
      * intros (pre & post & Heq & Hpre & Hv). destruct pre as [|x pre].
        -- cbn in Heq. injection Heq as <- <-. done.
        -- cbn in Heq. injection Heq as <- ->.
           rewrite processBlocks_cons, Hres in Hpre. discriminate.
Qed.

(** X10.  Which of the received blocks reach [StoreBlock]: exactly those
    that the loop gets to --- no call of [processReceivedBlock] for a
    block before them has panicked --- and that pass every check of
    [processReceivedBlock] against the pool as the blocks before them in
    the list have left it.  So a block whose predecessor arrived earlier
    in the same batch and was stored is checked against that
    predecessor, a block whose predecessor was rejected is checked
    against a pool that lacks it, and a block that comes after one that
    makes the call panic is never stored. *)
Theorem X10_processBlocks_stores_validated_in_turn (receivedBlocks : list Block.t)
    (sm : SyncManager) (b : Block.t) :
  b ∈ stored_blocks (new_events sm (snd (processBlocks receivedBlocks sm))) <->
  exists pre post,
    receivedBlocks = pre ++ b :: post /\
    fst (processBlocks pre sm) = Some tt /\
    block_validates (blockpool (snd (processBlocks pre sm))) b.
Proof.
  destruct (processBlocks_stored receivedBlocks sm) as (evs & Htr & Hst).
  by rewrite (new_events_app _ _ _ Htr).
Qed.

(** A list of blocks that all carry a last-hash proof gets through the
    loop. *)
Lemma processBlocks_with_proofs (receivedBlocks : list Block.t) (sm : SyncManager) :
  Forall (fun b => is_Some (BlockHeader.LastHashProof (Block.Header b))) receivedBlocks ->
  fst (processBlocks receivedBlocks sm) = Some tt.
Proof.
  intros Hall. destruct (processBlocks_trace receivedBlocks sm) as (evs & _ & Hout).
  destruct (fst (processBlocks receivedBlocks sm)) as [[]|]; [done|].
  destruct Hout as (_ & pre & b & post & -> & _ & _ & Hnil & _).
  apply Forall_app in Hall as [_ Hall]. apply Forall_cons in Hall as [[p Hp] _].
  congruence.
Qed.

(** X11.  When the peer is ahead by at most one batch and answers the
    range call, the catch-up sends the single request
    [(local + 1, peer)] and passes the blocks of the reply to
    [processReceivedBlock] in the order of the reply; heights the peer
    reports as failed only produce a warning.  It then returns [nil],
    every block of the reply processed, unless a call of
    [processReceivedBlock] panics, which happens only on a block without
    last-hash proof: the blocks up to that one have been processed and
    the catch-up does not return. *)
Theorem X11_single_batch_catch_up (fuel : nat) (local peer : Z) (sm : SyncManager)
    (reply : GetRangeOfBlocksReply) :
  (0 < fuel)%nat -> is_uint64 local -> is_uint64 peer ->
  local < peer -> peer - local <= MaxBlockCountForRetrieving ->
  snd (rpc_GetRangeOfBlocks (net sm) (local + 1) peer) = inr reply ->
  let r := catchUp fuel local peer sm in
  let evs := new_events sm (snd r) in
  range_requests evs = [(local + 1, peer)] /\
  ((fst r = Some None /\ panics evs = [] /\ processed_blocks evs = Blocks reply) \/
   (fst r = None /\ panics evs = [nil_pointer_dereference] /\
    exists pre b post,
      Blocks reply = pre ++ b :: post /\
      processed_blocks evs = pre ++ [b] /\
      BlockHeader.LastHashProof (Block.Header b) = None)) /\
  (Forall (fun b => is_Some (BlockHeader.LastHashProof (Block.Header b)))
     (Blocks reply) ->
   fst r = Some None /\ processed_blocks evs = Blocks reply) /\
  (FailedBlockHeights reply <> [] ->
   LogWarnf "remote node is unable to retrieve block heights: %s"
     [ArgHeights (FailedBlockHeights reply)] ∈ log_lines evs).
Proof.
  intros Hfuel [Hl1 Hl2] [Hp1 Hp2] Hlt Hmax Hreply. unfold uint64_modulus in *.
  cbv zeta. unfold catchUp.
  destruct (local <? peer) eqn:Hltb; [|lia].
  rewrite (sub64_small peer local) by lia. unfold bind.
  destruct fuel as [|fuel]; [lia|].
  rewrite fetchBlocks_step by lia. cbv zeta.
  assert (Ha : addedVal (peer - local) = peer - local)
    by (unfold addedVal;
        destruct (peer - local <? MaxBlockCountForRetrieving) eqn:Hc; lia).
  rewrite Ha. replace (local + (peer - local)) with peer by lia.
  rewrite Hreply, Z.sub_diag, Call_GetRangeOfBlocks_run. cbn [snd app].
  match goal with |- context [fetchBlocks fuel 0 peer ?bs ?s] =>
    assert (Hdone : fetchBlocks fuel 0 peer bs s = (Some (inr bs), s))
      by (by destruct fuel);
    rewrite Hdone;
    destruct (processBlocks_trace bs s) as (evs2 & Htr2 & Hout);
    pose proof (processBlocks_with_proofs bs s) as Hproofs;
    destruct (emits_trace (fun ev => range_request ev = None) (processBlocks bs) s)
      as (evs2' & Htr2' & Hev2); [by apply emits_processBlocks|];
    rewrite Htr2 in Htr2'; apply app_inv_head in Htr2'; subst evs2';
    destruct (processBlocks bs s) as [res sm2]
  end.
  cbn [fst snd] in *.
  assert (Hlog : exists lg,
            trace sm2 = trace sm ++
              (EvRPC (CallGetRangeOfBlocks (local + 1) peer) :: lg) ++ evs2 /\
            range_requests lg = [] /\ processed_blocks lg = [] /\ panics lg = [] /\
            (FailedBlockHeights reply <> [] ->
             LogWarnf "remote node is unable to retrieve block heights: %s"
               [ArgHeights (FailedBlockHeights reply)] ∈ log_lines lg)).
  { destruct (negb (length (FailedBlockHeights reply) =? 0)%nat) eqn:Hf;
      cbn [logrus emit snd trace] in Htr2.
    - eexists [_]. split; [rewrite Htr2, <- !app_assoc; reflexivity|].
      split_and!; try done. intros _. apply list_elem_of_here.
    - exists []. split; [rewrite Htr2, <- !app_assoc; reflexivity|].
      split_and!; try done. intros Hne. destruct (FailedBlockHeights reply); done. }
  destruct Hlog as (lg & Htr & Hrs & Hps & Hpan & Hwarn).
  assert (Hnew : forall x : option (option Error),
            new_events sm (snd (ret x sm2)) =
            (EvRPC (CallGetRangeOfBlocks (local + 1) peer) :: lg) ++ evs2)
    by (intros x; by apply new_events_app).
  assert (Hreq : range_requests
            ((EvRPC (CallGetRangeOfBlocks (local + 1) peer) :: lg) ++ evs2)
            = [(local + 1, peer)]).
  { unfold range_requests in *. rewrite omap_app, (omap_none _ evs2) by done.
    cbn. by rewrite Hrs. }
  assert (Hproc : processed_blocks
            ((EvRPC (CallGetRangeOfBlocks (local + 1) peer) :: lg) ++ evs2)
            = processed_blocks evs2).
  { unfold processed_blocks in *. rewrite omap_app. cbn. by rewrite Hps. }
  assert (Hpanics : panics
            ((EvRPC (CallGetRangeOfBlocks (local + 1) peer) :: lg) ++ evs2)
            = panics evs2).
  { unfold panics in *. rewrite omap_app. cbn. by rewrite Hpan. }
  assert (Hlogs : FailedBlockHeights reply <> [] ->
            LogWarnf "remote node is unable to retrieve block heights: %s"
              [ArgHeights (FailedBlockHeights reply)]
            ∈ log_lines ((EvRPC (CallGetRangeOfBlocks (local + 1) peer) :: lg) ++ evs2)).
  { intros Hne. unfold log_lines in *. rewrite omap_app. apply elem_of_app. left.
    cbn. by apply Hwarn. }
  destruct res as [[]|]; cbn [fst]; rewrite Hnew, Hreq, Hproc, Hpanics.
  - destruct Hout as [Hp Hn]. split_and!; [done| |done|done]. left. done.
  - destruct Hout as (Hn & pre & b & post & Heq & Hp & _ & Hnil & _).
    split_and!; [done| | |done].
    + right. split_and!; [done|done|]. by exists pre, b, post.
    + intros Hall. by specialize (Hproofs Hall).
Qed.

(** X12.  A peer that is not ahead of the node --- at the same height or
    behind --- ends the block-pool sync after the [LastBlockHeight] call:
    [nil] is returned, no range is requested, no block is processed and
    the pool is left as it was. *)
Theorem X12_peer_not_ahead (fuel : nat) (sm : SyncManager) (local : Z)
    (err : option Error) (reply : LastBlockHeightReply) :
  initialSyncCompleted sm = false ->
  GetLatestBlockHeight (blockpool sm) = (local, err) ->
  is_ErrLatestHeightNil err = false ->
  snd (rpc_LastBlockHeight (net sm)) = inr reply ->
  lbh_Error reply = None ->
  lbh_Height reply <= local ->
  let r := doInitialBlockPoolSync fuel sm in
  fst r = Some None /\
  new_events sm (snd r) = [EvRPC CallLastBlockHeight] /\
  blockpool (snd r) = blockpool sm.
Proof.
  intros Hflag Hlatest Hnil Hr He Hle. cbv zeta.
  rewrite (doInitialBlockPoolSync_catchUp fuel sm local err reply) by done.
  unfold catchUp. destruct (local <? lbh_Height reply) eqn:Hlt; [lia|].
  rewrite Call_LastBlockHeight_run. cbn [ret fst snd blockpool].
  split; [done|]. split; [|done]. by apply new_events_app.
Qed.

(** X13.  The error [processReceivedBlock] returns for the transactions
    of a block is that of the first transaction that fails a check: the
    transactions before it that pass do not show, and those after it are
    not looked at. *)
Theorem X13_first_failing_transaction_decides (blockHash : bytes)
    (pre post : list Transaction.t) (tx : Transaction.t) :
  Forall (tx_validates blockHash) pre ->
  ~ tx_validates blockHash tx ->
  is_Some (checkTransactions blockHash [tx]) /\
  checkTransactions blockHash (pre ++ tx :: post) = checkTransactions blockHash [tx].
Proof.
  intros Hpre Htx. split.
  - destruct (checkTransactions blockHash [tx]) eqn:Hc; [done|].
    apply checkTransactions_None in Hc. by inversion Hc.
  - induction Hpre as [|x pre (Hp & Hv & Hh) _ IH].
    + assert (Hone : checkTransactions blockHash [tx] <> None).
      { intros Hc. apply checkTransactions_None in Hc. by inversion Hc. }
      cbn in *. destruct (Transaction.MerkleProof tx); [|done].
      destruct (merkletree_verify _ _ _ _) as [e|[|]]; cbn in *; try done.
      by destruct (ValidateHash tx).
    + cbn [app checkTransactions]. destruct Hp as [p Hp].
      unfold VerifyProofUsing in Hv. rewrite Hp in Hv |- *.
      injection Hv as Hv. rewrite Hv, Hh. cbn [negb]. exact IH.
Qed.

Lemma keeps_blockpool_fetchBlocks (fuel : nat) (heightCount to : Z)
    (receivedBlocks : list Block.t) :
  keeps blockpool (fetchBlocks fuel heightCount to receivedBlocks).
Proof.
  revert heightCount to receivedBlocks.
  induction fuel as [|fuel IH]; intros heightCount to receivedBlocks; cbn [fetchBlocks].
  - destruct (negb _); solve_keeps.
  - destruct (negb _); [solve_keeps|].
    apply keeps_bind; [unfold Call_GetRangeOfBlocks; solve_keeps|].
    intros [err|reply]; [solve_keeps|].
    apply keeps_bind; [destruct (negb _); solve_keeps|]. intros _. apply IH.
Qed.

(** X19.  Cold start.  When [GetLatestBlockHeight] answers
    [ErrLatestHeightNil], the genesis block goes to [StoreBlock]
    directly, before any call to the peer and without passing through
    [processReceivedBlock].  If that fails, the error is returned, the
    peer is not called and the pool is as it was.  If it succeeds, the
    sync goes on from the pool that holds the genesis block, with the
    height that came with [ErrLatestHeightNil]: the height is not read
    again. *)
Theorem X19_cold_start_stores_genesis_first (fuel : nat) (sm : SyncManager) (h : Z) :
  initialSyncCompleted sm = false ->
  GetLatestBlockHeight (blockpool sm) = (h, Some ErrLatestHeightNil) ->
  let r := doInitialBlockPoolSync fuel sm in
  (forall err,
     snd (StoreBlock (blockpool sm) GenesisBlock) = Some err ->
     fst r = Some (Some err) /\
     new_events sm (snd r) = [EvStoreBlock GenesisBlock] /\
     blockpool (snd r) = blockpool sm) /\
  (snd (StoreBlock (blockpool sm) GenesisBlock) = None ->
   r = syncWithPeer fuel h (snd (blockpool_StoreBlock GenesisBlock sm)) /\
   blockpool (snd (blockpool_StoreBlock GenesisBlock sm))
     = fst (StoreBlock (blockpool sm) GenesisBlock) /\
   exists evs,
     new_events sm (snd r) = EvStoreBlock GenesisBlock :: EvRPC CallLastBlockHeight :: evs).
Proof.
  intros Hflag Hlatest. cbv zeta.
  unfold doInitialBlockPoolSync, bind, gets. rewrite Hflag, Hlatest.
  cbn [is_ErrLatestHeightNil]. rewrite blockpool_StoreBlock_run. cbn [fst snd blockpool].
  destruct (StoreBlock (blockpool sm) GenesisBlock) as [db' [e|]] eqn:Hs; cbn [fst snd].
  - split; [|done]. intros err [= <-]. cbn [ret fst snd blockpool].
    split; [done|]. split; [by apply new_events_app|].
    by rewrite (StoreBlock_error_unchanged _ _ _ _ Hs).
  - split; [done|]. intros _. split; [done|]. split; [done|].
    match goal with |- context [syncWithPeer fuel h ?s] =>
      destruct (syncWithPeer_begins fuel h s) as (evs & Htr)
    end.
    exists evs. apply new_events_app. rewrite Htr. cbn [trace].
    by rewrite <- app_assoc.
Qed.

(** X20.  The range loop is all or nothing.  When the catch-up does not
    return [nil] --- a [GetRangeOfBlocks] call failed --- the blocks that
    earlier calls of the same run had received are dropped: none is
    passed to [processReceivedBlock], none is stored and the pool is as
    it was. *)
Theorem X20_failed_fetch_drops_received_blocks (fuel : nat) (local peer : Z)
    (sm : SyncManager) (err : Error) :
  fst (catchUp fuel local peer sm) = Some (Some err) ->
  let evs := new_events sm (snd (catchUp fuel local peer sm)) in
  processed_blocks evs = [] /\ stored_blocks evs = [] /\
  blockpool (snd (catchUp fuel local peer sm)) = blockpool sm.
Proof.
  cbv zeta. unfold catchUp. destruct (_ <? _); [|done]. unfold bind.
  destruct (emits_trace (fun ev => processed_block ev = None /\ stored_block ev = None)
              (fetchBlocks fuel (sub64 peer local) local []) sm) as (evs & Htr & Hev);
    [by apply emits_fetchBlocks|].
  pose proof (keeps_blockpool_fetchBlocks fuel (sub64 peer local) local [] sm) as Hdb.
  destruct (fetchBlocks _ _ _ _ sm) as [[[e|blocks]|] sm1]; cbn [fst snd ret] in *.
  - intros _. rewrite (new_events_app _ _ _ Htr). split_and!; [| |done].
    + apply omap_none. eapply Forall_impl; [exact Hev|]. by intros ev [? _].
    + apply omap_none. eapply Forall_impl; [exact Hev|]. by intros ev [_ ?].
  - by destruct (processBlocks blocks sm1) as [[[]|] sm2].
  - done.
Qed.

End BlockExtras.

Section StoredAndFound.
Context `{E : Externals} `{R : PoolReads}.

(** X14.  What becomes of a block that passes every check: either
    [StoreBlock] commits, [processReceivedBlock] returns [nil] and the
    pool then answers [HasBlock] for the block's hash with [true], in
    any state of the environment in which reads do not fail; or
    [StoreBlock] fails, its error comes back wrapped in
    [failed to store block in blockpool] and the pool is as before. *)
Theorem X14_validated_block_stored_and_found (env : EnvState) (block : Block.t)
    (sm : SyncManager) :
  reads_ok env ->
  block_validates (blockpool sm) block ->
  let r := processReceivedBlock block sm in
  let h := EncodeToString (BlockHeader.Hash (Block.Header block)) in
  (fst r = Some None /\
   snd (StoreBlock (blockpool sm) block) = None /\
   HasBlock env (blockpool (snd r)) h = (true, None)) \/
  (exists err,
     snd (StoreBlock (blockpool sm) block) = Some err /\
     fst r = Some (Some (Errorf "failed to store block in blockpool: %s"
                           [ArgErrorText err])) /\
     blockpool (snd r) = blockpool sm).
Proof.
  intros Hok Hv. cbv zeta.
  pose proof (processReceivedBlock_run block sm) as (_ & _ & _ & Hrun).
  destruct Hrun as [(_ & _ & Hdb & Hres)|[(Hp & _)|(Hn & _)]]; [| |done].
  - destruct (StoreBlock (blockpool sm) block) as [db' [err|]] eqn:Hs;
      cbn [fst snd] in *.
    + right. exists err. split_and!; try done.
      by rewrite Hdb, (StoreBlock_error_unchanged _ _ _ _ Hs).
    + left. split_and!; try done. rewrite Hdb, HasBlock_healthy by done.
      destruct (StoreBlock_committed _ _ _ Hs) as (data & hd & _ & _ & ->).
      rewrite lookup_insert_ne
        by (intros Heq; symmetry in Heq; by apply block_key_ne_header_key in Heq).
      by rewrite lookup_insert_eq.
  - by apply validates_not_panics in Hv.
Qed.

End StoredAndFound.

(** ** [Start]: the two syncs in sequence, then the loop *)

Section StartExtras.
Context `{E : Externals}.

Lemma Start_run (fuel : nat) (sm : SyncManager) :
  Start fuel sm =
  let r1 := doInitialBlockPoolSync fuel (snd (wg_Add 1 sm)) in
  match fst r1 with
  | None => (None, snd r1)
  | Some err1 =>
      let r2 := doInitialMempoolSync fuel (after_error err1 (snd r1)) in
      match fst r2 with
      | None => (None, snd r2)
      | Some err2 => (Some tt, snd (emit EvGoSyncLoop (after_error err2 (snd r2))))
      end
  end.
Proof.
  unfold Start.
  match goal with |- context [bind (wg_Add 1) ?k] =>
    change (bind (wg_Add 1) k sm) with (k tt (snd (wg_Add 1 sm))) end.
  unfold bind. cbv beta zeta.
  destruct (doInitialBlockPoolSync fuel (snd (wg_Add 1 sm))) as [[err1|] sm1];
    cbn [fst snd]; [|done].
  destruct err1 as [e1|]; cbn [after_error logrus emit ret fst snd].
  - destruct (doInitialMempoolSync fuel _) as [[err2|] sm2]; cbn [fst snd]; [|done].
    by destruct err2.
  - destruct (doInitialMempoolSync fuel _) as [[err2|] sm2]; cbn [fst snd]; [|done].
    by destruct err2.
Qed.

Lemma after_error_run (err : option Error) (sm : SyncManager) :
  trace (after_error err sm) = trace sm ++ error_line err /\
  mempool (after_error err sm) = mempool sm /\
  net (after_error err sm) = net sm.
Proof. destruct err; cbn; [done|]. by rewrite app_nil_r. Qed.

Lemma Start_trace (fuel : nat) (sm : SyncManager) :
  let r1 := doInitialBlockPoolSync fuel (snd (wg_Add 1 sm)) in
  exists evs1,
    trace (snd r1) = trace sm ++ evs1 /\ Forall block_side evs1 /\
    match fst r1 with
    | None => fst (Start fuel sm) = None /\ trace (snd (Start fuel sm)) = trace sm ++ evs1
    | Some err1 =>
        let r2 := doInitialMempoolSync fuel (after_error err1 (snd r1)) in
        exists evs2,
          trace (snd r2) = trace (after_error err1 (snd r1)) ++ evs2 /\
          Forall mempool_side evs2 /\
          match fst r2 with
          | None =>
              fst (Start fuel sm) = None /\
              trace (snd (Start fuel sm)) = trace sm ++ evs1 ++ error_line err1 ++ evs2
          | Some err2 =>
              fst (Start fuel sm) = Some tt /\
              trace (snd (Start fuel sm)) =
                trace sm ++ (evs1 ++ error_line err1 ++ evs2 ++ error_line err2) ++
                  [EvGoSyncLoop]
          end
    end.
Proof.
  cbv zeta. rewrite Start_run. cbv zeta.
  destruct (emits_trace block_side (doInitialBlockPoolSync fuel) (snd (wg_Add 1 sm)))
    as (evs1 & Htr1 & Hev1); [apply emits_block_side|].
  change (trace (snd (wg_Add 1 sm))) with (trace sm) in Htr1.
  exists evs1. split; [done|]. split; [done|].
  destruct (fst (doInitialBlockPoolSync fuel (snd (wg_Add 1 sm)))) as [err1|]; [|done].
  destruct (emits_trace mempool_side (doInitialMempoolSync fuel)
              (after_error err1 (snd (doInitialBlockPoolSync fuel (snd (wg_Add 1 sm))))))
    as (evs2 & Htr2 & Hev2); [apply emits_mempool_side|].
  exists evs2. split; [done|]. split; [done|].
  destruct (after_error_run err1 (snd (doInitialBlockPoolSync fuel (snd (wg_Add 1 sm))))) as (Hl1 & _).
  destruct (fst (doInitialMempoolSync fuel _)) as [err2|]; cbn [fst snd].
  - split; [done|]. rewrite emit_run. cbn [trace].
    destruct (after_error_run err2
                (snd (doInitialMempoolSync fuel
                        (after_error err1 (snd (doInitialBlockPoolSync fuel (snd (wg_Add 1 sm))))))))
      as (Hl2 & _).
    rewrite Hl2, Htr2, Hl1, Htr1. by rewrite <- !app_assoc.
  - split; [done|]. rewrite Htr2, Hl1, Htr1. by rewrite <- !app_assoc.
Qed.

Lemma block_side_not_loop (evs : list Event) : Forall block_side evs -> EvGoSyncLoop ∉ evs.
Proof. rewrite Forall_forall. intros Hall Hin. exact (Hall _ Hin). Qed.

Lemma mempool_side_not_loop (evs : list Event) :
  Forall mempool_side evs -> EvGoSyncLoop ∉ evs.
Proof. rewrite Forall_forall. intros Hall Hin. exact (Hall _ Hin). Qed.

Lemma error_line_not_loop (err : option Error) : EvGoSyncLoop ∉ error_line err.
Proof.
  destruct err; cbn; [|apply not_elem_of_nil].
  intros Hin. by apply list_elem_of_singleton in Hin.
Qed.

Lemma Start_launches_iff_returns (fuel : nat) (sm : SyncManager) :
  (fst (Start fuel sm) = Some tt ->
   exists evs, new_events sm (snd (Start fuel sm)) = evs ++ [EvGoSyncLoop] /\
               EvGoSyncLoop ∉ evs) /\
  (fst (Start fuel sm) = None -> EvGoSyncLoop ∉ new_events sm (snd (Start fuel sm))).
Proof.
  destruct (Start_trace fuel sm) as (evs1 & _ & Hev1 & Hrest).
  apply block_side_not_loop in Hev1.
  destruct (fst (doInitialBlockPoolSync fuel (snd (wg_Add 1 sm)))) as [err1|].
  - destruct Hrest as (evs2 & _ & Hev2 & Hrest). apply mempool_side_not_loop in Hev2.
    pose proof (error_line_not_loop err1) as Hl1.
    destruct (fst (doInitialMempoolSync fuel _)) as [err2|].
    + destruct Hrest as [-> Htr]. rewrite (new_events_app _ _ _ Htr).
      pose proof (error_line_not_loop err2) as Hl2.
      split; [|done]. intros _. eexists. split; [done|].
      rewrite !not_elem_of_app. by split_and!.
    + destruct Hrest as [-> Htr]. rewrite (new_events_app _ _ _ Htr).
      split; [done|]. intros _. rewrite !not_elem_of_app. by split_and!.
  - destruct Hrest as [-> Htr]. rewrite (new_events_app _ _ _ Htr). by split.
Qed.

(** X15.  [Start] never gives up on an error.  The block-pool sync runs
    from the state [wg.Add(1)] left; an error it returns is logged and
    the mempool sync is still run, from the state the block-pool sync
    left; an error of the mempool sync is logged and [Start] still
    returns.  [syncLoop] is launched exactly when [Start] returns, once,
    as its last step. *)
Theorem X15_Start_logs_errors_and_goes_on (fuel : nat) (sm : SyncManager) :
  let r1 := doInitialBlockPoolSync fuel (snd (wg_Add 1 sm)) in
  let evs := new_events sm (snd (Start fuel sm)) in
  (forall e1, fst r1 = Some (Some e1) ->
     LogError e1 ∈ log_lines evs /\ EvRPC CallMempool ∈ evs) /\
  (forall err1 e2,
     fst r1 = Some err1 ->
     fst (doInitialMempoolSync fuel (after_error err1 (snd r1))) = Some (Some e2) ->
     LogError e2 ∈ log_lines evs /\ fst (Start fuel sm) = Some tt) /\
  (fst (Start fuel sm) = Some tt <-> EvGoSyncLoop ∈ evs) /\
  (fst (Start fuel sm) = Some tt ->
   exists evs', evs = evs' ++ [EvGoSyncLoop] /\ EvGoSyncLoop ∉ evs').
Proof.
  cbv zeta. destruct (Start_launches_iff_returns fuel sm) as [Hret Hnot].
  destruct (Start_trace fuel sm) as (evs1 & _ & _ & Hrest).
  split_and!.
  - intros e1 Hr1. rewrite Hr1 in Hrest. destruct Hrest as (evs2 & Htr2 & _ & Hrest).
    assert (Hcall : exists evs2', evs2 = EvRPC CallMempool :: evs2').
    { revert Htr2. unfold doInitialMempoolSync, bind, gets.
      rewrite Call_Mempool_run. cbn [fst snd].
      destruct (snd (rpc_Mempool _)) as [err|reply].
      - cbn [ret snd trace]. intros Htr2. apply app_inv_head in Htr2. by exists [].
      - match goal with |- context [retrieveTransactions fuel ?txs ?s] =>
          destruct (emits_trace any_event (retrieveTransactions fuel txs) s)
            as (evs3 & Htr3 & _); [by apply emits_retrieveTransactions|]
        end.
        rewrite Htr3. cbn [trace]. rewrite <- app_assoc. intros Htr2.
        apply app_inv_head in Htr2. by exists evs3. }
    destruct Hcall as (evs2' & ->).
    assert (Hin : forall tl,
              LogError e1 ∈ log_lines (evs1 ++ error_line (Some e1) ++
                                       (EvRPC CallMempool :: evs2') ++ tl) /\
              EvRPC CallMempool ∈ evs1 ++ error_line (Some e1) ++
                                       (EvRPC CallMempool :: evs2') ++ tl).
    { intros tl. split.
      - unfold log_lines. rewrite omap_app. apply elem_of_app. right. cbn.
        apply list_elem_of_here.
      - apply elem_of_app. right. cbn. apply list_elem_of_further, list_elem_of_here. }
    destruct (fst (doInitialMempoolSync fuel _)) as [err2|].
    + destruct Hrest as [_ Htr]. rewrite (new_events_app _ _ _ Htr).
      specialize (Hin (error_line err2 ++ [EvGoSyncLoop])).
      by rewrite <- !app_assoc.
    + destruct Hrest as [_ Htr]. rewrite (new_events_app _ _ _ Htr).
      specialize (Hin []). by rewrite app_nil_r in Hin.
  - intros err1 e2 Hr1 Hr2. rewrite Hr1 in Hrest.
    destruct Hrest as (evs2 & _ & _ & Hrest). rewrite Hr2 in Hrest.
    destruct Hrest as [Hres Htr]. rewrite (new_events_app _ _ _ Htr).
    split; [|done]. unfold log_lines. rewrite !omap_app.
    apply elem_of_app. left. apply elem_of_app. right. apply elem_of_app. right.
    apply elem_of_app. right. cbn. apply list_elem_of_here.
  - split.
    + intros Hsome. destruct (Hret Hsome) as (evs' & -> & _).
      apply elem_of_app. right. apply list_elem_of_here.
    + intros Hin. destruct (fst (Start fuel sm)) as [[]|]; [done|].
      by destruct Hnot.
  - exact Hret.
Qed.

Lemma doInitialMempoolSync_diverges (fuel : nat) (sm : SyncManager) :
  inventory_always_missing (mempool sm) -> mempool_calls_succeed ->
  fst (doInitialMempoolSync fuel sm) = None /\
  length (mempool_requests (new_events sm (snd (doInitialMempoolSync fuel sm)))) = fuel.
Proof.
  intros Hinv Hrpc. unfold doInitialMempoolSync, bind, gets.
  rewrite Call_Mempool_run. cbn [fst snd mempool].
  destruct (Hinv (net sm)) as (reply & -> & Hne).
  match goal with |- context [retrieveTransactions fuel ?txs ?s] =>
    destruct (retrieveTransactions_diverges fuel txs s Hrpc) as (evs & Htr & Hres & Hlen & _)
  end.
  { rewrite missingTransactions_filter, app_nil_l. intros Hnil.
    apply Hne. by apply fmap_nil_inv in Hnil. }
  split; [done|].
  erewrite new_events_app; [|rewrite Htr; cbn [trace]; by rewrite <- app_assoc].
  done.
Qed.

(** X16.  A node that lacks one transaction of the peer's mempool never
    gets out of [Start]: while the peer's inventory holds a hash the
    mempool does not know and the peer answers the [GetMempoolTxs]
    calls, [Start] has not returned after any number of iterations, and
    [syncLoop] has not been launched. *)
Theorem X16_Start_never_returns_when_behind (fuel : nat) (sm : SyncManager) :
  inventory_always_missing (mempool sm) ->
  mempool_calls_succeed ->
  fst (Start fuel sm) = None /\
  EvGoSyncLoop ∉ new_events sm (snd (Start fuel sm)).
Proof.
  intros Hinv Hrpc.
  assert (Hnone : fst (Start fuel sm) = None).
  { rewrite Start_run. cbv zeta.
    destruct (fst (doInitialBlockPoolSync fuel (snd (wg_Add 1 sm)))) as [err1|] eqn:Hr1; [|done].
    destruct (doInitialMempoolSync_diverges fuel
                (after_error err1 (snd (doInitialBlockPoolSync fuel (snd (wg_Add 1 sm)))))) as [Hr2 _].
    - destruct (after_error_run err1 (snd (doInitialBlockPoolSync fuel (snd (wg_Add 1 sm)))))
        as (_ & -> & _).
      by rewrite keeps_mempool_doInitialBlockPoolSync.
    - done.
    - by rewrite Hr2. }
  split; [done|]. by apply Start_launches_iff_returns.
Qed.

(** X22.  [Stop] returns only on a manager that was never started.  It
    cancels the context and waits for the counter of the wait group to
    be zero; [NewSyncManager] leaves the counter at zero, every call of
    [Start] adds one to it --- also a call that does not return --- and
    neither [Stop] nor [onNewTransaction] lowers it.  So [Stop] returns
    on a new manager, and after a call of [Start] it blocks. *)
Theorem X22_Stop_blocks_once_started (sm : SyncManager) :
  (fst (Stop sm) = Some tt <-> wg sm = 0%nat) /\
  new_events sm (snd (Stop sm)) = [EvCtxCancel] /\
  wg (snd (Stop sm)) = wg sm /\
  (forall message, wg (snd (onNewTransaction message sm)) = wg sm) /\
  (forall fuel,
     wg (snd (Start fuel sm)) = S (wg sm) /\
     fst (Stop (snd (Start fuel sm))) = None) /\
  (forall bp mp client, fst (Stop (NewSyncManager bp mp client)) = Some tt).
Proof.
  assert (Hstop : forall s, fst (Stop s) = match wg s with O => Some tt | S _ => None end)
    by done.
  split_and!.
  - rewrite Hstop. by destruct (wg sm).
  - by apply new_events_app.
  - done.
  - intros message. by destruct (emits_onNewTransaction message sm) as [[_ ->] _].
  - intros fuel. destruct (Start_frame fuel sm) as (_ & Hw & _).
    split; [done|]. by rewrite Hstop, Hw.
  - done.
Qed.

End StartExtras.

(** ** The client of the Lotus node *)

Section LotusClientFacts.
Context `{H : HttpExternals}.

(** X17.  What [HandleRequest] does, in full.  When the client's host
    does not parse as a URL the call panics on the [nil] request, before
    the error of [http.NewRequest] is looked at, so the error
    [Failed to construct lotus node rpc request] is never returned.
    Otherwise the call returns whatever [client.Do] returns for a POST
    to the host with the given body and exactly two headers:
    [Content-Type: application/json] and
    [Authentication: Bearer <token>]; no [Authorization] header is set.
    The incoming request is not read. *)
Theorem X17_HandleRequest_panics_or_posts (c : LotusClient) (w : HttpWorld)
    (r : option HttpRequest) (data : bytes) :
  (url_Parse_error (host c) <> None /\
   HandleRequest c w r data =
     Panicked "invalid memory address or nil pointer dereference") \/
  (url_Parse_error (host c) = None /\
   exists req,
     HandleRequest c w r data = Returned (client_Do w req) /\
     req_Method req = "POST" /\ req_URL req = host c /\ req_Body req = data /\
     req_Header req !! "Content-Type" = Some ["application/json"] /\
     req_Header req !! "Authentication" = Some ["Bearer " +:+ jwt_Raw c] /\
     forall key, key <> "Content-Type" -> key <> "Authentication" ->
       req_Header req !! key = None).
Proof.
  unfold HandleRequest, http_NewRequest_POST.
  destruct (url_Parse_error (host c)) as [err|]; [by left|right].
  split; [done|]. eexists. split; [reflexivity|]. cbn. split_and!; try done.
  intros key Hk1 Hk2. by rewrite !lookup_insert_ne, lookup_empty.
Qed.

(** X18.  [GetMessage] is [HandleRequest] on the JSON encoding of the
    request body [{2.0, Filecoin.GetMessage, [txHash], 0}]: same panic,
    same request, same answer, whatever the two incoming requests are.
    When the encoding fails the error is returned wrapped in
    [Failed to marshal request body] and nothing is sent. *)
Theorem X18_GetMessage_is_HandleRequest_on_json (c : LotusClient) (w : HttpWorld)
    (r r' : option HttpRequest) (txHash : string) :
  GetMessage c w r txHash =
  match json_Marshal_RequestBody (mkRequestBody "2.0" "Filecoin.GetMessage" [txHash] 0) with
  | inl err =>
      Returned (inl (Errorf "Failed to marshal request body %v" [ArgErrorText err]))
  | inr body => HandleRequest c w r' body
  end.
Proof.
  unfold GetMessage, HandleRequest, NewRequestBody. cbn.
  by destruct (json_Marshal_RequestBody _).
Qed.

End LotusClientFacts.

(** ** The further theorems at concrete inputs *)

Lemma DemoReads_reads_ok : @reads_ok DemoReads.R true.
Proof. intros db. by split. Qed.

Lemma Demo_store_block1 :
  @StoreBlock Demo.E Demo.db_genesis Demo.block1 = (DemoReads.db_two, None).
Proof. reflexivity. Qed.

(** X1 at [block1], stored on top of the genesis block. *)
Lemma X1_witness :
  @reads_ok DemoReads.R true /\
  @StoreBlock Demo.E Demo.db_genesis Demo.block1 = (DemoReads.db_two, None) /\
  @HasBlock DemoReads.R true DemoReads.db_two "0001" = (true, None).
Proof.
  destruct (@X1_stored_block_is_found Demo.E DemoReads.R true Demo.db_genesis
              DemoReads.db_two Demo.block1 DemoReads_reads_ok Demo_store_block1)
    as [Hhas _].
  split; [exact DemoReads_reads_ok|]. split; [exact Demo_store_block1 | exact Hhas].
Defined.

(** X2 at the same block, with the decoding by table. *)
Lemma X2_witness :
  @reads_ok DemoReads.R true /\
  @StoreBlock Demo.E Demo.db_genesis Demo.block1 = (DemoReads.db_two, None) /\
  @FetchBlock DemoReads.R true DemoReads.db_two "0001" = inr Demo.block1 /\
  @FetchBlockHeader DemoReads.R true DemoReads.db_two "0001"
  = inr (Block.Header Demo.block1).
Proof.
  assert (Hb : forall data, @cbor_Marshal_block Demo.E Demo.block1 = inr data ->
                 @cbor_Unmarshal_block DemoReads.R data = inr Demo.block1)
    by (intros data [= <-]; vm_compute; reflexivity).
  assert (Hh : forall data,
                 @cbor_Marshal_header Demo.E (Block.Header Demo.block1) = inr data ->
                 @cbor_Unmarshal_header DemoReads.R data = inr (Block.Header Demo.block1))
    by (intros data [= <-]; vm_compute; reflexivity).
  destruct (@X2_store_fetch_roundtrip Demo.E DemoReads.R true Demo.db_genesis
              DemoReads.db_two Demo.block1 DemoReads_reads_ok Demo_store_block1 Hb Hh)
    as [Hfb Hfh].
  split; [exact DemoReads_reads_ok|]. split; [exact Demo_store_block1|].
  split; [exact Hfb | exact Hfh].
Defined.

(** X4 at the pool that holds the genesis block and [block1]. *)
Lemma X4_witness :
  @pool_built Demo.E DemoReads.db_two /\
  @entries_paired Demo.E DemoReads.db_two "0001".
Proof.
  assert (Hp : @pool_built Demo.E DemoReads.db_two).
  { unfold DemoReads.db_two, Demo.db_genesis.
    apply pool_built_store, pool_built_store, pool_built_empty. }
  destruct (@X4_pool_entries_paired Demo.E DemoReads.db_two Hp) as [Hall _].
  split; [exact Hp | apply Hall].
Defined.

(** X5: storing [block1] leaves what is read for the genesis hash. *)
Lemma X5_witness :
  @reads_ok DemoReads.R true /\
  [x00] <> BlockHeader.Hash (Block.Header Demo.block1) /\
  @HasBlock DemoReads.R true DemoReads.db_two "00"
  = @HasBlock DemoReads.R true Demo.db_genesis "00".
Proof.
  assert (Hne : [x00] <> BlockHeader.Hash (Block.Header Demo.block1))
    by (cbn; discriminate).
  destruct (@X5_other_hash_untouched Demo.E DemoReads.R true true Demo.db_genesis
              Demo.block1 [x00] DemoReads_reads_ok DemoReads_reads_ok Hne) as [Hhas _].
  split; [exact DemoReads_reads_ok|]. split; [exact Hne | exact Hhas].
Defined.

(** X8 at a node with an empty mempool and a peer that holds [tx1]. *)
Lemma X8_witness :
  [[x01]] ∈ mempool_requests
    (new_events (Demo.sm0 ∅ Demo.peer1)
       (snd (@doInitialMempoolSync Demo.E 2 (Demo.sm0 ∅ Demo.peer1)))) /\
  [x01] ∈ [[x01]] /\
  exists err,
    @mempool_GetTransaction Demo.E (mempool (Demo.sm0 ∅ Demo.peer1)) [x01] = inl err /\
    errors_Is_ErrTxNotFound (Some err) = true.
Proof.
  assert (Hreq : [[x01]] ∈ mempool_requests
            (new_events (Demo.sm0 ∅ Demo.peer1)
               (snd (@doInitialMempoolSync Demo.E 2 (Demo.sm0 ∅ Demo.peer1)))))
    by (vm_compute; apply list_elem_of_here).
  assert (Hh : [x01] ∈ [[x01]]) by apply list_elem_of_here.
  destruct (@X8_requests_only_unknown_inventory Demo.E 2 (Demo.sm0 ∅ Demo.peer1)
              [[x01]] [x01] Hreq Hh) as (reply & v & err & _ & _ & _ & Hget & Hunk).
  split; [exact Hreq|]. split; [exact Hh|]. exists err. split; [exact Hget | exact Hunk].
Defined.

(** X9 at the same node: one iteration requests the missing hash. *)
Lemma X9_witness :
  @mempool_calls_succeed Demo.E /\
  0 < @MaxTransactionCountForRetrieving Demo.E /\
  exists items,
    items ∈ mempool_requests
      (new_events (Demo.sm0 ∅ Demo.peer1)
         (snd (@doInitialMempoolSync Demo.E 1 (Demo.sm0 ∅ Demo.peer1)))) /\
    [x01] ∈ items.
Proof.
  assert (HM : 0 < @MaxTransactionCountForRetrieving Demo.E) by (cbn; lia).
  split; [exact Demo_mempool_calls_succeed|]. split; [exact HM|].
  apply (@X9_every_unknown_hash_requested Demo.E 1 (Demo.sm0 ∅ Demo.peer1)
           (mkInvMessage [mkInvItem [x01]]) (mkInvItem [x01])
           Demo_mempool_calls_succeed HM).
  - reflexivity.
  - vm_compute. discriminate.
  - apply list_elem_of_here.
  - reflexivity.
Defined.

(** The same at a mempool whose [GetTransaction] wraps the sentinel:
    [errors.Is] sees through the wrapping and the hash is requested. *)
Example wrapped_sentinel_is_requested :
  @mempool_GetTransaction DemoReads.E_busy [] [x01]
    = inl (ErrWrapped "mempool: failed to get transaction" ErrTxNotFound) /\
  mempool_requests
    (new_events (@NewSyncManager DemoReads.E_busy ∅ [] tt)
       (snd (@doInitialMempoolSync DemoReads.E_busy 1
               (@NewSyncManager DemoReads.E_busy ∅ [] tt))))
  = [[[x01]]].
Proof. split; reflexivity. Qed.

(** X11 at local height 0 and a peer at height 1 that serves [block1]. *)
Lemma X11_witness :
  1 - 0 <= @MaxBlockCountForRetrieving Demo.E /\
  Forall (fun b => is_Some (BlockHeader.LastHashProof (Block.Header b))) [Demo.block1] /\
  fst (@catchUp Demo.E 1 0 1 (Demo.sm0 Demo.db_genesis Demo.peer1)) = Some None /\
  range_requests
    (new_events (Demo.sm0 Demo.db_genesis Demo.peer1)
       (snd (@catchUp Demo.E 1 0 1 (Demo.sm0 Demo.db_genesis Demo.peer1))))
  = [(0 + 1, 1)] /\
  processed_blocks
    (new_events (Demo.sm0 Demo.db_genesis Demo.peer1)
       (snd (@catchUp Demo.E 1 0 1 (Demo.sm0 Demo.db_genesis Demo.peer1))))
  = [Demo.block1].
Proof.
  assert (HM : 1 - 0 <= @MaxBlockCountForRetrieving Demo.E) by (cbn; lia).
  assert (H1 : is_uint64 1) by (unfold is_uint64, uint64_modulus; lia).
  assert (Hall : Forall (fun b => is_Some (BlockHeader.LastHashProof (Block.Header b)))
                   [Demo.block1])
    by (constructor; [by eexists | constructor]).
  destruct (@X11_single_batch_catch_up Demo.E 1 0 1
              (Demo.sm0 Demo.db_genesis Demo.peer1)
              (mkGetRangeOfBlocksReply [Demo.block1] [] None)
              ltac:(lia) is_uint64_0 H1 ltac:(lia) HM eq_refl)
    as (Hreq & _ & Hgo & _).
  destruct (Hgo Hall) as [Hres Hblocks].
  split; [exact HM|]. split; [exact Hall|]. split; [exact Hres|].
  split; [exact Hreq | exact Hblocks].
Defined.

(** The same peer serving first a copy of [block1] without last-hash
    proof: the catch-up panics on it and [block1] is not looked at. *)
Example nil_proof_stops_the_batch :
  fst (@catchUp Demo.E 1 0 1 (Demo.sm0 Demo.db_genesis Demo.peer1_nil_proof)) = None /\
  processed_blocks
    (new_events (Demo.sm0 Demo.db_genesis Demo.peer1_nil_proof)
       (snd (@catchUp Demo.E 1 0 1 (Demo.sm0 Demo.db_genesis Demo.peer1_nil_proof))))
  = [Demo.block1_nil_proof] /\
  panics
    (new_events (Demo.sm0 Demo.db_genesis Demo.peer1_nil_proof)
       (snd (@catchUp Demo.E 1 0 1 (Demo.sm0 Demo.db_genesis Demo.peer1_nil_proof))))
  = ["invalid memory address or nil pointer dereference"].
Proof. split; [|split]; vm_compute; reflexivity. Qed.

(** X12 at a node that holds the genesis block and a peer at height 0. *)
Lemma X12_witness :
  @GetLatestBlockHeight Demo.E Demo.db_genesis = (0, None) /\
  fst (@doInitialBlockPoolSync Demo.E 3
         (Demo.sm0 Demo.db_genesis (Demo.mkPeer 0 [] [] true))) = Some None /\
  new_events (Demo.sm0 Demo.db_genesis (Demo.mkPeer 0 [] [] true))
    (snd (@doInitialBlockPoolSync Demo.E 3
            (Demo.sm0 Demo.db_genesis (Demo.mkPeer 0 [] [] true))))
  = [EvRPC CallLastBlockHeight].
Proof.
  assert (Hl : @GetLatestBlockHeight Demo.E Demo.db_genesis = (0, None))
    by (vm_compute; reflexivity).
  destruct (@X12_peer_not_ahead Demo.E 3
              (Demo.sm0 Demo.db_genesis (Demo.mkPeer 0 [] [] true)) 0 None
              (mkLastBlockHeightReply 0 None)
              eq_refl Hl eq_refl eq_refl eq_refl ltac:(cbn; lia))
    as (Hres & Hev & _).
  split; [exact Hl|]. split; [exact Hres | exact Hev].
Defined.

(** X13 at the transactions [tx1; tx_bad] of a block of hash [00 01]. *)
Lemma X13_witness :
  Forall (@tx_validates Demo.E [x00; x01]) [Demo.tx1] /\
  ~ @tx_validates Demo.E [x00; x01] Demo.tx_bad /\
  @checkTransactions Demo.E [x00; x01] ([Demo.tx1] ++ Demo.tx_bad :: [Demo.tx1])
  = Some (Errorf "transaction hash is invalid" []).
Proof.
  assert (Hpre : Forall (@tx_validates Demo.E [x00; x01]) [Demo.tx1]).
  { constructor; [|constructor]. split; [by eexists|]. split; reflexivity. }
  assert (Hbad : ~ @tx_validates Demo.E [x00; x01] Demo.tx_bad).
  { intros (_ & _ & Hh). vm_compute in Hh. discriminate. }
  destruct (@X13_first_failing_transaction_decides Demo.E [x00; x01]
              [Demo.tx1] [Demo.tx1] Demo.tx_bad Hpre Hbad) as [_ Heq].
  split; [exact Hpre|]. split; [exact Hbad|]. rewrite Heq. reflexivity.
Defined.

(** X14 at [block1], offered to a pool that holds the genesis block. *)
Lemma X14_witness :
  @reads_ok DemoReads.R true /\
  @block_validates Demo.E (blockpool (Demo.sm0 Demo.db_genesis Demo.peer1)) Demo.block1 /\
  @HasBlock DemoReads.R true
    (blockpool (snd (@processReceivedBlock Demo.E Demo.block1
                       (Demo.sm0 Demo.db_genesis Demo.peer1)))) "0001" = (true, None).
Proof.
  assert (Hv : @block_validates Demo.E
                 (blockpool (Demo.sm0 Demo.db_genesis Demo.peer1)) Demo.block1).
  { exists (Block.Header Demo.genesis). split; [vm_compute; reflexivity|].
    split; [reflexivity|]. split; [vm_compute; reflexivity|].
    constructor; [|constructor]. split; [by eexists|]. split; reflexivity. }
  split; [exact DemoReads_reads_ok|]. split; [exact Hv|].
  destruct (@X14_validated_block_stored_and_found Demo.E DemoReads.R true Demo.block1
              (Demo.sm0 Demo.db_genesis Demo.peer1) DemoReads_reads_ok Hv)
    as [(_ & _ & Hhas)|(err & Hs & _)].
  - exact Hhas.
  - vm_compute in Hs. discriminate Hs.
Defined.

Lemma E_busy_inventory_always_missing :
  @inventory_always_missing DemoReads.E_busy [].
Proof. intros w. eexists. split; [reflexivity|]. cbn. discriminate. Qed.

Lemma E_busy_mempool_calls_succeed : @mempool_calls_succeed DemoReads.E_busy.
Proof. intros w items. eexists. split; reflexivity. Qed.

(** X16 at a node with an empty mempool and a peer that always holds
    [tx1]: after four iterations [Start] has not returned. *)
Lemma X16_witness :
  @inventory_always_missing DemoReads.E_busy [] /\
  @mempool_calls_succeed DemoReads.E_busy /\
  fst (@Start DemoReads.E_busy 4 (@NewSyncManager DemoReads.E_busy ∅ [] tt)) = None.
Proof.
  destruct (@X16_Start_never_returns_when_behind DemoReads.E_busy 4
              (@NewSyncManager DemoReads.E_busy ∅ [] tt)
              E_busy_inventory_always_missing E_busy_mempool_calls_succeed)
    as [Hres _].
  split; [exact E_busy_inventory_always_missing|].
  split; [exact E_busy_mempool_calls_succeed | exact Hres].
Defined.

(** X19 at a node with an empty pool: the genesis block, then the peer. *)
Lemma X19_witness :
  @GetLatestBlockHeight Demo.E (blockpool (Demo.sm0 ∅ Demo.peer1))
    = (0, Some ErrLatestHeightNil) /\
  snd (@StoreBlock Demo.E (blockpool (Demo.sm0 ∅ Demo.peer1)) Demo.genesis) = None /\
  @doInitialBlockPoolSync Demo.E 3 (Demo.sm0 ∅ Demo.peer1)
    = @syncWithPeer Demo.E 3 0
        (snd (@blockpool_StoreBlock Demo.E Demo.genesis (Demo.sm0 ∅ Demo.peer1))).
Proof.
  assert (Hl : @GetLatestBlockHeight Demo.E (blockpool (Demo.sm0 ∅ Demo.peer1))
               = (0, Some ErrLatestHeightNil)) by (vm_compute; reflexivity).
  assert (Hs : snd (@StoreBlock Demo.E (blockpool (Demo.sm0 ∅ Demo.peer1)) Demo.genesis)
               = None) by reflexivity.
  destruct (@X19_cold_start_stores_genesis_first Demo.E 3 (Demo.sm0 ∅ Demo.peer1) 0
              eq_refl Hl) as [_ Hgo].
  destruct (Hgo Hs) as (Heq & _).
  split; [exact Hl|]. split; [exact Hs | exact Heq].
Defined.

(** X20 behind a link that drops range requests. *)
Lemma X20_witness :
  fst (@catchUp Demo.E 10 0 1500 (Demo.sm0 Demo.db_genesis Demo.peer1500_down))
    = Some (Some (ErrExternal "connection reset by peer")) /\
  blockpool (snd (@catchUp Demo.E 10 0 1500
                    (Demo.sm0 Demo.db_genesis Demo.peer1500_down))) = Demo.db_genesis.
Proof.
  assert (Hr : fst (@catchUp Demo.E 10 0 1500
                      (Demo.sm0 Demo.db_genesis Demo.peer1500_down))
               = Some (Some (ErrExternal "connection reset by peer")))
    by (vm_compute; reflexivity).
  destruct (@X20_failed_fetch_drops_received_blocks Demo.E 10 0 1500
              (Demo.sm0 Demo.db_genesis Demo.peer1500_down) _ Hr) as (_ & _ & Hdb).
  split; [exact Hr | exact Hdb].
Defined.

(** X21 at [block1], stored twice on top of the genesis block. *)
Lemma X21_witness :
  @StoreBlock Demo.E Demo.db_genesis Demo.block1 = (DemoReads.db_two, None) /\
  fst (@StoreBlock Demo.E DemoReads.db_two Demo.block1) = DemoReads.db_two.
Proof.
  split; [exact Demo_store_block1|].
  exact (@X21_StoreBlock_twice_is_once Demo.E Demo.db_genesis DemoReads.db_two
           Demo.block1 Demo_store_block1).
Defined.

(** [Stop] on a new manager returns; after a [Start] it blocks. *)
Example Stop_blocks_after_Start :
  fst (@Stop Demo.E (Demo.sm0 ∅ Demo.peer1)) = Some tt /\
  fst (@Stop Demo.E (snd (@Start Demo.E 3 (Demo.sm0 ∅ Demo.peer1)))) = None.
Proof. split; vm_compute; reflexivity. Qed.

(** ** The client, run on a small HTTP side *)

(** A host that does not parse: both methods panic. *)
Example unparsable_host_panics :
  @HandleRequest DemoReads.H (NewLotusClient ":3000" "t0k") tt None [x7b]
  = Panicked "invalid memory address or nil pointer dereference" /\
  @GetMessage DemoReads.H (NewLotusClient ":3000" "t0k") tt None "bafy"
  = Panicked "invalid memory address or nil pointer dereference".
Proof. split; reflexivity. Qed.
